(** * The trait compiler of ngtsc (compiler-cli/src/ngtsc/transform/src/compilation.ts)

    A shallow embedding of [TraitCompiler]: the matching of decorator
    handlers against a class ([scanClassForTraits]), the analysis and
    resolution passes over the traits of every class, the per-class
    compilation step and the recording of NgModule scope dependencies.

    JavaScript objects that are mutated through more than one name
    ([ClassRecord]s: the local variable [record] and the [classes] map)
    live in an object heap and are named by references.  A JavaScript
    [Map] is an association list in insertion order.  Every method of the
    class is a computation in a state-and-exception monad over the fields
    of the compiler.  Analysis is embedded on its synchronous path
    ([analyzeSync]); the promises of [preanalyze] are left out. *)

From Stdlib Require Import ZArith String List Bool Lia DecimalString.
From stdpp Require Import base decidable option list strings.

Set Implicit Arguments.
Set Warnings "-register-all".
Local Open Scope string_scope.
Local Open Scope list_scope.

(** ** JavaScript containers *)

(** [Map<K, V>]: keys are compared by identity, iteration follows the order
    of first insertion, and [set] on a present key overwrites in place. *)
Module JsMap.
Section Defs.
Context {K V : Type} `{EqDecision K}.

Definition t := list (K * V).

Definition empty : t := [].

Fixpoint get (k : K) (m : t) : option V :=
  match m with
  | [] => None
  | (k', v) :: m' => if decide (k = k') then Some v else get k m'
  end.

Definition has (k : K) (m : t) : bool :=
  match get k m with Some _ => true | None => false end.

Fixpoint set (k : K) (v : V) (m : t) : t :=
  match m with
  | [] => [(k, v)]
  | (k', v') :: m' =>
    if decide (k = k') then (k, v) :: m' else (k', v') :: set k v m'
  end.

Definition keys (m : t) : list K := map fst m.
End Defs.
Arguments t : clear implicits.
End JsMap.

(** [Set<T>]: insertion-ordered, no duplicates. *)
Module JsSet.
Section Defs.
Context {T : Type} `{EqDecision T}.

Definition t := list T.

Definition has (x : T) (s : t) : bool := bool_decide (x ∈ s).

Definition add (x : T) (s : t) : t := if has x s then s else s ++ [x].
End Defs.
Arguments t : clear implicits.
End JsSet.

(** ** TypeScript nodes, files and diagnostics *)

Record SourceFile := { fileName : string }.

Global Instance SourceFile_eq_dec : EqDecision SourceFile.
Proof. solve_decision. Defined.

Inductive SyntaxKind := ClassDeclarationKind | OtherDeclarationKind.

Global Instance SyntaxKind_eq_dec : EqDecision SyntaxKind.
Proof. solve_decision. Defined.

(** A [ts.Declaration] node.  [nodeId] stands for the identity of the node
    object; [original] is the node this one was produced from by an earlier
    transformation, when there is one. *)
Inductive Declaration := mkDeclaration {
  nodeId : nat;
  kind : SyntaxKind;
  name : option string;
  sourceFile : SourceFile;
  start : Z;
  width : Z;
  exportModifier : bool;
  original : option Declaration
}.

Fixpoint Declaration_eqb (a b : Declaration) : bool :=
  bool_decide (nodeId a = nodeId b) &&
  bool_decide (kind a = kind b) &&
  bool_decide (name a = name b) &&
  bool_decide (sourceFile a = sourceFile b) &&
  bool_decide (start a = start b) &&
  bool_decide (width a = width b) &&
  bool_decide (exportModifier a = exportModifier b) &&
  match original a, original b with
  | None, None => true
  | Some a', Some b' => Declaration_eqb a' b'
  | _, _ => false
  end.

Lemma Declaration_eqb_spec : ∀ a b : Declaration, Declaration_eqb a b = true ↔ a = b.
Proof.
  fix IH 1.
  intros [i k n f s w e o] [i' k' n' f' s' w' e' o']; simpl.
  rewrite !andb_true_iff, !bool_decide_eq_true.
  split.
  - intros [[[[[[[-> ->] ->] ->] ->] ->] ->] Ho].
    f_equal.
    destruct o as [x|], o' as [y|]; try discriminate; [|done].
    f_equal. by apply IH.
  - intros [= -> -> -> -> -> -> -> <-].
    repeat split.
    destruct o as [x|]; [|done]. by apply IH.
Qed.

Global Instance Declaration_eq_dec : EqDecision Declaration.
Proof.
  intros a b. destruct (Declaration_eqb a b) eqn:E.
  - left. by apply Declaration_eqb_spec.
  - right. intros H. apply Declaration_eqb_spec in H. congruence.
Defined.

(** The reflection helper [isNamedClassDeclaration]: a class declaration
    that has a name. *)
Definition isNamedClassDeclaration (node : Declaration) : bool :=
  bool_decide (kind node = ClassDeclarationKind) &&
  match name node with Some _ => true | None => false end.

(** [isExported] of util/src/typescript: the node carries [export]. *)
Definition isExported (node : Declaration) : bool := exportModifier node.

(** [node.getSourceFile()] and the helper [getSourceFile(node)]. *)
Definition getSourceFile (node : Declaration) : SourceFile := sourceFile node.

(** [node.name.text] *)
Definition nameText (node : Declaration) : string := default EmptyString (name node).

(** [ts.getOriginalNode]: follow [original] to its end. *)
Fixpoint getOriginalNode (node : Declaration) : Declaration :=
  match original node with
  | Some o => getOriginalNode o
  | None => node
  end.

Inductive DiagnosticCategory := Warning | Error | Suggestion | Message.

(** [ts.Diagnostic].  [code] is [None] for a number that is [NaN]. *)
Module Diagnostic.
Record t := {
  category : DiagnosticCategory;
  code : option Z;
  file : SourceFile;
  start : Z;
  length : Z;
  messageText : string
}.
End Diagnostic.

(** [Number(s)] on a decimal numeral. *)
Definition Number (s : string) : option Z :=
  Z.of_int <$> NilZero.int_of_string s.

(** The decimal rendering of a number that is concatenated to a string. *)
Definition toDecimal (n : N) : string := NilZero.string_of_uint (N.to_uint n).

(** Values the embedding does not look into (TypeScript's [unknown]):
    handler metadata, analyses, resolutions, expressions, types. *)
Definition unknown : Type := string.

(** What a [throw] carries: an [Error] with its message, a
    [FatalDiagnosticError] (given by what its [toDiagnostic()] returns), or
    any other value. *)
Inductive Thrown :=
  | JsError (message : string)
  | FatalDiagnosticError (toDiagnostic : Diagnostic.t)
  | OtherValue (v : unknown).

(** A call into a handler returns or throws. *)
Inductive Outcome (A : Type) :=
  | Returns (a : A)
  | Throws (e : Thrown).
Arguments Returns {A} a.
Arguments Throws {A} e.

(** ** The handler interface (./api) *)

Inductive HandlerPrecedence := PRIMARY | SHARED | WEAK.

Global Instance HandlerPrecedence_eq_dec : EqDecision HandlerPrecedence.
Proof. solve_decision. Defined.

Definition Decorator : Type := string.

Module DetectResult.
Record t := { trigger : option Decorator; metadata : unknown }.
End DetectResult.

Module AnalysisOutput.
Record t := {
  analysis : option unknown;
  diagnostics : option (list Diagnostic.t);
  factorySymbolName : option string
}.
End AnalysisOutput.

Module Reexport.
Record t := { symbolName : string; asAlias : string; fromModule : string }.
End Reexport.

Module ResolveResult.
Record t := {
  reexports : option (list Reexport.t);
  diagnostics : option (list Diagnostic.t);
  data : option unknown
}.
End ResolveResult.

Module CompileResult.
Record t := {
  name : string;
  initializer : unknown;
  statements : list unknown;
  type : unknown
}.
End CompileResult.

(** [compile] returns one result or an array of them. *)
Inductive CompileReturn :=
  | Single (r : CompileResult.t)
  | Many (rs : list CompileResult.t).

(** The constant pool is an accumulator owned by the caller; a handler's
    [compile] may add to it.  So are the contexts of type checking and of
    indexing. *)
Definition ConstantPool : Type := list unknown.
Definition TypeCheckContext : Type := list unknown.
Definition IndexingContext : Type := list unknown.

Module DecoratorHandler.
Record t := {
  (* Object.getPrototypeOf(handler).constructor.name *)
  constructorName : string;
  precedence : HandlerPrecedence;
  (* undefined when the handler does not apply *)
  detect : Declaration → option (list Decorator) → option DetectResult.t;
  analyze : Declaration → unknown → Outcome AnalysisOutput.t;
  (* optional methods *)
  resolve : option (Declaration → option unknown → Outcome ResolveResult.t);
  typeCheck : option (TypeCheckContext → Declaration → option unknown →
                      option unknown → TypeCheckContext);
  index : option (IndexingContext → Declaration → option unknown →
                  option unknown → IndexingContext);
  compile : Declaration → option unknown → option unknown → ConstantPool →
            CompileReturn * ConstantPool
}.
End DecoratorHandler.

(** ** Traits (./trait) *)

Inductive TraitState := PENDING | ANALYZED | RESOLVED | ERRORED | SKIPPED.

Global Instance TraitState_eq_dec : EqDecision TraitState.
Proof. solve_decision. Defined.

(** [TraitState[state]]: the name of an enum member. *)
Definition TraitState_name (s : TraitState) : string :=
  match s with
  | PENDING => "PENDING"
  | ANALYZED => "ANALYZED"
  | RESOLVED => "RESOLVED"
  | ERRORED => "ERRORED"
  | SKIPPED => "SKIPPED"
  end.

Module Trait.
(** Modelled from the spec: the [Trait] class of ./trait is not part of
    the sources at hand.  A trait has an immutable identity (handler and
    detection result) and a mutable lifecycle payload; the transitions
    below are those of the lifecycle table, each one an update of the
    trait object itself, which is also what the call returns. *)
Record t := {
  state : TraitState;
  handler : DecoratorHandler.t;
  detected : DetectResult.t;
  analysis : option unknown;
  resolution : option unknown;
  diagnostics : option (list Diagnostic.t)
}.

Definition pending (handler : DecoratorHandler.t) (detected : DetectResult.t) : t :=
  {| state := PENDING; handler := handler; detected := detected;
     analysis := None; resolution := None; diagnostics := None |}.

Definition toAnalyzed (a : unknown) (tr : t) : t :=
  {| state := ANALYZED; handler := handler tr; detected := detected tr;
     analysis := Some a; resolution := resolution tr;
     diagnostics := diagnostics tr |}.

Definition toErrored (ds : list Diagnostic.t) (tr : t) : t :=
  {| state := ERRORED; handler := handler tr; detected := detected tr;
     analysis := analysis tr; resolution := resolution tr;
     diagnostics := Some ds |}.

Definition toResolved (r : option unknown) (tr : t) : t :=
  {| state := RESOLVED; handler := handler tr; detected := detected tr;
     analysis := analysis tr; resolution := r;
     diagnostics := diagnostics tr |}.

Definition toSkipped (tr : t) : t :=
  {| state := SKIPPED; handler := handler tr; detected := detected tr;
     analysis := analysis tr; resolution := resolution tr;
     diagnostics := diagnostics tr |}.

Definition precedence (tr : t) : HandlerPrecedence :=
  DecoratorHandler.precedence (handler tr).
End Trait.

(** ** Class records *)

Module ClassRecord.
Record t := {
  node : Declaration;
  traits : list Trait.t;
  metaDiagnostics : option (list Diagnostic.t);
  hasWeakHandlers : bool;
  hasPrimaryHandler : bool
}.

Definition set_traits (f : list Trait.t → list Trait.t) (r : t) : t :=
  {| node := node r; traits := f (traits r);
     metaDiagnostics := metaDiagnostics r;
     hasWeakHandlers := hasWeakHandlers r;
     hasPrimaryHandler := hasPrimaryHandler r |}.

Definition set_metaDiagnostics (d : option (list Diagnostic.t)) (r : t) : t :=
  {| node := node r; traits := traits r; metaDiagnostics := d;
     hasWeakHandlers := hasWeakHandlers r;
     hasPrimaryHandler := hasPrimaryHandler r |}.

Definition set_hasWeakHandlers (b : bool) (r : t) : t :=
  {| node := node r; traits := traits r;
     metaDiagnostics := metaDiagnostics r; hasWeakHandlers := b;
     hasPrimaryHandler := hasPrimaryHandler r |}.

Definition set_hasPrimaryHandler (b : bool) (r : t) : t :=
  {| node := node r; traits := traits r;
     metaDiagnostics := metaDiagnostics r;
     hasWeakHandlers := hasWeakHandlers r; hasPrimaryHandler := b |}.
End ClassRecord.

(** A reference to a [ClassRecord] object: its address in the heap. *)
Abbreviation ref := nat.

(** ** Collaborators *)

(** An entry of [LocalModuleScopeRegistry.getCompilationScopes()]. *)
Module ScopeMember.
(* [node] is [member.ref.node] *)
Record directive := { node : Declaration; isComponent : bool }.
Record pipe := { pipeNode : Declaration }.
End ScopeMember.

Module CompilationScope.
Record t := {
  declaration : Declaration;
  ngModule : Declaration;
  directives : list ScopeMember.directive;
  pipes : list ScopeMember.pipe
}.
End CompilationScope.

Module IncrementalDriver.
(** Modelled from the spec: the incremental store of ../../incremental is
    not part of the sources at hand.  It remembers file-level edges: an
    edge [(dep, src)] says that a change of [dep] invalidates [src], that
    is, [src] depends on [dep].  [trackFileDependency(from, to)] records
    the edge from [from] to [to], [trackFileDependencies(fromSet, to)]
    one edge per member of [fromSet], and [getFileDependencies(file)]
    returns the files [file] depends on, as currently known. *)
Definition t := list (SourceFile * SourceFile).

Definition trackFileDependency (dep src : SourceFile) (d : t) : t :=
  d ++ [(dep, src)].

Definition trackFileDependencies (deps : list SourceFile) (src : SourceFile)
    (d : t) : t :=
  d ++ map (λ dep, (dep, src)) deps.

Definition getFileDependencies (file : SourceFile) (d : t) : list SourceFile :=
  remove_dups (map fst (filter (λ e, e.2 = file) d)).
End IncrementalDriver.

Module DtsTransformRegistry.
(** Modelled from the spec: the declaration-file transform registry of
    ./declaration is not part of the sources at hand; the compiler only
    issues [addFields(declaration, results)] and
    [addTypeReplacement(declaration, type)] calls to the transform of a
    file.  The registry is the sequence of calls it has received. *)
Inductive call :=
  | addFields (sf : SourceFile) (decl : Declaration)
      (fields : list CompileResult.t)
  | addTypeReplacement (sf : SourceFile) (decl : Declaration) (type : unknown).

Definition t := list call.
End DtsTransformRegistry.

Module PerfRecorder.
(** [start] opens a span and returns its number; [stop] closes it. *)
Inductive event :=
  | start (name : string) (node : option Declaration)
  | stop (span : nat).

Definition t := list event.
End PerfRecorder.

(** ** The compiler object *)

(** The constructor parameters and the private fields of [TraitCompiler],
    with the heap of the [ClassRecord] objects it has allocated.
    [reflector] is [reflector.getDecoratorsOfDeclaration], [scopeRegistry]
    is what [scopeRegistry.getCompilationScopes()] returns, and
    [mwpScanner] gives the type replacements the scanner reports for a
    file.  ([importRewriter] is never used and is left out.) *)
Record TraitCompiler := {
  handlers : list DecoratorHandler.t;
  reflector : Declaration → option (list Decorator);
  incrementalDriver : IncrementalDriver.t;
  perf : PerfRecorder.t;
  sourceToFactorySymbols : option (JsMap.t string (JsSet.t string));
  scopeRegistry : list CompilationScope.t;
  compileNonExportedClasses : bool;
  dtsTransforms : DtsTransformRegistry.t;
  mwpScanner : SourceFile → list (Declaration * unknown);
  classes : JsMap.t Declaration ref;
  fileToClasses : JsMap.t SourceFile (JsSet.t Declaration);
  reexportMap : JsMap.t string (JsMap.t string (string * string));
  heap : list ClassRecord.t
}.

Definition set_incrementalDriver (f : IncrementalDriver.t → IncrementalDriver.t)
    (c : TraitCompiler) : TraitCompiler :=
  {| handlers := handlers c; reflector := reflector c;
     incrementalDriver := f (incrementalDriver c); perf := perf c;
     sourceToFactorySymbols := sourceToFactorySymbols c;
     scopeRegistry := scopeRegistry c;
     compileNonExportedClasses := compileNonExportedClasses c;
     dtsTransforms := dtsTransforms c; mwpScanner := mwpScanner c;
     classes := classes c; fileToClasses := fileToClasses c;
     reexportMap := reexportMap c; heap := heap c |}.

Definition set_perf (f : PerfRecorder.t → PerfRecorder.t)
    (c : TraitCompiler) : TraitCompiler :=
  {| handlers := handlers c; reflector := reflector c;
     incrementalDriver := incrementalDriver c; perf := f (perf c);
     sourceToFactorySymbols := sourceToFactorySymbols c;
     scopeRegistry := scopeRegistry c;
     compileNonExportedClasses := compileNonExportedClasses c;
     dtsTransforms := dtsTransforms c; mwpScanner := mwpScanner c;
     classes := classes c; fileToClasses := fileToClasses c;
     reexportMap := reexportMap c; heap := heap c |}.

Definition set_sourceToFactorySymbols
    (f : option (JsMap.t string (JsSet.t string)) →
         option (JsMap.t string (JsSet.t string)))
    (c : TraitCompiler) : TraitCompiler :=
  {| handlers := handlers c; reflector := reflector c;
     incrementalDriver := incrementalDriver c; perf := perf c;
     sourceToFactorySymbols := f (sourceToFactorySymbols c);
     scopeRegistry := scopeRegistry c;
     compileNonExportedClasses := compileNonExportedClasses c;
     dtsTransforms := dtsTransforms c; mwpScanner := mwpScanner c;
     classes := classes c; fileToClasses := fileToClasses c;
     reexportMap := reexportMap c; heap := heap c |}.

Definition set_dtsTransforms (f : DtsTransformRegistry.t → DtsTransformRegistry.t)
    (c : TraitCompiler) : TraitCompiler :=
  {| handlers := handlers c; reflector := reflector c;
     incrementalDriver := incrementalDriver c; perf := perf c;
     sourceToFactorySymbols := sourceToFactorySymbols c;
     scopeRegistry := scopeRegistry c;
     compileNonExportedClasses := compileNonExportedClasses c;
     dtsTransforms := f (dtsTransforms c); mwpScanner := mwpScanner c;
     classes := classes c; fileToClasses := fileToClasses c;
     reexportMap := reexportMap c; heap := heap c |}.

Definition set_classes (f : JsMap.t Declaration ref → JsMap.t Declaration ref)
    (c : TraitCompiler) : TraitCompiler :=
  {| handlers := handlers c; reflector := reflector c;
     incrementalDriver := incrementalDriver c; perf := perf c;
     sourceToFactorySymbols := sourceToFactorySymbols c;
     scopeRegistry := scopeRegistry c;
     compileNonExportedClasses := compileNonExportedClasses c;
     dtsTransforms := dtsTransforms c; mwpScanner := mwpScanner c;
     classes := f (classes c); fileToClasses := fileToClasses c;
     reexportMap := reexportMap c; heap := heap c |}.

Definition set_fileToClasses
    (f : JsMap.t SourceFile (JsSet.t Declaration) →
         JsMap.t SourceFile (JsSet.t Declaration))
    (c : TraitCompiler) : TraitCompiler :=
  {| handlers := handlers c; reflector := reflector c;
     incrementalDriver := incrementalDriver c; perf := perf c;
     sourceToFactorySymbols := sourceToFactorySymbols c;
     scopeRegistry := scopeRegistry c;
     compileNonExportedClasses := compileNonExportedClasses c;
     dtsTransforms := dtsTransforms c; mwpScanner := mwpScanner c;
     classes := classes c; fileToClasses := f (fileToClasses c);
     reexportMap := reexportMap c; heap := heap c |}.

Definition set_reexportMap
    (f : JsMap.t string (JsMap.t string (string * string)) →
         JsMap.t string (JsMap.t string (string * string)))
    (c : TraitCompiler) : TraitCompiler :=
  {| handlers := handlers c; reflector := reflector c;
     incrementalDriver := incrementalDriver c; perf := perf c;
     sourceToFactorySymbols := sourceToFactorySymbols c;
     scopeRegistry := scopeRegistry c;
     compileNonExportedClasses := compileNonExportedClasses c;
     dtsTransforms := dtsTransforms c; mwpScanner := mwpScanner c;
     classes := classes c; fileToClasses := fileToClasses c;
     reexportMap := f (reexportMap c); heap := heap c |}.

Definition set_heap (f : list ClassRecord.t → list ClassRecord.t)
    (c : TraitCompiler) : TraitCompiler :=
  {| handlers := handlers c; reflector := reflector c;
     incrementalDriver := incrementalDriver c; perf := perf c;
     sourceToFactorySymbols := sourceToFactorySymbols c;
     scopeRegistry := scopeRegistry c;
     compileNonExportedClasses := compileNonExportedClasses c;
     dtsTransforms := dtsTransforms c; mwpScanner := mwpScanner c;
     classes := classes c; fileToClasses := fileToClasses c;
     reexportMap := reexportMap c; heap := f (heap c) |}.

(** ** Computations: state of the compiler, and exceptions *)

Inductive Completion (A : Type) :=
  | Normal (a : A)
  | Abrupt (e : Thrown).
Arguments Normal {A} a.
Arguments Abrupt {A} e.

Definition M (A : Type) : Type := TraitCompiler → Completion A * TraitCompiler.

Definition ret {A} (a : A) : M A := λ c, (Normal a, c).

Definition bind {A B} (m : M A) (k : A → M B) : M B :=
  λ c, match m c with
       | (Normal a, c') => k a c'
       | (Abrupt e, c') => (Abrupt e, c')
       end.

Definition throw {A} (e : Thrown) : M A := λ c, (Abrupt e, c).

Definition gets {A} (f : TraitCompiler → A) : M A := λ c, (Normal (f c), c).

Definition modify (f : TraitCompiler → TraitCompiler) : M unit :=
  λ c, (Normal tt, f c).

Declare Scope js_scope.
Delimit Scope js_scope with js.
Bind Scope js_scope with M.
Notation "'let!' x ':=' m 'in' k" := (bind m (λ x, k))
  (at level 10, x name, m at level 100, k at level 200) : js_scope.
Notation "m '>>' k" := (bind m (λ _, k))
  (at level 100, k at level 200, right associativity) : js_scope.
Local Open Scope js_scope.

(** Reading a property of [undefined] throws a [TypeError]; in the
    embedding this is also what following a reference to no object does. *)
Definition TypeError {A} : M A :=
  throw (JsError "TypeError: Cannot read property of undefined").

(** [new] of a class record: a fresh object, returned by reference. *)
Definition alloc (r : ClassRecord.t) : M ref :=
  λ c, (Normal (List.length (heap c)), set_heap (λ h, h ++ [r]) c).

(** Reading the object behind a reference. *)
Definition deref (p : ref) : M ClassRecord.t :=
  let! h := gets heap in
  match h !! p with
  | Some r => ret r
  | None => TypeError
  end.

(** An assignment to fields of the object behind a reference. *)
Definition mutate (p : ref) (f : ClassRecord.t → ClassRecord.t) : M unit :=
  modify (set_heap (alter f p)).

(** An in-place transition of the [i]-th trait of a record: the trait
    object is shared by everyone who holds the record. *)
Definition mutateTrait (p : ref) (i : nat) (f : Trait.t → Trait.t) : M unit :=
  mutate p (ClassRecord.set_traits (alter f i)).

(** ** The methods of [TraitCompiler] *)

Section Compilation.

(** [ErrorCode.DECORATOR_COLLISION] of ../../diagnostics. *)
Variable DECORATOR_COLLISION : N.

(** The diagnostic of lines 196-203. *)
Definition collisionDiagnostic (clazz : Declaration) : Diagnostic.t :=
  {| Diagnostic.category := Error;
     Diagnostic.code := Number ("-99" +:+ toDecimal DECORATOR_COLLISION);
     Diagnostic.file := getSourceFile clazz;
     Diagnostic.start := start clazz;
     Diagnostic.length := width clazz;
     Diagnostic.messageText := "Two incompatible decorators on class" |}.

(** [fileToClasses.get(sf)!.add(clazz)] *)
Definition fileToClasses_add (sf : SourceFile) (clazz : Declaration) : M unit :=
  let! s := gets (λ c, JsMap.get sf (fileToClasses c)) in
  match s with
  | Some s => modify (set_fileToClasses (JsMap.set sf (JsSet.add clazz s)))
  | None => TypeError
  end.

(** The loop of [scanClassForTraits] (lines 143-213) over the handlers that
    are left, with the local variable [record]; its result is what the
    method returns. *)
Fixpoint scanHandlers (clazz : Declaration) (decorators : option (list Decorator))
    (hs : list DecoratorHandler.t) (record : option ref) : M (option ref) :=
  match hs with
  | [] => ret record
  | handler :: rest =>
    match DecoratorHandler.detect handler clazz decorators with
    | None => scanHandlers clazz decorators rest record
    | Some result =>
      let isPrimaryHandler :=
        bool_decide (DecoratorHandler.precedence handler = PRIMARY) in
      let isWeakHandler :=
        bool_decide (DecoratorHandler.precedence handler = WEAK) in
      let trait := Trait.pending handler result in
      match record with
      | None =>
        let! r := alloc {| ClassRecord.node := clazz;
                           ClassRecord.traits := [trait];
                           ClassRecord.metaDiagnostics := None;
                           ClassRecord.hasPrimaryHandler := isPrimaryHandler;
                           ClassRecord.hasWeakHandlers := isWeakHandler |} in
        modify (set_classes (JsMap.set clazz r)) >>
        let sf := getSourceFile clazz in
        let! known := gets (λ c, JsMap.has sf (fileToClasses c)) in
        (if negb known then modify (set_fileToClasses (JsMap.set sf []))
         else ret tt) >>
        fileToClasses_add sf clazz >>
        scanHandlers clazz decorators rest (Some r)
      | Some r =>
        (* lines 194-211 *)
        let checkPrimary : M (option ref) :=
          let! rec := deref r in
          if isPrimaryHandler && ClassRecord.hasPrimaryHandler rec then
            mutate r (ClassRecord.set_metaDiagnostics
                        (Some [collisionDiagnostic clazz])) >>
            mutate r (ClassRecord.set_traits (λ _, [])) >>
            ret (Some r)
          else
            mutate r (ClassRecord.set_traits (λ ts, ts ++ [trait])) >>
            mutate r (λ rec, ClassRecord.set_hasPrimaryHandler
                        (ClassRecord.hasPrimaryHandler rec || isPrimaryHandler)
                        rec) >>
            scanHandlers clazz decorators rest (Some r) in
        (* lines 182-192 *)
        let! rec := deref r in
        if negb isWeakHandler && ClassRecord.hasWeakHandlers rec then
          mutate r (ClassRecord.set_traits
                      (filter (λ field, Trait.precedence field ≠ WEAK))) >>
          mutate r (ClassRecord.set_hasWeakHandlers false) >>
          checkPrimary
        else if isWeakHandler && negb (ClassRecord.hasWeakHandlers rec) then
          scanHandlers clazz decorators rest record
        else checkPrimary
      end
    end
  end.

Definition scanClassForTraits (clazz : Declaration) : M (option ref) :=
  let! nonExported := gets compileNonExportedClasses in
  if negb nonExported && negb (isExported clazz) then ret None
  else
    let! decorators := gets (λ c, reflector c clazz) in
    let! hs := gets handlers in
    scanHandlers clazz decorators hs None.

(** [sourceToFactorySymbols.get(fileName)!.add(name)] *)
Definition factorySymbols_add (file : string) (symbol : string) : M unit :=
  let! m := gets sourceToFactorySymbols in
  match m with
  | Some m =>
    match JsMap.get file m with
    | Some s =>
      modify (set_sourceToFactorySymbols
                (λ _, Some (JsMap.set file (JsSet.add symbol s) m)))
    | None => TypeError
    end
  | None => TypeError
  end.

(** [analyzeTrait(clazz, trait)], where [trait] is the [i]-th trait of the
    record behind [p]. *)
Definition analyzeTrait (clazz : Declaration) (p : ref) (i : nat) : M unit :=
  let! rec := deref p in
  match ClassRecord.traits rec !! i with
  | None => TypeError
  | Some trait =>
    if bool_decide (Trait.state trait ≠ PENDING) then
      throw (JsError ("Attempt to analyze trait of " +:+ nameText clazz +:+
                      " in state " +:+ TraitState_name (Trait.state trait) +:+
                      " (expected DETECTED)"))
    else
      match DecoratorHandler.analyze (Trait.handler trait) clazz
              (DetectResult.metadata (Trait.detected trait)) with
      | Throws (FatalDiagnosticError d) =>
        mutateTrait p i (Trait.toErrored [d])
      | Throws err => throw err
      | Returns result =>
        match AnalysisOutput.diagnostics result with
        | Some ds => mutateTrait p i (Trait.toErrored ds)
        | None =>
          match AnalysisOutput.analysis result with
          | Some a =>
            mutateTrait p i (Trait.toAnalyzed a) >>
            let sf := getSourceFile clazz in
            let! symbols := gets sourceToFactorySymbols in
            match AnalysisOutput.factorySymbolName result, symbols with
            | Some symbol, Some m =>
              if JsMap.has (fileName sf) m
              then factorySymbols_add (fileName sf) symbol
              else ret tt
            | _, _ => ret tt
            end
          | None => mutateTrait p i Trait.toSkipped
          end
        end
      end
  end.

(** The loop of [analyzeClass] over the traits of the record, by position,
    for a synchronous analysis ([preanalyzeQueue] is [null]). *)
Fixpoint analyzeTraits (clazz : Declaration) (p : ref) (positions : list nat)
    : M unit :=
  match positions with
  | [] => ret tt
  | i :: rest => analyzeTrait clazz p i >> analyzeTraits clazz p rest
  end.

Definition analyzeClass (clazz : Declaration) : M unit :=
  let! record := scanClassForTraits clazz in
  match record with
  | None => ret tt
  | Some p =>
    let! rec := deref p in
    analyzeTraits clazz p (seq 0 (List.length (ClassRecord.traits rec)))
  end.

(** [visit]: [nodes] are the nodes of the file in the order in which the
    walk by [ts.forEachChild] reaches them. *)
Fixpoint visit (nodes : list Declaration) : M unit :=
  match nodes with
  | [] => ret tt
  | node :: rest =>
    (if isNamedClassDeclaration node then analyzeClass node else ret tt) >>
    visit rest
  end.

(** [analyzeSync(sf)] *)
Definition analyzeSync (sf : SourceFile) (nodes : list Declaration) : M unit :=
  visit nodes >>
  let! replacements := gets (λ c, mwpScanner c sf) in
  modify (set_dtsTransforms (λ d,
    d ++ map (λ nt, DtsTransformRegistry.addTypeReplacement sf nt.1 nt.2)
             replacements)).

(** [perf.start(name, node)] and [perf.stop(span)] *)
Definition perf_start (name : string) (node : option Declaration) : M nat :=
  λ c, (Normal (List.length (perf c)),
        set_perf (λ l, l ++ [PerfRecorder.start name node]) c).

Definition perf_stop (span : nat) : M unit :=
  modify (set_perf (λ l, l ++ [PerfRecorder.stop span])).

(** The loop over [scope.directives] (lines 463-476). *)
Fixpoint recordDirectives (deps : list SourceFile) (file : SourceFile)
    (directives : list ScopeMember.directive) : M unit :=
  match directives with
  | [] => ret tt
  | directive :: rest =>
    let dirSf := getSourceFile (ScopeMember.node directive) in
    modify (set_incrementalDriver
              (IncrementalDriver.trackFileDependency dirSf file)) >>
    (if ScopeMember.isComponent directive
     then modify (set_incrementalDriver
                    (IncrementalDriver.trackFileDependencies deps dirSf))
     else ret tt) >>
    recordDirectives deps file rest
  end.

(** The loop over [scope.pipes] (lines 477-481). *)
Fixpoint recordPipes (file : SourceFile) (pipes : list ScopeMember.pipe)
    : M unit :=
  match pipes with
  | [] => ret tt
  | pipe :: rest =>
    modify (set_incrementalDriver
              (IncrementalDriver.trackFileDependency
                 (getSourceFile (ScopeMember.pipeNode pipe)) file)) >>
    recordPipes file rest
  end.

(** The body of the loop over the compilation scopes (lines 450-481). *)
Definition recordScope (scope : CompilationScope.t) : M unit :=
  let file := getSourceFile (CompilationScope.declaration scope) in
  let ngModuleFile := getSourceFile (CompilationScope.ngModule scope) in
  let! deps := gets (λ c, IncrementalDriver.getFileDependencies file
                            (incrementalDriver c)) in
  modify (set_incrementalDriver
            (IncrementalDriver.trackFileDependencies deps ngModuleFile)) >>
  modify (set_incrementalDriver
            (IncrementalDriver.trackFileDependency ngModuleFile file)) >>
  recordDirectives deps file (CompilationScope.directives scope) >>
  recordPipes file (CompilationScope.pipes scope).

Fixpoint recordScopes (scopes : list CompilationScope.t) : M unit :=
  match scopes with
  | [] => ret tt
  | scope :: rest => recordScope scope >> recordScopes rest
  end.

Definition recordNgModuleScopeDependencies : M unit :=
  let! recordSpan := perf_start "recordDependencies" None in
  let! scopes := gets scopeRegistry in
  recordScopes scopes >>
  perf_stop recordSpan.

(** [this.reexportMap.get(fileName)!.set(alias, value)] *)
Definition fileReexports_set (file alias : string) (value : string * string)
    : M unit :=
  let! fileReexports := gets (λ c, JsMap.get file (reexportMap c)) in
  match fileReexports with
  | Some m => modify (set_reexportMap (JsMap.set file (JsMap.set alias value m)))
  | None => TypeError
  end.

(** The loop over [result.reexports] (lines 326-328). *)
Fixpoint writeReexports (file : string) (reexports : list Reexport.t) : M unit :=
  match reexports with
  | [] => ret tt
  | reexport :: rest =>
    fileReexports_set file (Reexport.asAlias reexport)
      (Reexport.fromModule reexport, Reexport.symbolName reexport) >>
    writeReexports file rest
  end.

(** Lines 320-329. *)
Definition recordReexports (clazz : Declaration) (result : ResolveResult.t)
    : M unit :=
  match ResolveResult.reexports result with
  | Some reexports =>
    let file := fileName (getSourceFile clazz) in
    let! known := gets (λ c, JsMap.has file (reexportMap c)) in
    (if negb known then modify (set_reexportMap (JsMap.set file JsMap.empty))
     else ret tt) >>
    writeReexports file reexports
  | None => ret tt
  end.

(** The body of the inner loop of [resolve] (lines 280-329) for the [i]-th
    trait of the record behind [p]; [continue] ends the body. *)
Definition resolveTrait (clazz : Declaration) (p : ref) (i : nat) : M unit :=
  let! rec := deref p in
  match ClassRecord.traits rec !! i with
  | None => TypeError
  | Some trait =>
    let handler := Trait.handler trait in
    match Trait.state trait with
    | SKIPPED | ERRORED => ret tt
    | PENDING =>
      throw (JsError ("Resolving a trait that hasn't been analyzed: " +:+
                      nameText clazz +:+ " / " +:+
                      DecoratorHandler.constructorName handler))
    | RESOLVED => throw (JsError "Resolving an already resolved trait")
    | ANALYZED =>
      match DecoratorHandler.resolve handler with
      | None => mutateTrait p i (Trait.toResolved None)
      | Some handler_resolve =>
        match handler_resolve clazz (Trait.analysis trait) with
        | Throws (FatalDiagnosticError d) =>
          mutateTrait p i (Trait.toErrored [d])
        | Throws err => throw err
        | Returns result =>
          match ResolveResult.diagnostics result with
          | Some ds => mutateTrait p i (Trait.toErrored ds)
          | None =>
            match ResolveResult.data result with
            | Some data => mutateTrait p i (Trait.toResolved (Some data))
            | None => mutateTrait p i (Trait.toResolved None)
            end
          end >>
          recordReexports clazz result
        end
      end
    end
  end.

(** The inner loop of [resolve] over the traits of the record, by
    position. *)
Fixpoint resolveTraits (clazz : Declaration) (p : ref) (positions : list nat)
    : M unit :=
  match positions with
  | [] => ret tt
  | i :: rest => resolveTrait clazz p i >> resolveTraits clazz p rest
  end.

(** The body of the outer loop of [resolve] (lines 278-330). *)
Definition resolveClass (clazz : Declaration) : M unit :=
  let! record := gets (λ c, JsMap.get clazz (classes c)) in
  match record with
  | None => TypeError
  | Some p =>
    let! rec := deref p in
    resolveTraits clazz p (seq 0 (List.length (ClassRecord.traits rec)))
  end.

(** The outer loop of [resolve] over the keys of [classes]. *)
Fixpoint resolveClasses (keys : list Declaration) : M unit :=
  match keys with
  | [] => ret tt
  | clazz :: rest => resolveClass clazz >> resolveClasses rest
  end.

Definition resolve : M unit :=
  let! keys := gets (λ c, JsMap.keys (classes c)) in
  resolveClasses keys >>
  recordNgModuleScopeDependencies.

(** The inner loop of [typeCheck] (lines 339-346). *)
Fixpoint typeCheckTraits (clazz : Declaration) (traits : list Trait.t)
    (ctx : TypeCheckContext) : TypeCheckContext :=
  match traits with
  | [] => ctx
  | trait :: rest =>
    if bool_decide (Trait.state trait ≠ RESOLVED) then
      typeCheckTraits clazz rest ctx
    else
      match DecoratorHandler.typeCheck (Trait.handler trait) with
      | None => typeCheckTraits clazz rest ctx
      | Some handler_typeCheck =>
        typeCheckTraits clazz rest
          (handler_typeCheck ctx clazz (Trait.analysis trait)
             (Trait.resolution trait))
      end
  end.

Fixpoint typeCheckClasses (keys : list Declaration) (ctx : TypeCheckContext)
    : M TypeCheckContext :=
  match keys with
  | [] => ret ctx
  | clazz :: rest =>
    let! record := gets (λ c, JsMap.get clazz (classes c)) in
    match record with
    | None => TypeError
    | Some p =>
      let! rec := deref p in
      typeCheckClasses rest (typeCheckTraits clazz (ClassRecord.traits rec) ctx)
    end
  end.

(** [typeCheck(ctx)]: the context as the handlers leave it. *)
Definition typeCheck (ctx : TypeCheckContext) : M TypeCheckContext :=
  let! keys := gets (λ c, JsMap.keys (classes c)) in
  typeCheckClasses keys ctx.

(** The inner loop of [index] (lines 353-363). *)
Fixpoint indexTraits (clazz : Declaration) (traits : list Trait.t)
    (ctx : IndexingContext) : IndexingContext :=
  match traits with
  | [] => ctx
  | trait :: rest =>
    if bool_decide (Trait.state trait ≠ RESOLVED) then
      indexTraits clazz rest ctx
    else
      match DecoratorHandler.index (Trait.handler trait) with
      | None => indexTraits clazz rest ctx
      | Some handler_index =>
        indexTraits clazz rest
          (handler_index ctx clazz (Trait.analysis trait)
             (Trait.resolution trait))
      end
  end.

Fixpoint indexClasses (keys : list Declaration) (ctx : IndexingContext)
    : M IndexingContext :=
  match keys with
  | [] => ret ctx
  | clazz :: rest =>
    let! record := gets (λ c, JsMap.get clazz (classes c)) in
    match record with
    | None => TypeError
    | Some p =>
      let! rec := deref p in
      indexClasses rest (indexTraits clazz (ClassRecord.traits rec) ctx)
    end
  end.

(** [index(ctx)] *)
Definition index (ctx : IndexingContext) : M IndexingContext :=
  let! keys := gets (λ c, JsMap.keys (classes c)) in
  indexClasses keys ctx.

(** [res.some(r => r.name === name)] *)
Definition someNamed (name : string) (res : list CompileResult.t) : bool :=
  existsb (λ r, bool_decide (CompileResult.name r = name)) res.

(** Lines 388-392: push the results whose name [res] does not have yet. *)
Fixpoint pushUnnamed (res : list CompileResult.t) (results : list CompileResult.t)
    : list CompileResult.t :=
  match results with
  | [] => res
  | result :: rest =>
    if negb (someNamed (CompileResult.name result) res)
    then pushUnnamed (res ++ [result]) rest
    else pushUnnamed res rest
  end.

(** The loop of [compile] (lines 378-396) over the traits of the record,
    with the local variable [res] and the constant pool. *)
Fixpoint compileTraits (clazz original : Declaration) (traits : list Trait.t)
    (res : list CompileResult.t) (constantPool : ConstantPool)
    : M (list CompileResult.t * ConstantPool) :=
  match traits with
  | [] => ret (res, constantPool)
  | trait :: rest =>
    if bool_decide (Trait.state trait ≠ RESOLVED) then
      compileTraits clazz original rest res constantPool
    else
      let! compileSpan := perf_start "compileClass" (Some original) in
      let '(compileMatchRes, constantPool') :=
        DecoratorHandler.compile (Trait.handler trait) clazz
          (Trait.analysis trait) (Trait.resolution trait) constantPool in
      perf_stop compileSpan >>
      match compileMatchRes with
      | Many results =>
        compileTraits clazz original rest (pushUnnamed res results) constantPool'
      | Single result =>
        if negb (someNamed (CompileResult.name result) res)
        then compileTraits clazz original rest (res ++ [result]) constantPool'
        else compileTraits clazz original rest res constantPool'
      end
  end.

(** [compile(clazz, constantPool)]: the result, and the constant pool as
    the handlers leave it. *)
Definition compile (clazz : Declaration) (constantPool : ConstantPool)
    : M (option (list CompileResult.t) * ConstantPool) :=
  let original := getOriginalNode clazz in
  let! known := gets (λ c, JsMap.has original (classes c)) in
  if negb (isNamedClassDeclaration clazz) ||
     negb (isNamedClassDeclaration original) || negb known
  then ret (None, constantPool)
  else
    let! record := gets (λ c, JsMap.get original (classes c)) in
    match record with
    | None => TypeError
    | Some p =>
      let! rec := deref p in
      let! out := compileTraits clazz original (ClassRecord.traits rec) []
                    constantPool in
      let res := out.1 in
      modify (set_dtsTransforms (λ d,
        d ++ [DtsTransformRegistry.addFields (getSourceFile original)
                original res])) >>
      ret (if bool_decide (0 < List.length res)%nat then Some res else None,
           out.2)
    end.

(** The loop of [decoratorsFor] (lines 416-424).  Every trigger of the
    embedding is a decorator. *)
Fixpoint triggersOf (traits : list Trait.t) : list Decorator :=
  match traits with
  | [] => []
  | trait :: rest =>
    if bool_decide (Trait.state trait ≠ RESOLVED) then triggersOf rest
    else
      match DetectResult.trigger (Trait.detected trait) with
      | Some trigger => trigger :: triggersOf rest
      | None => triggersOf rest
      end
  end.

(** [decoratorsFor(node)] *)
Definition decoratorsFor (node : Declaration) : M (list Decorator) :=
  let original := getOriginalNode node in
  let! known := gets (λ c, JsMap.has original (classes c)) in
  if negb (isNamedClassDeclaration original) || negb known then ret []
  else
    let! record := gets (λ c, JsMap.get original (classes c)) in
    match record with
    | None => TypeError
    | Some p =>
      let! rec := deref p in
      ret (triggersOf (ClassRecord.traits rec))
    end.

(** The inner loop of the [diagnostics] getter (lines 436-440). *)
Fixpoint traitDiagnostics (traits : list Trait.t) : list Diagnostic.t :=
  match traits with
  | [] => []
  | trait :: rest =>
    if bool_decide (Trait.state trait = ERRORED)
    then default [] (Trait.diagnostics trait) ++ traitDiagnostics rest
    else traitDiagnostics rest
  end.

Fixpoint diagnosticsOf (keys : list Declaration) : M (list Diagnostic.t) :=
  match keys with
  | [] => ret []
  | clazz :: rest =>
    let! record := gets (λ c, JsMap.get clazz (classes c)) in
    match record with
    | None => TypeError
    | Some p =>
      let! rec := deref p in
      let! more := diagnosticsOf rest in
      ret (default [] (ClassRecord.metaDiagnostics rec) ++
           traitDiagnostics (ClassRecord.traits rec) ++ more)
    end
  end.

(** The [diagnostics] getter. *)
Definition diagnostics : M (list Diagnostic.t) :=
  let! keys := gets (λ c, JsMap.keys (classes c)) in
  diagnosticsOf keys.

(** The [exportStatements] getter. *)
Definition exportStatements
    : M (JsMap.t string (JsMap.t string (string * string))) :=
  gets reexportMap.

(** ** The matching loop, read on the record alone

    The loop of [scanClassForTraits] only ever touches one record: the one
    it allocates at the first match.  The functions below are the same
    loop written on that record; [scanHandlers_none] and
    [scanHandlers_some] relate the two. *)

(** The record of lines 157-163. *)
Definition firstMatch (clazz : Declaration) (handler : DecoratorHandler.t)
    (result : DetectResult.t) : ClassRecord.t :=
  {| ClassRecord.node := clazz;
     ClassRecord.traits := [Trait.pending handler result];
     ClassRecord.metaDiagnostics := None;
     ClassRecord.hasPrimaryHandler :=
       bool_decide (DecoratorHandler.precedence handler = PRIMARY);
     ClassRecord.hasWeakHandlers :=
       bool_decide (DecoratorHandler.precedence handler = WEAK) |}.

(** Lines 194-211 on the record; the flag says whether the method returns. *)
Definition checkPrimaryRecord (clazz : Declaration) (handler : DecoratorHandler.t)
    (result : DetectResult.t) (rec : ClassRecord.t) : ClassRecord.t * bool :=
  let isPrimaryHandler :=
    bool_decide (DecoratorHandler.precedence handler = PRIMARY) in
  if isPrimaryHandler && ClassRecord.hasPrimaryHandler rec then
    (ClassRecord.set_traits (λ _, [])
       (ClassRecord.set_metaDiagnostics (Some [collisionDiagnostic clazz]) rec),
     true)
  else
    let rec' :=
      ClassRecord.set_traits (λ ts, ts ++ [Trait.pending handler result]) rec in
    (ClassRecord.set_hasPrimaryHandler
       (ClassRecord.hasPrimaryHandler rec' || isPrimaryHandler) rec',
     false).

(** Lines 182-211 on the record. *)
Definition nextMatch (clazz : Declaration) (handler : DecoratorHandler.t)
    (result : DetectResult.t) (rec : ClassRecord.t) : ClassRecord.t * bool :=
  let isWeakHandler :=
    bool_decide (DecoratorHandler.precedence handler = WEAK) in
  if negb isWeakHandler && ClassRecord.hasWeakHandlers rec then
    checkPrimaryRecord clazz handler result
      (ClassRecord.set_hasWeakHandlers false
         (ClassRecord.set_traits
            (filter (λ field, Trait.precedence field ≠ WEAK)) rec))
  else if isWeakHandler && negb (ClassRecord.hasWeakHandlers rec) then
    (rec, false)
  else checkPrimaryRecord clazz handler result rec.

Fixpoint scanRecord (clazz : Declaration) (decorators : option (list Decorator))
    (hs : list DecoratorHandler.t) (rec : ClassRecord.t) : ClassRecord.t :=
  match hs with
  | [] => rec
  | handler :: rest =>
    match DecoratorHandler.detect handler clazz decorators with
    | None => scanRecord clazz decorators rest rec
    | Some result =>
      let '(rec', returned) := nextMatch clazz handler result rec in
      if returned then rec' else scanRecord clazz decorators rest rec'
    end
  end.

Fixpoint scanFirst (clazz : Declaration) (decorators : option (list Decorator))
    (hs : list DecoratorHandler.t) : option ClassRecord.t :=
  match hs with
  | [] => None
  | handler :: rest =>
    match DecoratorHandler.detect handler clazz decorators with
    | None => scanFirst clazz decorators rest
    | Some result =>
      Some (scanRecord clazz decorators rest (firstMatch clazz handler result))
    end
  end.

(** Lines 166-170 on the file index. *)
Definition indexClass (clazz : Declaration)
    (index : JsMap.t SourceFile (JsSet.t Declaration))
    : JsMap.t SourceFile (JsSet.t Declaration) :=
  let sf := getSourceFile clazz in
  let index' := if JsMap.has sf index then index else JsMap.set sf [] index in
  JsMap.set sf (JsSet.add clazz (default [] (JsMap.get sf index'))) index'.

(** The compiler after a record was allocated for [clazz] and left as
    [rec] by the loop. *)
Definition registered (clazz : Declaration) (rec : ClassRecord.t)
    (c : TraitCompiler) : TraitCompiler :=
  set_heap (λ h, h ++ [rec])
    (set_fileToClasses (indexClass clazz)
       (set_classes (JsMap.set clazz (List.length (heap c))) c)).

(** The record of a class, through the map and the heap. *)
Definition recordOf (c : TraitCompiler) (clazz : Declaration)
    : option ClassRecord.t :=
  p ← JsMap.get clazz (classes c); heap c !! p.

(** Whether [scanClassForTraits] looks at the class at all (line 135). *)
Definition eligible (c : TraitCompiler) (clazz : Declaration) : bool :=
  compileNonExportedClasses c || isExported clazz.

(** A handler whose [detect] answers for the class. *)
Definition matches (c : TraitCompiler) (clazz : Declaration)
    (handler : DecoratorHandler.t) : Prop :=
  is_Some (DecoratorHandler.detect handler clazz (reflector c clazz)).

Definition primaryTraits (ts : list Trait.t) : list Trait.t :=
  filter (λ t, Trait.precedence t = PRIMARY) ts.

(** * Properties *)

(** ** Containers *)

Section JsMapFacts.
Context {K V : Type} `{EqDecision K}.
Implicit Types (m : JsMap.t K V) (k : K) (v : V).

Lemma JsMap_get_set_eq m k v : JsMap.get k (JsMap.set k v m) = Some v.
Proof.
  induction m as [|[k' v'] m IH]; simpl.
  - by rewrite decide_True.
  - destruct (decide (k = k')) as [->|Hne]; simpl.
    + by rewrite decide_True.
    + by rewrite decide_False.
Qed.

Lemma JsMap_get_set_ne m k k' v :
  k ≠ k' → JsMap.get k' (JsMap.set k v m) = JsMap.get k' m.
Proof.
  intros Hne. induction m as [|[k0 v0] m IH]; simpl.
  - by rewrite decide_False.
  - destruct (decide (k = k0)) as [->|Hne0]; simpl.
    + by rewrite !decide_False.
    + destruct (decide (k' = k0)); [done|apply IH].
Qed.

Lemma JsMap_has_true m k : JsMap.has k m = true ↔ is_Some (JsMap.get k m).
Proof.
  unfold JsMap.has. destruct (JsMap.get k m); split; try done.
  all: try by intros [? [=]].
Qed.

Lemma JsMap_has_set m k k' v :
  JsMap.has k' m = true → JsMap.has k' (JsMap.set k v m) = true.
Proof.
  rewrite !JsMap_has_true. destruct (decide (k = k')) as [->|Hne].
  - by rewrite JsMap_get_set_eq.
  - by rewrite JsMap_get_set_ne.
Qed.
End JsMapFacts.

Lemma JsSet_elem_of_add {T} `{EqDecision T} (x y : T) (s : JsSet.t T) :
  y ∈ JsSet.add x s ↔ y = x ∨ y ∈ s.
Proof.
  unfold JsSet.add, JsSet.has. case_bool_decide.
  - split; [by right|]. by intros [->|].
  - rewrite elem_of_app, list_elem_of_singleton. tauto.
Qed.

(** ** Running computations *)

Lemma bind_normal {A B} (m : M A) (k : A → M B) c a c' :
  m c = (Normal a, c') → bind m k c = k a c'.
Proof. unfold bind. by intros ->. Qed.

Lemma bind_abrupt {A B} (m : M A) (k : A → M B) c e c' :
  m c = (Abrupt e, c') → bind m k c = (Abrupt e, c').
Proof. unfold bind. by intros ->. Qed.

Lemma bind_assoc {A B C} (m : M A) (k : A → M B) (k' : B → M C) c :
  bind (bind m k) k' c = bind m (λ a, bind (k a) k') c.
Proof. unfold bind. by destruct (m c) as [[a|e] c1]. Qed.

Lemma bind_ext {A B} (m : M A) (k k' : A → M B) c :
  (∀ a c', k a c' = k' a c') → bind m k c = bind m k' c.
Proof. intros H. unfold bind. by destruct (m c) as [[a|e] c1]. Qed.

Lemma set_heap_id c : set_heap (λ _, heap c) c = c.
Proof. by destruct c. Qed.

Lemma deref_run p rec c : heap c !! p = Some rec → deref p c = (Normal rec, c).
Proof. unfold deref, bind, gets, ret. simpl. by intros ->. Qed.

Lemma deref_dangling p c :
  heap c !! p = None →
  deref p c = (Abrupt (JsError "TypeError: Cannot read property of undefined"), c).
Proof. unfold deref, bind, gets, TypeError, throw. simpl. by intros ->. Qed.

Lemma alter_lookup_insert {A} (f : A → A) (l : list A) i x :
  l !! i = Some x → alter f i l = <[i:=f x]> l.
Proof.
  revert i. induction l as [|y l IH]; intros [|i]; simpl; try done.
  - by intros [= ->].
  - intros H. f_equal. by apply IH.
Qed.

Lemma mutate_run p f rec c :
  heap c !! p = Some rec →
  mutate p f c = (Normal tt, set_heap (λ _, <[p:=f rec]> (heap c)) c).
Proof.
  intros H. unfold mutate, modify. f_equal.
  destruct c; unfold set_heap; simpl in *. f_equal.
  by apply alter_lookup_insert.
Qed.

Lemma lookup_heap_insert p rec rec' c :
  heap c !! p = Some rec →
  heap (set_heap (λ _, <[p:=rec']> (heap c)) c) !! p = Some rec'.
Proof.
  intros H. simpl. apply list_lookup_insert_eq. by eapply lookup_lt_Some.
Qed.

Lemma set_heap_insert_insert p rec rec' c :
  set_heap (λ _, <[p:=rec']> (heap (set_heap (λ _, <[p:=rec]> (heap c)) c)))
    (set_heap (λ _, <[p:=rec]> (heap c)) c)
  = set_heap (λ _, <[p:=rec']> (heap c)) c.
Proof. unfold set_heap; simpl. by rewrite list_insert_insert_eq. Qed.

(** Two mutations of the same object in a row. *)
Lemma mutate_insert_run p f rec0 rec c :
  heap c !! p = Some rec0 →
  mutate p f (set_heap (λ _, <[p:=rec]> (heap c)) c)
  = (Normal tt, set_heap (λ _, <[p:=f rec]> (heap c)) c).
Proof.
  intros H. erewrite mutate_run by by eapply lookup_heap_insert.
  by rewrite set_heap_insert_insert.
Qed.

(** ** The matching loop and its record *)

(** From the second match on, the loop rewrites the record behind [p] and
    nothing else, and it never throws. *)
Lemma scanHandlers_some clazz decorators hs p : ∀ rec c,
  heap c !! p = Some rec →
  scanHandlers clazz decorators hs (Some p) c
  = (Normal (Some p),
     set_heap (λ _, <[p:=scanRecord clazz decorators hs rec]> (heap c)) c).
Proof.
  induction hs as [|handler rest IH]; intros rec c Hp; simpl.
  - unfold ret. by rewrite list_insert_id, set_heap_id.
  - destruct (DecoratorHandler.detect handler clazz decorators) as [result|];
      [|by apply IH].
    assert (Hcheck : ∀ rec1,
      (let! rec' := deref p in
       if bool_decide (DecoratorHandler.precedence handler = PRIMARY) &&
          ClassRecord.hasPrimaryHandler rec'
       then
         mutate p (ClassRecord.set_metaDiagnostics
                     (Some [collisionDiagnostic clazz])) >>
         mutate p (ClassRecord.set_traits (λ _, [])) >> ret (Some p)
       else
         mutate p (ClassRecord.set_traits
                     (λ ts, ts ++ [Trait.pending handler result])) >>
         mutate p (λ rec0, ClassRecord.set_hasPrimaryHandler
                     (ClassRecord.hasPrimaryHandler rec0 ||
                      bool_decide (DecoratorHandler.precedence handler = PRIMARY))
                     rec0) >>
         scanHandlers clazz decorators rest (Some p))
        (set_heap (λ _, <[p:=rec1]> (heap c)) c)
      = (Normal (Some p),
         set_heap (λ _, <[p:=
           let '(rec', returned) := checkPrimaryRecord clazz handler result rec1 in
           if returned then rec' else scanRecord clazz decorators rest rec']>
           (heap c)) c)).
    { intros rec1. unfold checkPrimaryRecord.
      erewrite bind_normal by (apply deref_run; by eapply lookup_heap_insert).
      destruct (bool_decide _ && ClassRecord.hasPrimaryHandler rec1).
      - erewrite bind_normal by by eapply mutate_insert_run.
        erewrite bind_normal by by eapply mutate_insert_run.
        done.
      - erewrite bind_normal by by eapply mutate_insert_run.
        erewrite bind_normal by by eapply mutate_insert_run.
        erewrite IH by by eapply lookup_heap_insert.
        by rewrite set_heap_insert_insert. }
    erewrite bind_normal by by apply deref_run.
    unfold nextMatch.
    destruct (negb _ && ClassRecord.hasWeakHandlers rec).
    + erewrite bind_normal by by eapply mutate_run.
      erewrite bind_normal by by eapply mutate_insert_run.
      apply Hcheck.
    + destruct (bool_decide _ && negb (ClassRecord.hasWeakHandlers rec)).
      * by apply IH.
      * specialize (Hcheck rec).
        rewrite list_insert_id, set_heap_id in Hcheck by done.
        apply Hcheck.
Qed.

Lemma indexClass_run {B} clazz (k : M B) c :
  (let! known := gets (λ c, JsMap.has (getSourceFile clazz) (fileToClasses c)) in
   (if negb known
    then modify (set_fileToClasses (JsMap.set (getSourceFile clazz) []))
    else ret tt) >>
   fileToClasses_add (getSourceFile clazz) clazz >> k) c
  = k (set_fileToClasses (indexClass clazz) c).
Proof.
  unfold bind at 1, gets. unfold indexClass.
  destruct (JsMap.has (getSourceFile clazz) (fileToClasses c)) eqn:Hhas; simpl.
  - unfold bind, ret, fileToClasses_add, bind, gets, modify, TypeError, throw.
    pose proof Hhas as Hget. apply JsMap_has_true in Hget as [s Hs].
    rewrite Hs. simpl. f_equal.
    destruct c; unfold set_fileToClasses; simpl in *. by rewrite Hhas, Hs.
  - unfold bind, modify, fileToClasses_add, bind, gets. simpl.
    rewrite JsMap_get_set_eq. simpl. f_equal.
    destruct c; unfold set_fileToClasses; simpl in *.
    by rewrite Hhas, JsMap_get_set_eq.
Qed.

(** The whole loop: either no handler answers and nothing changes, or one
    record is allocated, entered in both maps, and left as [scanFirst]
    computes it. *)
Lemma scanHandlers_none clazz decorators hs c :
  scanHandlers clazz decorators hs None c
  = match scanFirst clazz decorators hs with
    | None => (Normal None, c)
    | Some rec => (Normal (Some (List.length (heap c))), registered clazz rec c)
    end.
Proof.
  induction hs as [|handler rest IH]; simpl; [done|].
  destruct (DecoratorHandler.detect handler clazz decorators) as [result|];
    [|by apply IH].
  unfold bind at 1, alloc.
  unfold bind at 1, modify.
  rewrite indexClass_run.
  erewrite scanHandlers_some by (simpl; by apply list_lookup_middle).
  f_equal. unfold registered, firstMatch. destruct c; simpl.
  unfold set_heap; simpl. f_equal.
  by rewrite insert_app_r_alt, Nat.sub_diag.
Qed.


(** ** What the matching loop keeps true of its record *)

(** A record in which no collision was found. *)
Record Live (rec : ClassRecord.t) : Prop := {
  live_meta : ClassRecord.metaDiagnostics rec = None;
  live_traits : ClassRecord.traits rec ≠ [];
  live_primary :
    ClassRecord.hasPrimaryHandler rec = true ↔
    ∃ t, t ∈ ClassRecord.traits rec ∧ Trait.precedence t = PRIMARY;
  live_primary_count :
    (List.length (primaryTraits (ClassRecord.traits rec)) ≤ 1)%nat;
  live_weak :
    ClassRecord.hasWeakHandlers rec = true →
    ∀ t, t ∈ ClassRecord.traits rec → Trait.precedence t = WEAK;
  live_nonweak :
    ClassRecord.hasWeakHandlers rec = false →
    ∀ t, t ∈ ClassRecord.traits rec → Trait.precedence t ≠ WEAK
}.

(** A record on which two PRIMARY handlers met. *)
Record Collided (clazz : Declaration) (rec : ClassRecord.t) : Prop := {
  collided_meta :
    ClassRecord.metaDiagnostics rec = Some [collisionDiagnostic clazz];
  collided_traits : ClassRecord.traits rec = []
}.

Lemma primaryTraits_app ts1 ts2 :
  primaryTraits (ts1 ++ ts2) = primaryTraits ts1 ++ primaryTraits ts2.
Proof. apply filter_app. Qed.

Lemma primaryTraits_nil ts :
  (∀ t, t ∈ ts → Trait.precedence t ≠ PRIMARY) → primaryTraits ts = [].
Proof.
  intros H. induction ts as [|t ts IH]; [done|].
  unfold primaryTraits. rewrite filter_cons_False.
  - apply IH. intros t' Ht'. apply H. by right.
  - apply H. by left.
Qed.

Lemma filter_nonweak_nil (ts : list Trait.t) :
  (∀ t, t ∈ ts → Trait.precedence t = WEAK) →
  filter (λ field, Trait.precedence field ≠ WEAK) ts = [].
Proof.
  intros H. induction ts as [|t ts IH]; [done|].
  rewrite filter_cons_False.
  - apply IH. intros t' Ht'. apply H. by right.
  - intros Hnw. apply Hnw, H. by left.
Qed.

Lemma firstMatch_live clazz handler result :
  Live (firstMatch clazz handler result).
Proof.
  split; simpl; try done.
  - rewrite bool_decide_eq_true. split.
    + intros Hp. exists (Trait.pending handler result). split; [by left|done].
    + intros (t & Ht & Hp). by apply list_elem_of_singleton in Ht as ->.
  - unfold primaryTraits.
    destruct (decide (Trait.precedence (Trait.pending handler result) = PRIMARY)).
    + by rewrite filter_cons_True.
    + rewrite filter_cons_False by done. simpl. lia.
  - rewrite bool_decide_eq_true. intros Hw t Ht.
    by apply list_elem_of_singleton in Ht as ->.
  - rewrite bool_decide_eq_false. intros Hw t Ht.
    by apply list_elem_of_singleton in Ht as ->.
Qed.

(** Lines 194-211 on a record that is live, or that has just lost its
    WEAK traits (and is live but for having no trait). *)
Lemma checkPrimaryRecord_spec clazz handler result rec :
  ClassRecord.metaDiagnostics rec = None →
  (ClassRecord.hasPrimaryHandler rec = true ↔
   ∃ t, t ∈ ClassRecord.traits rec ∧ Trait.precedence t = PRIMARY) →
  (List.length (primaryTraits (ClassRecord.traits rec)) ≤ 1)%nat →
  (ClassRecord.hasWeakHandlers rec = true →
   DecoratorHandler.precedence handler = WEAK ∧
   ∀ t, t ∈ ClassRecord.traits rec → Trait.precedence t = WEAK) →
  (ClassRecord.hasWeakHandlers rec = false →
   DecoratorHandler.precedence handler ≠ WEAK ∧
   ∀ t, t ∈ ClassRecord.traits rec → Trait.precedence t ≠ WEAK) →
  let '(rec', returned) := checkPrimaryRecord clazz handler result rec in
  if returned
  then DecoratorHandler.precedence handler = PRIMARY ∧
       ClassRecord.hasPrimaryHandler rec = true ∧ Collided clazz rec'
  else ¬ (DecoratorHandler.precedence handler = PRIMARY ∧
          ClassRecord.hasPrimaryHandler rec = true) ∧
       Live rec' ∧
       ClassRecord.traits rec' =
         ClassRecord.traits rec ++ [Trait.pending handler result] ∧
       ClassRecord.hasWeakHandlers rec' = ClassRecord.hasWeakHandlers rec ∧
       ClassRecord.hasPrimaryHandler rec' =
         ClassRecord.hasPrimaryHandler rec ||
         bool_decide (DecoratorHandler.precedence handler = PRIMARY).
Proof.
  intros Hmeta Hprim Hcount Hweak Hnonweak. unfold checkPrimaryRecord.
  destruct (bool_decide (DecoratorHandler.precedence handler = PRIMARY) &&
            ClassRecord.hasPrimaryHandler rec) eqn:Hcol.
  - apply andb_true_iff in Hcol as [Hp%bool_decide_eq_true Hhas].
    by repeat split.
  - assert (Hnot : ¬ (DecoratorHandler.precedence handler = PRIMARY ∧
                      ClassRecord.hasPrimaryHandler rec = true)).
    { intros [Hp Hhas]. by rewrite Hhas, bool_decide_true in Hcol. }
    split; [done|]. split; [|done].
    split; simpl.
    + done.
    + by destruct (ClassRecord.traits rec).
    + rewrite orb_true_iff, bool_decide_eq_true, Hprim. split.
      * intros [(t & Ht & Hp)|Hp].
        -- exists t. split; [|done]. apply elem_of_app. by left.
        -- exists (Trait.pending handler result). split; [|done].
           apply elem_of_app. right. by left.
      * intros (t & [Ht|Ht%list_elem_of_singleton]%elem_of_app & Hp).
        -- left. by exists t.
        -- right. by subst t.
    + rewrite primaryTraits_app, length_app.
      destruct (decide (DecoratorHandler.precedence handler = PRIMARY)) as [Hp|Hp].
      * rewrite (primaryTraits_nil (ts := ClassRecord.traits rec)).
        { unfold primaryTraits. rewrite filter_cons_True by done. simpl. lia. }
        intros t Ht Htp. apply Hnot. split; [done|]. apply Hprim. by exists t.
      * unfold primaryTraits at 2. rewrite filter_cons_False by done.
        simpl. lia.
    + intros Hw t [Ht|Ht%list_elem_of_singleton]%elem_of_app.
      * by apply (proj2 (Hweak Hw)).
      * subst t. by apply (proj1 (Hweak Hw)).
    + intros Hw t [Ht|Ht%list_elem_of_singleton]%elem_of_app.
      * by apply (proj2 (Hnonweak Hw)).
      * subst t. by apply (proj1 (Hnonweak Hw)).
Qed.

(** One more match on a live record: the record stays live, or the match
    is the collision of two PRIMARY handlers and the loop returns. *)
Lemma nextMatch_spec clazz handler result rec :
  Live rec →
  let '(rec', returned) := nextMatch clazz handler result rec in
  if returned
  then DecoratorHandler.precedence handler = PRIMARY ∧
       ClassRecord.hasPrimaryHandler rec = true ∧ Collided clazz rec'
  else ¬ (DecoratorHandler.precedence handler = PRIMARY ∧
          ClassRecord.hasPrimaryHandler rec = true) ∧
       Live rec' ∧
       (ClassRecord.hasPrimaryHandler rec' =
          ClassRecord.hasPrimaryHandler rec ||
          bool_decide (DecoratorHandler.precedence handler = PRIMARY)) ∧
       (ClassRecord.hasWeakHandlers rec' =
          ClassRecord.hasWeakHandlers rec &&
          bool_decide (DecoratorHandler.precedence handler = WEAK)) ∧
       (DecoratorHandler.precedence handler = WEAK →
        ClassRecord.hasWeakHandlers rec = false → rec' = rec).
Proof.
  intros Hlive0. pose proof Hlive0 as [Hmeta Hne Hprim Hcount Hweak Hnonweak].
  unfold nextMatch.
  destruct (ClassRecord.hasWeakHandlers rec) eqn:Hw;
    destruct (decide (DecoratorHandler.precedence handler = WEAK)) as [Hh|Hh];
    rewrite ?(bool_decide_true _ Hh), ?(bool_decide_false _ Hh); simpl.
  - pose proof (checkPrimaryRecord_spec clazz handler result rec) as H.
    rewrite Hw in H.
    specialize (H Hmeta Hprim Hcount (λ _, conj Hh (Hweak eq_refl))).
    destruct (checkPrimaryRecord clazz handler result rec) as [rec' []].
    + destruct H as (Hp & _); [done|]. congruence.
    + destruct H as (Hnot & Hlive & Htr & Hw' & Hp'); [done|].
      split_and!; try done; congruence.
  - (* a handler that is not WEAK meets WEAK traits *)
    set (rec1 := ClassRecord.set_hasWeakHandlers false _).
    assert (Hnil : ClassRecord.traits rec1 = []).
    { simpl. by apply filter_nonweak_nil, Hweak. }
    assert (Hnoprim : ClassRecord.hasPrimaryHandler rec = false).
    { destruct (ClassRecord.hasPrimaryHandler rec) eqn:Hhp; [|done].
      destruct (proj1 Hprim eq_refl) as (t & Ht & Hp).
      specialize (Hweak eq_refl t Ht). congruence. }
    pose proof (checkPrimaryRecord_spec clazz handler result rec1) as H.
    rewrite Hnil in H. simpl in H. rewrite Hnoprim in H.
    destruct (checkPrimaryRecord clazz handler result rec1) as [rec' []].
    + destruct H as (_ & ? & _); try done.
      * split; [done|]. intros (t & Ht & _). by apply elem_of_nil in Ht.
      * lia.
      * split; [done|]. intros t Ht. by apply elem_of_nil in Ht.
    + destruct H as (Hnot & Hlive & Htr & Hw' & Hp'); try done.
      * split; [done|]. intros (t & Ht & _). by apply elem_of_nil in Ht.
      * lia.
      * split; [done|]. intros t Ht. by apply elem_of_nil in Ht.
      * split_and!; try done; [intros [_ ?]; congruence|by rewrite Hnoprim].
  - split_and!; try done.
    + intros [Hp _]. congruence.
    + rewrite (bool_decide_false (_ = PRIMARY)) by congruence.
      by rewrite orb_false_r.
  - pose proof (checkPrimaryRecord_spec clazz handler result rec) as H.
    rewrite Hw in H.
    specialize (H Hmeta Hprim Hcount (λ Hc, False_ind _ (diff_false_true Hc))
                  (λ _, conj Hh (Hnonweak eq_refl))).
    destruct (checkPrimaryRecord clazz handler result rec) as [rec' []].
    + done.
    + destruct H as (Hnot & Hlive & Htr & Hw' & Hp').
      split_and!; try done.
Qed.

(** The loop leaves a live record live, unless it ends in a collision. *)
Lemma scanRecord_spec clazz decorators hs : ∀ rec,
  Live rec →
  Live (scanRecord clazz decorators hs rec) ∨
  Collided clazz (scanRecord clazz decorators hs rec).
Proof.
  induction hs as [|handler rest IH]; intros rec Hlive; simpl; [by left|].
  destruct (DecoratorHandler.detect handler clazz decorators) as [result|];
    [|by apply IH].
  pose proof (nextMatch_spec clazz handler result Hlive) as H.
  destruct (nextMatch clazz handler result rec) as [rec' []].
  - right. apply H.
  - apply IH, H.
Qed.

Lemma scanRecord_node clazz decorators hs : ∀ rec,
  ClassRecord.node (scanRecord clazz decorators hs rec) = ClassRecord.node rec.
Proof.
  induction hs as [|handler rest IH]; intros rec; simpl; [done|].
  destruct (DecoratorHandler.detect handler clazz decorators) as [result|];
    [|by apply IH].
  unfold nextMatch, checkPrimaryRecord.
  repeat (case_match; simplify_eq; simpl; rewrite ?IH; simpl; try done).
Qed.

(** *** Two PRIMARY handlers *)

(** A record that has a PRIMARY trait collides at the next PRIMARY handler
    that answers, and the handlers after that one play no part. *)
Lemma scanRecord_collision clazz decorators h2 hs3 : ∀ hs2 rec,
  Live rec →
  ClassRecord.hasPrimaryHandler rec = true →
  DecoratorHandler.precedence h2 = PRIMARY →
  is_Some (DecoratorHandler.detect h2 clazz decorators) →
  Collided clazz (scanRecord clazz decorators (hs2 ++ h2 :: hs3) rec) ∧
  scanRecord clazz decorators (hs2 ++ h2 :: hs3) rec =
  scanRecord clazz decorators (hs2 ++ [h2]) rec.
Proof.
  induction hs2 as [|h hs2 IH]; intros rec Hlive Hhas Hp [result Hdet]; simpl.
  - rewrite Hdet.
    pose proof (nextMatch_spec clazz h2 result Hlive) as H.
    destruct (nextMatch clazz h2 result rec) as [rec' []]; [by split; [apply H|]|].
    by destruct H as [[] _].
  - destruct (DecoratorHandler.detect h clazz decorators) as [res|];
      [|by apply IH; [| | |exists result]].
    pose proof (nextMatch_spec clazz h res Hlive) as H.
    destruct (nextMatch clazz h res rec) as [rec' []]; [by split; [apply H|]|].
    destruct H as (_ & Hlive' & Hp' & _).
    apply IH; [done| |done|by exists result].
    by rewrite Hp', Hhas.
Qed.

Lemma scanRecord_two_primary clazz decorators h1 hs2 h2 hs3 : ∀ hs1 rec,
  Live rec →
  DecoratorHandler.precedence h1 = PRIMARY →
  is_Some (DecoratorHandler.detect h1 clazz decorators) →
  DecoratorHandler.precedence h2 = PRIMARY →
  is_Some (DecoratorHandler.detect h2 clazz decorators) →
  Collided clazz
    (scanRecord clazz decorators (hs1 ++ h1 :: hs2 ++ h2 :: hs3) rec) ∧
  scanRecord clazz decorators (hs1 ++ h1 :: hs2 ++ h2 :: hs3) rec =
  scanRecord clazz decorators (hs1 ++ h1 :: hs2 ++ [h2]) rec.
Proof.
  induction hs1 as [|h hs1 IH]; intros rec Hlive Hp1 Hd1 Hp2 Hd2; simpl.
  - destruct Hd1 as [r1 Hd1]. rewrite Hd1.
    pose proof (nextMatch_spec clazz h1 r1 Hlive) as H.
    destruct (nextMatch clazz h1 r1 rec) as [rec' []]; [by split; [apply H|]|].
    destruct H as (_ & Hlive' & Hp' & _).
    apply scanRecord_collision; [done| |done|done].
    rewrite Hp', bool_decide_true by done. apply orb_true_r.
  - destruct (DecoratorHandler.detect h clazz decorators) as [res|];
      [|by apply IH].
    pose proof (nextMatch_spec clazz h res Hlive) as H.
    destruct (nextMatch clazz h res rec) as [rec' []]; [by split; [apply H|]|].
    apply IH; [apply H|done..].
Qed.

Lemma scanFirst_two_primary clazz decorators h1 hs2 h2 hs3 : ∀ hs1,
  DecoratorHandler.precedence h1 = PRIMARY →
  is_Some (DecoratorHandler.detect h1 clazz decorators) →
  DecoratorHandler.precedence h2 = PRIMARY →
  is_Some (DecoratorHandler.detect h2 clazz decorators) →
  (∃ rec, scanFirst clazz decorators (hs1 ++ h1 :: hs2 ++ h2 :: hs3) = Some rec ∧
          Collided clazz rec) ∧
  scanFirst clazz decorators (hs1 ++ h1 :: hs2 ++ h2 :: hs3) =
  scanFirst clazz decorators (hs1 ++ h1 :: hs2 ++ [h2]).
Proof.
  induction hs1 as [|h hs1 IH]; intros Hp1 Hd1 Hp2 Hd2; simpl.
  - destruct Hd1 as [r1 Hd1]. rewrite Hd1.
    destruct (scanRecord_collision clazz decorators h2 hs3 hs2
                (firstMatch_live clazz h1 r1)) as [Hc Heq]; [|done..|].
    { simpl. by apply bool_decide_eq_true. }
    split; [by eexists|by rewrite Heq].
  - destruct (DecoratorHandler.detect h clazz decorators) as [res|];
      [|by apply IH].
    destruct (scanRecord_two_primary clazz decorators h1 hs2 h2 hs3 hs1
                (firstMatch_live clazz h res)) as [Hc Heq]; [done..|].
    split; [by eexists|by rewrite Heq].
Qed.

(** *** WEAK handlers *)

Definition answersNonWeak (clazz : Declaration)
    (decorators : option (list Decorator)) (hs : list DecoratorHandler.t)
    : Prop :=
  ∃ n, n ∈ hs ∧ DecoratorHandler.precedence n ≠ WEAK ∧
       is_Some (DecoratorHandler.detect n clazz decorators).

Lemma answersNonWeak_cons clazz decorators h hs :
  answersNonWeak clazz decorators (h :: hs) →
  (DecoratorHandler.precedence h ≠ WEAK ∧
   is_Some (DecoratorHandler.detect h clazz decorators)) ∨
  answersNonWeak clazz decorators hs.
Proof.
  intros (n & [->|Hn]%elem_of_cons & Hnw & Hd); [by left|].
  right. by exists n.
Qed.

(** Once no WEAK trait is left, none comes back. *)
Lemma scanRecord_no_weak clazz decorators hs : ∀ rec,
  Live rec →
  ClassRecord.hasWeakHandlers rec = false ∨ answersNonWeak clazz decorators hs →
  ∀ t, t ∈ ClassRecord.traits (scanRecord clazz decorators hs rec) →
       Trait.precedence t ≠ WEAK.
Proof.
  induction hs as [|h hs IH]; intros rec Hlive Hcase; simpl.
  - destruct Hcase as [Hw|(n & Hn & _)]; [by apply live_nonweak|].
    by apply elem_of_nil in Hn.
  - destruct (DecoratorHandler.detect h clazz decorators) as [res|] eqn:Hdet.
    + pose proof (nextMatch_spec clazz h res Hlive) as H.
      destruct (nextMatch clazz h res rec) as [rec' []].
      * destruct H as (_ & _ & [_ Hnil]). rewrite Hnil.
        intros t Ht. by apply elem_of_nil in Ht.
      * destruct H as (_ & Hlive' & _ & Hw' & _).
        apply IH; [done|].
        destruct Hcase as [Hw|[[Hnw _]|Hrest]%answersNonWeak_cons].
        -- left. by rewrite Hw', Hw.
        -- left. rewrite Hw', bool_decide_false by done. apply andb_false_r.
        -- by right.
    + apply IH; [done|].
      destruct Hcase as [Hw|[[_ [? Hd]]|Hrest]%answersNonWeak_cons];
        [by left|congruence|by right].
Qed.

Lemma scanFirst_no_weak clazz decorators hs rec :
  scanFirst clazz decorators hs = Some rec →
  answersNonWeak clazz decorators hs →
  ∀ t, t ∈ ClassRecord.traits rec → Trait.precedence t ≠ WEAK.
Proof.
  induction hs as [|h hs IH]; simpl; [done|].
  destruct (DecoratorHandler.detect h clazz decorators) as [res|] eqn:Hdet.
  - intros [= <-] Hcase.
    apply scanRecord_no_weak; [apply firstMatch_live|].
    apply answersNonWeak_cons in Hcase as [[Hnw _]|Hrest]; [|by right].
    left. simpl. by apply bool_decide_eq_false.
  - intros Hrec [[_ [? Hd]]|Hrest]%answersNonWeak_cons; [congruence|].
    by apply IH.
Qed.

(** A WEAK handler that comes when no WEAK trait is left changes nothing:
    the loop goes on as if the handler were not registered. *)
Lemma scanRecord_weak_dropped clazz decorators w hs2 : ∀ hs1 rec,
  Live rec →
  ClassRecord.hasWeakHandlers rec = false ∨ answersNonWeak clazz decorators hs1 →
  DecoratorHandler.precedence w = WEAK →
  scanRecord clazz decorators (hs1 ++ w :: hs2) rec =
  scanRecord clazz decorators (hs1 ++ hs2) rec.
Proof.
  induction hs1 as [|h hs1 IH]; intros rec Hlive Hcase Hweak; simpl.
  - destruct Hcase as [Hw|(n & Hn & _)]; [|by apply elem_of_nil in Hn].
    destruct (DecoratorHandler.detect w clazz decorators) as [res|]; [|done].
    pose proof (nextMatch_spec clazz w res Hlive) as H.
    destruct (nextMatch clazz w res rec) as [rec' []].
    + destruct H as (Hp & _). congruence.
    + destruct H as (_ & _ & _ & _ & Hsame). by rewrite Hsame.
  - destruct (DecoratorHandler.detect h clazz decorators) as [res|] eqn:Hdet.
    + pose proof (nextMatch_spec clazz h res Hlive) as H.
      destruct (nextMatch clazz h res rec) as [rec' []]; [done|].
      destruct H as (_ & Hlive' & _ & Hw' & _).
      apply IH; [done| |done].
      destruct Hcase as [Hw|[[Hnw _]|Hrest]%answersNonWeak_cons].
      * left. by rewrite Hw', Hw.
      * left. rewrite Hw', bool_decide_false by done. apply andb_false_r.
      * by right.
    + apply IH; [done| |done].
      destruct Hcase as [Hw|[[_ [? Hd]]|Hrest]%answersNonWeak_cons];
        [by left|congruence|by right].
Qed.

Lemma scanFirst_weak_dropped clazz decorators w hs2 : ∀ hs1,
  answersNonWeak clazz decorators hs1 →
  DecoratorHandler.precedence w = WEAK →
  scanFirst clazz decorators (hs1 ++ w :: hs2) =
  scanFirst clazz decorators (hs1 ++ hs2).
Proof.
  induction hs1 as [|h hs1 IH]; intros Hcase Hweak; simpl.
  - destruct Hcase as (n & Hn & _). by apply elem_of_nil in Hn.
  - destruct (DecoratorHandler.detect h clazz decorators) as [res|] eqn:Hdet.
    + f_equal. apply scanRecord_weak_dropped;
        [apply firstMatch_live| |done].
      apply answersNonWeak_cons in Hcase as [[Hnw _]|Hrest]; [|by right].
      left. simpl. by apply bool_decide_eq_false.
    + apply IH; [|done].
      by apply answersNonWeak_cons in Hcase as [[_ [? Hd]]|Hrest];
        [congruence|].
Qed.

(** *** The method *)

(** [scanClassForTraits] in one equation. *)
Lemma scanClassForTraits_run clazz c :
  scanClassForTraits clazz c =
  if eligible c clazz
  then match scanFirst clazz (reflector c clazz) (handlers c) with
       | None => (Normal None, c)
       | Some rec =>
           (Normal (Some (List.length (heap c))), registered clazz rec c)
       end
  else (Normal None, c).
Proof.
  unfold scanClassForTraits, eligible, bind, gets, ret; simpl.
  destruct (compileNonExportedClasses c), (isExported clazz); simpl;
    try done; apply scanHandlers_none.
Qed.

Lemma registered_heap clazz rec c :
  heap (registered clazz rec c) !! List.length (heap c) = Some rec.
Proof. simpl. by apply list_lookup_middle. Qed.

Lemma scanFirst_spec clazz decorators hs rec :
  scanFirst clazz decorators hs = Some rec → Live rec ∨ Collided clazz rec.
Proof.
  induction hs as [|h hs IH]; simpl; [done|].
  destruct (DecoratorHandler.detect h clazz decorators) as [res|]; [|done].
  intros [= <-]. apply scanRecord_spec, firstMatch_live.
Qed.

(** ** Claims about matching *)

(** C1.  [scanClassForTraits] returns without throwing, and the record it
    returns has at most one trait of a PRIMARY handler, and no trait at
    all when its [metaDiagnostics] are set.  When two PRIMARY handlers of
    the registry answer for an eligible class, the record ends with
    exactly one diagnostic in [metaDiagnostics], the "Two incompatible
    decorators on class" error placed on the class (its file, start and
    width), with no trait, and the loop stops at the second of the two:
    the handlers registered after it have no part in the outcome. *)
Theorem scan_primary_collision (clazz : Declaration) (c : TraitCompiler) :
  ∃ res,
    (scanClassForTraits clazz c).1 = Normal res ∧
    let c' := (scanClassForTraits clazz c).2 in
    (∀ p, res = Some p →
       ∃ rec, heap c' !! p = Some rec ∧
              recordOf c' clazz = Some rec ∧
              (List.length (primaryTraits (ClassRecord.traits rec)) ≤ 1)%nat ∧
              (ClassRecord.metaDiagnostics rec ≠ None →
               ClassRecord.traits rec = [])) ∧
    (∀ hs1 h1 hs2 h2 hs3,
       eligible c clazz = true →
       handlers c = hs1 ++ h1 :: hs2 ++ h2 :: hs3 →
       DecoratorHandler.precedence h1 = PRIMARY → matches c clazz h1 →
       DecoratorHandler.precedence h2 = PRIMARY → matches c clazz h2 →
       (∃ p rec d,
          res = Some p ∧ heap c' !! p = Some rec ∧
          ClassRecord.metaDiagnostics rec = Some [d] ∧
          d = collisionDiagnostic clazz ∧
          Diagnostic.messageText d = "Two incompatible decorators on class" ∧
          Diagnostic.category d = Error ∧
          Diagnostic.file d = getSourceFile clazz ∧
          Diagnostic.start d = start clazz ∧
          Diagnostic.length d = width clazz ∧
          ClassRecord.traits rec = []) ∧
       scanHandlers clazz (reflector c clazz) (handlers c) None c =
       scanHandlers clazz (reflector c clazz) (hs1 ++ h1 :: hs2 ++ [h2]) None c).
Proof.
  rewrite scanClassForTraits_run.
  destruct (eligible c clazz) eqn:Helig.
  - destruct (scanFirst clazz (reflector c clazz) (handlers c)) as [rec|] eqn:Hscan.
    + exists (Some (List.length (heap c))). split; [done|]. simpl. split.
      * intros p [= <-]. exists rec. split; [by apply list_lookup_middle|].
        split.
        { unfold recordOf. simpl. rewrite JsMap_get_set_eq. simpl.
          by apply list_lookup_middle. }
        destruct (scanFirst_spec _ _ _ Hscan) as [Hlive|Hcol].
        -- split; [apply Hlive|]. intros Hmeta.
           by rewrite (live_meta Hlive) in Hmeta.
        -- rewrite (collided_traits Hcol). split; [simpl; lia|done].
      * intros hs1 h1 hs2 h2 hs3 _ Hhs Hp1 Hd1 Hp2 Hd2.
        destruct (scanFirst_two_primary clazz (reflector c clazz) h1 hs2 h2 hs3
                    hs1 Hp1 Hd1 Hp2 Hd2) as [(rec' & Hrec' & Hcol) Heq].
        rewrite <- Hhs in Hrec', Heq. rewrite Hscan in Hrec'.
        injection Hrec' as <-. split.
        -- exists (List.length (heap c)), rec, (collisionDiagnostic clazz).
           split_and!; try done.
           ++ by apply list_lookup_middle.
           ++ apply Hcol.
           ++ apply Hcol.
        -- by rewrite !scanHandlers_none, <- Heq.
    + exists None. split; [done|]. simpl. split; [done|].
      intros hs1 h1 hs2 h2 hs3 _ Hhs Hp1 Hd1 Hp2 Hd2.
      destruct (scanFirst_two_primary clazz (reflector c clazz) h1 hs2 h2 hs3
                  hs1 Hp1 Hd1 Hp2 Hd2) as [(rec' & Hrec' & Hcol) Heq].
      rewrite <- Hhs in Hrec'. congruence.
  - exists None. split; [done|]. simpl. split; [done|]. by intros.
Qed.

(** C9.  In the record [scanClassForTraits] returns, as long as
    [metaDiagnostics] is [null]: there is at least one trait;
    [hasPrimaryHandler] holds exactly when some trait comes from a PRIMARY
    handler; [hasWeakHandlers] holds exactly when every trait comes from a
    WEAK handler. *)
Theorem scan_flags_in_sync (clazz : Declaration) (c : TraitCompiler) :
  ∃ res,
    (scanClassForTraits clazz c).1 = Normal res ∧
    let c' := (scanClassForTraits clazz c).2 in
    ∀ p, res = Some p →
      ∃ rec, heap c' !! p = Some rec ∧
        (ClassRecord.metaDiagnostics rec = None →
         ClassRecord.traits rec ≠ [] ∧
         (ClassRecord.hasPrimaryHandler rec = true ↔
          ∃ t, t ∈ ClassRecord.traits rec ∧ Trait.precedence t = PRIMARY) ∧
         (ClassRecord.hasWeakHandlers rec = true ↔
          ∀ t, t ∈ ClassRecord.traits rec → Trait.precedence t = WEAK)).
Proof.
  rewrite scanClassForTraits_run.
  destruct (eligible c clazz); [|by exists None].
  destruct (scanFirst clazz (reflector c clazz) (handlers c)) as [rec|] eqn:Hscan;
    [|by exists None].
  exists (Some (List.length (heap c))). split; [done|]. simpl.
  intros p [= <-]. exists rec. split; [by apply list_lookup_middle|].
  intros Hmeta.
  destruct (scanFirst_spec _ _ _ Hscan) as [Hlive|Hcol].
  - split; [apply Hlive|]. split; [apply Hlive|]. split; [apply Hlive|].
    intros Hall.
    destruct (ClassRecord.hasWeakHandlers rec) eqn:Hw; [done|].
    pose proof (live_traits Hlive) as Hne.
    destruct (ClassRecord.traits rec) as [|t ts] eqn:Hts; [done|].
    exfalso. refine (live_nonweak Hlive Hw (t:=t) _ _).
    + rewrite Hts. by left.
    + apply Hall. by left.
  - by rewrite (collided_meta Hcol) in Hmeta.
Qed.

(** C3.  For an eligible class and any order of the registry: if a
    handler that is not WEAK answers anywhere in the registry, the record
    that is returned has no trait of a WEAK handler; in particular the
    trait of a WEAK handler that answered earlier is gone.  And when a
    WEAK handler comes after a handler that is not WEAK and has answered,
    the loop runs exactly as it does without the WEAK handler, whatever the
    handlers are that follow: its trait is not appended. *)
Theorem scan_weak_handlers (clazz : Declaration) (c : TraitCompiler) :
  ∃ res,
    (scanClassForTraits clazz c).1 = Normal res ∧
    let c' := (scanClassForTraits clazz c).2 in
    (∀ hs1 w hs2 n hs3,
       eligible c clazz = true →
       handlers c = hs1 ++ w :: hs2 ++ n :: hs3 →
       DecoratorHandler.precedence w = WEAK → matches c clazz w →
       DecoratorHandler.precedence n ≠ WEAK → matches c clazz n →
       ∃ p rec,
         res = Some p ∧ heap c' !! p = Some rec ∧
         ∀ t, t ∈ ClassRecord.traits rec →
              Trait.precedence t ≠ WEAK ∧ Trait.handler t ≠ w) ∧
    (∀ hs1 n hs2 w hs3,
       DecoratorHandler.precedence n ≠ WEAK → matches c clazz n →
       DecoratorHandler.precedence w = WEAK → matches c clazz w →
       scanHandlers clazz (reflector c clazz) (hs1 ++ n :: hs2 ++ w :: hs3) None c =
       scanHandlers clazz (reflector c clazz) (hs1 ++ n :: hs2 ++ hs3) None c ∧
       (eligible c clazz = true →
        handlers c = hs1 ++ n :: hs2 ++ w :: hs3 →
        ∃ p rec,
          res = Some p ∧ heap c' !! p = Some rec ∧
          ∀ t, t ∈ ClassRecord.traits rec →
               Trait.precedence t ≠ WEAK ∧ Trait.handler t ≠ w)).
Proof.
  assert (Hfinal : ∀ w n res,
    DecoratorHandler.precedence w = WEAK →
    DecoratorHandler.precedence n ≠ WEAK → matches c clazz n →
    n ∈ handlers c →
    eligible c clazz = true →
    (scanClassForTraits clazz c).1 = Normal res →
    ∃ p rec,
      res = Some p ∧ heap (scanClassForTraits clazz c).2 !! p = Some rec ∧
      ∀ t, t ∈ ClassRecord.traits rec →
           Trait.precedence t ≠ WEAK ∧ Trait.handler t ≠ w).
  { intros w n res Hw Hn Hd Hin Helig. rewrite scanClassForTraits_run, Helig.
    assert (Hany : answersNonWeak clazz (reflector c clazz) (handlers c))
      by by exists n.
    destruct (scanFirst clazz (reflector c clazz) (handlers c)) as [rec|] eqn:Hscan.
    - intros [= <-]. exists (List.length (heap c)), rec.
      split; [done|]. split; [by apply list_lookup_middle|].
      intros t Ht.
      pose proof (scanFirst_no_weak Hscan Hany Ht) as Hnw.
      split; [done|]. intros Heq. apply Hnw.
      unfold Trait.precedence. by rewrite Heq.
    - exfalso. clear -Hscan Hany.
      induction (handlers c) as [|h hs IH]; simpl in *.
      + destruct Hany as (? & Hin & _). by apply elem_of_nil in Hin.
      + destruct (DecoratorHandler.detect h clazz (reflector c clazz)) eqn:Hdet;
          [done|].
        apply answersNonWeak_cons in Hany as [[_ [? Hd]]|Hrest]; [congruence|].
        by apply IH. }
  assert (Hret : ∃ res, (scanClassForTraits clazz c).1 = Normal res).
  { rewrite scanClassForTraits_run.
    destruct (eligible c clazz); [|by eexists].
    destruct (scanFirst _ _ _); by eexists. }
  destruct Hret as [res Hres]. exists res. split; [done|]. simpl. split.
  - intros hs1 w hs2 n hs3 Helig Hhs Hw Hdw Hn Hdn.
    apply (Hfinal w n); try done.
    rewrite Hhs, elem_of_app, elem_of_cons, elem_of_app, elem_of_cons. tauto.
  - intros hs1 n hs2 w hs3 Hn Hdn Hw Hdw. split.
    + rewrite !scanHandlers_none.
      replace (hs1 ++ n :: hs2 ++ w :: hs3) with ((hs1 ++ n :: hs2) ++ w :: hs3)
        by by rewrite <- app_assoc.
      replace (hs1 ++ n :: hs2 ++ hs3) with ((hs1 ++ n :: hs2) ++ hs3)
        by by rewrite <- app_assoc.
      rewrite scanFirst_weak_dropped; [done| |done].
      exists n. split; [|done]. rewrite elem_of_app, elem_of_cons. tauto.
    + intros Helig Hhs. apply (Hfinal w n); try done.
      rewrite Hhs, elem_of_app, elem_of_cons. tauto.
Qed.

Lemma indexClass_keeps clazz index sf d s :
  JsMap.get sf index = Some s → d ∈ s →
  ∃ s', JsMap.get sf (indexClass clazz index) = Some s' ∧ d ∈ s'.
Proof.
  intros Hs Hd. unfold indexClass.
  set (index' := if JsMap.has _ index then index else _).
  assert (Hs' : JsMap.get sf index' = Some s).
  { subst index'. destruct (JsMap.has (getSourceFile clazz) index) eqn:Hhas;
      [done|].
    rewrite JsMap_get_set_ne; [done|]. intros <-.
    unfold JsMap.has in Hhas. by rewrite Hs in Hhas. }
  destruct (decide (getSourceFile clazz = sf)) as [<-|Hne].
  - rewrite JsMap_get_set_eq, Hs'. eexists. split; [done|]. simpl.
    apply JsSet_elem_of_add. by right.
  - rewrite JsMap_get_set_ne by done. by exists s.
Qed.

Lemma indexClass_has clazz index :
  ∃ s, JsMap.get (getSourceFile clazz) (indexClass clazz index) = Some s ∧
       clazz ∈ s.
Proof.
  unfold indexClass. rewrite JsMap_get_set_eq. eexists. split; [done|].
  apply JsSet_elem_of_add. by left.
Qed.

(** C10.  [scanClassForTraits] never takes a class out of the record map
    or out of the file index: every class present before the call is
    present after it.  And when the call returns a record for the class
    (some handler answered), the class is a key of the record map, mapped
    to that record, and a member of the index entry of its file; this is
    so whatever the state of the record, and so also for the record of a
    collision of two PRIMARY handlers, with its diagnostic and no trait. *)
Theorem scan_never_unregisters (clazz : Declaration) (c : TraitCompiler) :
  ∃ res,
    (scanClassForTraits clazz c).1 = Normal res ∧
    let c' := (scanClassForTraits clazz c).2 in
    (∀ d, JsMap.has d (classes c) = true → JsMap.has d (classes c') = true) ∧
    (∀ sf d s, JsMap.get sf (fileToClasses c) = Some s → d ∈ s →
       ∃ s', JsMap.get sf (fileToClasses c') = Some s' ∧ d ∈ s') ∧
    (∀ p, res = Some p →
       JsMap.get clazz (classes c') = Some p ∧
       (∃ s, JsMap.get (getSourceFile clazz) (fileToClasses c') = Some s ∧
             clazz ∈ s) ∧
       ∃ rec, heap c' !! p = Some rec ∧ ClassRecord.node rec = clazz) ∧
    (∀ hs1 h1 hs2 h2 hs3,
       eligible c clazz = true →
       handlers c = hs1 ++ h1 :: hs2 ++ h2 :: hs3 →
       DecoratorHandler.precedence h1 = PRIMARY → matches c clazz h1 →
       DecoratorHandler.precedence h2 = PRIMARY → matches c clazz h2 →
       ∃ rec, recordOf c' clazz = Some rec ∧
              ClassRecord.traits rec = [] ∧
              ClassRecord.metaDiagnostics rec = Some [collisionDiagnostic clazz] ∧
              JsMap.has clazz (classes c') = true ∧
              ∃ s, JsMap.get (getSourceFile clazz) (fileToClasses c') = Some s ∧
                   clazz ∈ s).
Proof.
  rewrite scanClassForTraits_run.
  destruct (eligible c clazz) eqn:Helig.
  - destruct (scanFirst clazz (reflector c clazz) (handlers c)) as [rec|] eqn:Hscan.
    + exists (Some (List.length (heap c))). split; [done|]. simpl.
      split_and!.
      * intros d Hd. by apply JsMap_has_set.
      * intros sf d s Hs Hd. by eapply indexClass_keeps.
      * intros p [= <-]. split; [apply JsMap_get_set_eq|].
        split; [apply indexClass_has|].
        exists rec. split; [by apply list_lookup_middle|].
        clear -Hscan. induction (handlers c) as [|h hs IH]; simpl in *; [done|].
        destruct (DecoratorHandler.detect h clazz (reflector c clazz));
          [|by apply IH].
        injection Hscan as <-. by rewrite scanRecord_node.
      * intros hs1 h1 hs2 h2 hs3 _ Hhs Hp1 Hd1 Hp2 Hd2.
        destruct (scanFirst_two_primary clazz (reflector c clazz) h1 hs2 h2 hs3
                    hs1 Hp1 Hd1 Hp2 Hd2) as [(rec' & Hrec' & Hcol) _].
        rewrite <- Hhs, Hscan in Hrec'. injection Hrec' as <-.
        exists rec. split_and!.
        -- unfold recordOf. simpl. rewrite JsMap_get_set_eq. simpl.
           by apply list_lookup_middle.
        -- apply Hcol.
        -- apply Hcol.
        -- apply JsMap_has_true. rewrite JsMap_get_set_eq. by eexists.
        -- apply indexClass_has.
    + exists None. split; [done|]. simpl. split_and!; try done.
      * intros sf d s Hs Hd. by exists s.
      * intros hs1 h1 hs2 h2 hs3 _ Hhs Hp1 Hd1 Hp2 Hd2.
        destruct (scanFirst_two_primary clazz (reflector c clazz) h1 hs2 h2 hs3
                    hs1 Hp1 Hd1 Hp2 Hd2) as [(rec' & Hrec' & Hcol) _].
        rewrite <- Hhs in Hrec'. congruence.
  - exists None. split; [done|]. simpl. split_and!; try done.
    intros sf d s Hs Hd. by exists s.
Qed.

(** ** Claims about analysis *)

(** The [i]-th trait of the record behind [p]. *)
Definition traitAt (c : TraitCompiler) (p : ref) (i : nat) : option Trait.t :=
  rec ← heap c !! p; ClassRecord.traits rec !! i.

Lemma mutateTrait_run p i f c :
  mutateTrait p i f c
  = (Normal tt, set_heap (alter (ClassRecord.set_traits (alter f i)) p) c).
Proof. done. Qed.

Lemma traitAt_mutateTrait_eq p i f c :
  traitAt (mutateTrait p i f c).2 p i = f <$> traitAt c p i.
Proof.
  unfold traitAt. simpl. rewrite list_lookup_alter_eq.
  destruct (heap c !! p) as [rec|]; simpl; [|done].
  by rewrite list_lookup_alter_eq.
Qed.

Lemma traitAt_mutateTrait_ne p i f c p' i' :
  (p', i') ≠ (p, i) →
  traitAt (mutateTrait p i f c).2 p' i' = traitAt c p' i'.
Proof.
  intros Hne. unfold traitAt. simpl.
  destruct (decide (p = p')) as [<-|Hp].
  - rewrite list_lookup_alter_eq.
    destruct (heap c !! p) as [rec|]; simpl; [|done].
    rewrite list_lookup_alter_ne; [done|]. congruence.
  - by rewrite list_lookup_alter_ne.
Qed.

Lemma traitAt_Some c p i rec trait :
  heap c !! p = Some rec → ClassRecord.traits rec !! i = Some trait →
  traitAt c p i = Some trait.
Proof. unfold traitAt. by intros -> Ht. Qed.

(** [analyzeTrait] only ever touches the trait it is called on. *)
Lemma analyzeTrait_frame clazz p i c p' i' :
  (p', i') ≠ (p, i) →
  traitAt (analyzeTrait clazz p i c).2 p' i' = traitAt c p' i'.
Proof.
  intros Hne. unfold analyzeTrait.
  destruct (heap c !! p) as [rec|] eqn:Hp;
    [erewrite bind_normal by by apply deref_run
    |by erewrite bind_abrupt by by apply deref_dangling].
  destruct (ClassRecord.traits rec !! i) as [trait|]; [|done].
  case_bool_decide; [done|].
  destruct (DecoratorHandler.analyze _ _ _) as [result|[msg|d|v]]; try done.
  - destruct (AnalysisOutput.diagnostics result);
      [by apply traitAt_mutateTrait_ne|].
    destruct (AnalysisOutput.analysis result) as [a|];
      [|by apply traitAt_mutateTrait_ne].
    etrans; [|by apply (traitAt_mutateTrait_ne (Trait.toAnalyzed a) c Hne)].
    unfold bind at 1. rewrite mutateTrait_run.
    unfold bind, gets, factorySymbols_add, bind, gets, modify, ret, TypeError,
      throw; simpl.
    repeat case_match; done.
  - by apply traitAt_mutateTrait_ne.
Qed.

(** The loops of the pass, cut in two. *)
Lemma analyzeTraits_app clazz p pre post c :
  analyzeTraits clazz p (pre ++ post) c
  = (analyzeTraits clazz p pre >> analyzeTraits clazz p post) c.
Proof.
  revert c. induction pre as [|i pre IH]; intros c; simpl; [done|].
  rewrite bind_assoc. apply bind_ext. intros _ c'. apply IH.
Qed.

Lemma visit_app nodes1 nodes2 c :
  visit (nodes1 ++ nodes2) c = (visit nodes1 >> visit nodes2) c.
Proof.
  revert c. induction nodes1 as [|node nodes1 IH]; intros c; simpl; [done|].
  rewrite bind_assoc. apply bind_ext. intros _ c'. apply IH.
Qed.

(** C4.  For a trait that is PENDING when [analyzeTrait] is called on it:
    whatever the handler does, no other trait, of this class or of any
    other, is touched.  When the handler's [analyze] throws a
    [FatalDiagnosticError], the call returns normally, the trait is
    ERRORED with exactly that error's diagnostic, and the loop of
    [analyzeClass] goes on with the traits that follow.  When it throws
    anything else, the exception leaves [analyzeTrait] with the compiler
    untouched, and it leaves the loop over the traits, [analyzeClass] and
    the pass over the file ([analyzeSync]) too: the traits and classes that
    follow are not analysed. *)
Theorem analyze_throws (clazz : Declaration) (p : ref) (i : nat)
    (c : TraitCompiler) (rec : ClassRecord.t) (trait : Trait.t) :
  heap c !! p = Some rec →
  ClassRecord.traits rec !! i = Some trait →
  Trait.state trait = PENDING →
  let thrown := DecoratorHandler.analyze (Trait.handler trait) clazz
                  (DetectResult.metadata (Trait.detected trait)) in
  (∀ p' i', (p', i') ≠ (p, i) →
     traitAt (analyzeTrait clazz p i c).2 p' i' = traitAt c p' i') ∧
  (∀ d, thrown = Throws (FatalDiagnosticError d) →
     ∃ c' trait',
       analyzeTrait clazz p i c = (Normal tt, c') ∧
       traitAt c' p i = Some trait' ∧
       Trait.state trait' = ERRORED ∧
       Trait.diagnostics trait' = Some [d] ∧
       Trait.handler trait' = Trait.handler trait ∧
       (∀ rest, analyzeTraits clazz p (i :: rest) c =
                analyzeTraits clazz p rest c')) ∧
  (∀ err, thrown = Throws err → (∀ d, err ≠ FatalDiagnosticError d) →
     analyzeTrait clazz p i c = (Abrupt err, c) ∧
     (∀ pre post c0,
        analyzeTraits clazz p pre c0 = (Normal tt, c) →
        analyzeTraits clazz p (pre ++ i :: post) c0 = (Abrupt err, c)) ∧
     (∀ c0 c1 pre post,
        scanClassForTraits clazz c0 = (Normal (Some p), c1) →
        (∃ rec1, heap c1 !! p = Some rec1 ∧
                 seq 0 (List.length (ClassRecord.traits rec1)) = pre ++ i :: post) →
        analyzeTraits clazz p pre c1 = (Normal tt, c) →
        analyzeClass clazz c0 = (Abrupt err, c) ∧
        ∀ sf nodes1 nodes2 cstart,
          isNamedClassDeclaration clazz = true →
          visit nodes1 cstart = (Normal tt, c0) →
          analyzeSync sf (nodes1 ++ clazz :: nodes2) cstart = (Abrupt err, c))).
Proof.
  intros Hp Hi Hstate thrown. split; [intros; by apply analyzeTrait_frame|].
  assert (Hrun : analyzeTrait clazz p i c =
    match thrown with
    | Throws (FatalDiagnosticError d) => mutateTrait p i (Trait.toErrored [d]) c
    | Throws err => (Abrupt err, c)
    | Returns result => analyzeTrait clazz p i c
    end).
  { unfold analyzeTrait. erewrite bind_normal by by apply deref_run.
    rewrite Hi, Hstate. rewrite bool_decide_false by naive_solver.
    fold thrown. by destruct thrown as [result|[msg|d|v]]. }
  split.
  - intros d Hthrown. rewrite Hthrown in Hrun.
    exists (mutateTrait p i (Trait.toErrored [d]) c).2,
      (Trait.toErrored [d] trait).
    split; [by rewrite Hrun|]. split_and!; try done.
    + rewrite traitAt_mutateTrait_eq. by erewrite traitAt_Some.
    + intros rest. simpl. by erewrite bind_normal by by rewrite Hrun.
  - intros err Hthrown Hnotfatal. rewrite Hthrown in Hrun.
    assert (Habrupt : analyzeTrait clazz p i c = (Abrupt err, c)).
    { rewrite Hrun. destruct err as [msg|d|v]; try done.
      by destruct (Hnotfatal d). }
    split; [done|].
    assert (Hloop : ∀ pre post c0,
      analyzeTraits clazz p pre c0 = (Normal tt, c) →
      analyzeTraits clazz p (pre ++ i :: post) c0 = (Abrupt err, c)).
    { intros pre post c0 Hpre. rewrite analyzeTraits_app.
      erewrite bind_normal by done. simpl.
      by erewrite bind_abrupt by done. }
    split; [done|].
    intros c0 c1 pre post Hscan (rec1 & Hrec1 & Hseq) Hpre.
    assert (Hclass : analyzeClass clazz c0 = (Abrupt err, c)).
    { unfold analyzeClass. erewrite bind_normal by done. cbv iota beta.
      erewrite bind_normal by by apply deref_run.
      rewrite Hseq. by apply Hloop. }
    split; [done|].
    intros sf nodes1 nodes2 cstart Hnamed Hvisit.
    unfold analyzeSync. erewrite bind_abrupt; [done|].
    rewrite visit_app. erewrite bind_normal by done.
    simpl. rewrite Hnamed. by erewrite bind_abrupt by done.
Qed.

(** ** Claims about resolution *)

(** *** What the recording of re-exports leaves alone *)

Lemma fileReexports_set_frame file alias value c :
  heap (fileReexports_set file alias value c).2 = heap c ∧
  classes (fileReexports_set file alias value c).2 = classes c.
Proof.
  unfold fileReexports_set, bind, gets, modify, TypeError, throw; simpl.
  by destruct (JsMap.get file (reexportMap c)).
Qed.

Lemma writeReexports_frame file reexports : ∀ c,
  heap (writeReexports file reexports c).2 = heap c ∧
  classes (writeReexports file reexports c).2 = classes c.
Proof.
  induction reexports as [|rx rest IH]; intros c; simpl; [done|].
  unfold bind.
  pose proof (fileReexports_set_frame file (Reexport.asAlias rx)
    (Reexport.fromModule rx, Reexport.symbolName rx) c) as [Hh Hc].
  destruct (fileReexports_set _ _ _ c) as [[[]|e] c1]; simpl in *; [|done].
  destruct (IH c1) as [Hh1 Hc1]. by rewrite Hh1, Hc1.
Qed.

Lemma recordReexports_frame clazz result c :
  heap (recordReexports clazz result c).2 = heap c ∧
  classes (recordReexports clazz result c).2 = classes c.
Proof.
  unfold recordReexports.
  destruct (ResolveResult.reexports result) as [rxs|]; [|done].
  set (file := fileName (getSourceFile clazz)).
  assert (Hrun : ∃ c0, heap c0 = heap c ∧ classes c0 = classes c ∧
    (let! known := gets (λ c, JsMap.has file (reexportMap c)) in
     (if negb known then modify (set_reexportMap (JsMap.set file JsMap.empty))
      else ret tt) >> writeReexports file rxs) c
    = writeReexports file rxs c0).
  { unfold bind, gets, modify, ret. simpl.
    destruct (negb _);
      [exists (set_reexportMap (JsMap.set file JsMap.empty) c)|exists c]; done. }
  destruct Hrun as (c0 & Hh & Hc & ->).
  rewrite <- Hh, <- Hc. apply writeReexports_frame.
Qed.

Lemma traitAt_heap c c' p i : heap c' = heap c → traitAt c' p i = traitAt c p i.
Proof. unfold traitAt. by intros ->. Qed.

(** *** One trait *)


Lemma resolveTrait_frame clazz p i c p' i' :
  (p', i') ≠ (p, i) →
  traitAt (resolveTrait clazz p i c).2 p' i' = traitAt c p' i'.
Proof.
  intros Hne. unfold resolveTrait.
  destruct (heap c !! p) as [rec|] eqn:Hp;
    [erewrite bind_normal by by apply deref_run
    |by erewrite bind_abrupt by by apply deref_dangling].
  destruct (ClassRecord.traits rec !! i) as [trait|]; [|done].
  destruct (Trait.state trait); try done.
  destruct (DecoratorHandler.resolve (Trait.handler trait)) as [f|];
    [|by apply traitAt_mutateTrait_ne].
  destruct (f clazz (Trait.analysis trait)) as [result|[msg|d|v]]; try done;
    [|by apply traitAt_mutateTrait_ne].
  unfold bind.
  set (step := match ResolveResult.diagnostics result with
               | Some ds => _ | None => _ end).
  assert (Hstep : ∃ g, step = mutateTrait p i g).
  { subst step. destruct (ResolveResult.diagnostics result);
      [|destruct (ResolveResult.data result)]; by eexists. }
  destruct Hstep as [g ->]. rewrite mutateTrait_run.
  rewrite (@traitAt_heap _ _ p' i' (proj1 (recordReexports_frame clazz result _))).
  by apply (traitAt_mutateTrait_ne g c Hne).
Qed.




(** *** The loops *)










Lemma JsMap_get_keys {K V} `{EqDecision K} (m : JsMap.t K V) k v :
  JsMap.get k m = Some v → k ∈ JsMap.keys m.
Proof.
  induction m as [|[k' v'] m IH]; simpl; [done|].
  destruct (decide (k = k')) as [->|Hne]; [by left|].
  intros Hget. right. by apply IH.
Qed.


(** ** Claims about the re-export table *)

(** A write into the table: the file, the alias, and the module specifier
    and symbol name the alias is given. *)
Definition Write : Type := string * string * (string * string).

(** What the table holds for an alias of a file. *)
Definition reexportOf (m : JsMap.t string (JsMap.t string (string * string)))
    (file alias : string) : option (string * string) :=
  inner ← JsMap.get file m; JsMap.get alias inner.

(** The value of the last write to an alias of a file in a sequence of
    writes, when there is one. *)
Fixpoint lastWrite (file alias : string) (ws : list Write)
    : option (string * string) :=
  match ws with
  | [] => None
  | (f, a, v) :: rest =>
    match lastWrite file alias rest with
    | Some v' => Some v'
    | None => if decide (f = file ∧ a = alias) then Some v else None
    end
  end.

(** The writes of lines 326-328 for the re-exports of a class. *)
Definition writesOf (clazz : Declaration) (reexports : list Reexport.t)
    : list Write :=
  map (λ rx, (fileName (getSourceFile clazz), Reexport.asAlias rx,
              (Reexport.fromModule rx, Reexport.symbolName rx))) reexports.

(** The writes the body of the inner loop of [resolve] makes for the [i]-th
    trait of the record behind [p]: those of the re-exports its handler's
    [resolve] returns, when the trait is ANALYZED and there is such a
    method and it returns. *)
Definition traitWrites (clazz : Declaration) (p : ref) (i : nat)
    (c : TraitCompiler) : list Write :=
  match traitAt c p i with
  | Some trait =>
    match Trait.state trait, DecoratorHandler.resolve (Trait.handler trait) with
    | ANALYZED, Some handler_resolve =>
      match handler_resolve clazz (Trait.analysis trait) with
      | Returns result =>
        match ResolveResult.reexports result with
        | Some reexports => writesOf clazz reexports
        | None => []
        end
      | Throws _ => []
      end
    | _, _ => []
    end
  | None => []
  end.

(** The writes of the loops of [resolve], in the order in which they are
    made, up to the end of the pass or to the throw that ends it. *)
Fixpoint traitsWrites (clazz : Declaration) (p : ref) (positions : list nat)
    (c : TraitCompiler) : list Write :=
  match positions with
  | [] => []
  | i :: rest =>
    traitWrites clazz p i c ++
    match resolveTrait clazz p i c with
    | (Normal _, c') => traitsWrites clazz p rest c'
    | (Abrupt _, _) => []
    end
  end.

Definition classWrites (clazz : Declaration) (c : TraitCompiler) : list Write :=
  match JsMap.get clazz (classes c) with
  | Some p =>
    match heap c !! p with
    | Some rec =>
      traitsWrites clazz p (seq 0 (List.length (ClassRecord.traits rec))) c
    | None => []
    end
  | None => []
  end.

Fixpoint classesWrites (keys : list Declaration) (c : TraitCompiler)
    : list Write :=
  match keys with
  | [] => []
  | clazz :: rest =>
    classWrites clazz c ++
    match resolveClass clazz c with
    | (Normal _, c') => classesWrites rest c'
    | (Abrupt _, _) => []
    end
  end.

Definition resolveWrites (c : TraitCompiler) : list Write :=
  classesWrites (JsMap.keys (classes c)) c.

(** The table [m'] is the table [m] after the writes [ws]: every alias
    holds the value of its last write, or what it held in [m]. *)
Definition lastWins (m : JsMap.t string (JsMap.t string (string * string)))
    (ws : list Write)
    (m' : JsMap.t string (JsMap.t string (string * string))) : Prop :=
  ∀ file alias,
    reexportOf m' file alias =
    match lastWrite file alias ws with
    | Some v => Some v
    | None => reexportOf m file alias
    end.

Lemma lastWrite_app file alias ws1 ws2 :
  lastWrite file alias (ws1 ++ ws2) =
  match lastWrite file alias ws2 with
  | Some v => Some v
  | None => lastWrite file alias ws1
  end.
Proof.
  induction ws1 as [|[[f a] v] ws1 IH]; simpl.
  - by destruct (lastWrite file alias ws2).
  - rewrite IH. by destruct (lastWrite file alias ws2).
Qed.

Lemma lastWins_nil m : lastWins m [] m.
Proof. by intros file alias. Qed.

Lemma lastWins_app m ws1 m1 ws2 m2 :
  lastWins m ws1 m1 → lastWins m1 ws2 m2 → lastWins m (ws1 ++ ws2) m2.
Proof.
  intros H1 H2 file alias. rewrite lastWrite_app, H2.
  destruct (lastWrite file alias ws2); [done|apply H1].
Qed.

Lemma lastWins_set m file alias v inner :
  JsMap.get file m = Some inner →
  lastWins m [(file, alias, v)] (JsMap.set file (JsMap.set alias v inner) m).
Proof.
  intros Hget file' alias'. unfold reexportOf. simpl.
  destruct (decide (file = file')) as [<-|Hf].
  - rewrite JsMap_get_set_eq. simpl.
    destruct (decide (alias = alias')) as [<-|Ha].
    + rewrite JsMap_get_set_eq. by rewrite decide_True.
    + rewrite JsMap_get_set_ne by done.
      rewrite decide_False by (by intros [_ ?]).
      by rewrite Hget.
  - rewrite JsMap_get_set_ne by done.
    by rewrite decide_False by (by intros [? _]).
Qed.

Lemma lastWins_new_file m file :
  JsMap.get file m = None → lastWins m [] (JsMap.set file JsMap.empty m).
Proof.
  intros Hget file' alias'. unfold reexportOf. simpl.
  destruct (decide (file = file')) as [<-|Hf].
  - by rewrite JsMap_get_set_eq, Hget.
  - by rewrite JsMap_get_set_ne.
Qed.

Lemma writeReexports_lastWins clazz reexports : ∀ c,
  is_Some (JsMap.get (fileName (getSourceFile clazz)) (reexportMap c)) →
  lastWins (reexportMap c) (writesOf clazz reexports)
    (reexportMap (writeReexports (fileName (getSourceFile clazz)) reexports c).2).
Proof.
  induction reexports as [|rx rest IH]; intros c [inner Hget]; simpl;
    [apply lastWins_nil|].
  unfold bind at 1, fileReexports_set, bind at 1, gets. rewrite Hget.
  unfold modify.
  eapply (lastWins_app (ws1 := [_])); [by apply lastWins_set|].
  apply IH. simpl. rewrite JsMap_get_set_eq. by eexists.
Qed.

Lemma recordReexports_lastWins clazz result c :
  lastWins (reexportMap c)
    (match ResolveResult.reexports result with
     | Some reexports => writesOf clazz reexports
     | None => []
     end)
    (reexportMap (recordReexports clazz result c).2).
Proof.
  unfold recordReexports.
  destruct (ResolveResult.reexports result) as [rxs|]; [|apply lastWins_nil].
  unfold bind at 1, gets. unfold bind at 1.
  destruct (JsMap.has _ (reexportMap c)) eqn:Hhas; simpl.
  - apply writeReexports_lastWins. by apply JsMap_has_true.
  - eapply (lastWins_app (ws1 := [])).
    + apply (@lastWins_new_file _ (fileName (getSourceFile clazz))).
      unfold JsMap.has in Hhas.
      by destruct (JsMap.get _ (reexportMap c)).
    + apply (writeReexports_lastWins clazz rxs
               (set_reexportMap (JsMap.set _ JsMap.empty) c)).
      simpl. rewrite JsMap_get_set_eq. by eexists.
Qed.

Lemma resolveTrait_lastWins clazz p i c :
  lastWins (reexportMap c) (traitWrites clazz p i c)
    (reexportMap (resolveTrait clazz p i c).2).
Proof.
  unfold resolveTrait, traitWrites, traitAt.
  destruct (heap c !! p) as [rec|] eqn:Hp;
    [erewrite bind_normal by by apply deref_run
    |erewrite bind_abrupt by (by apply deref_dangling); apply lastWins_nil].
  simpl.
  destruct (ClassRecord.traits rec !! i) as [trait|]; [|apply lastWins_nil].
  destruct (Trait.state trait); try apply lastWins_nil.
  destruct (DecoratorHandler.resolve (Trait.handler trait)) as [f|];
    [|apply lastWins_nil].
  destruct (f clazz (Trait.analysis trait)) as [result|[msg|d|v]];
    try apply lastWins_nil.
  unfold bind.
  set (step := match ResolveResult.diagnostics result with
               | Some ds => _ | None => _ end).
  assert (Hstep : ∃ g, step = mutateTrait p i g).
  { subst step. destruct (ResolveResult.diagnostics result);
      [|destruct (ResolveResult.data result)]; by eexists. }
  destruct Hstep as [g ->]. rewrite mutateTrait_run.
  apply (recordReexports_lastWins clazz result (set_heap _ c)).
Qed.

Lemma resolveTraits_lastWins clazz p positions : ∀ c,
  lastWins (reexportMap c) (traitsWrites clazz p positions c)
    (reexportMap (resolveTraits clazz p positions c).2).
Proof.
  induction positions as [|i rest IH]; intros c; simpl; [apply lastWins_nil|].
  unfold bind.
  pose proof (resolveTrait_lastWins clazz p i c) as Hstep.
  destruct (resolveTrait clazz p i c) as [[[]|e] c1]; simpl in *.
  - eapply lastWins_app; [done|apply IH].
  - by rewrite app_nil_r.
Qed.

Lemma resolveClass_lastWins clazz c :
  lastWins (reexportMap c) (classWrites clazz c)
    (reexportMap (resolveClass clazz c).2).
Proof.
  unfold resolveClass, classWrites, bind at 1, gets.
  destruct (JsMap.get clazz (classes c)) as [p|]; [|apply lastWins_nil].
  destruct (heap c !! p) as [rec|] eqn:Hp.
  - erewrite bind_normal by by apply deref_run.
    apply resolveTraits_lastWins.
  - erewrite bind_abrupt by by apply deref_dangling. apply lastWins_nil.
Qed.

Lemma resolveClasses_lastWins keys : ∀ c,
  lastWins (reexportMap c) (classesWrites keys c)
    (reexportMap (resolveClasses keys c).2).
Proof.
  induction keys as [|clazz rest IH]; intros c; simpl; [apply lastWins_nil|].
  unfold bind.
  pose proof (resolveClass_lastWins clazz c) as Hstep.
  destruct (resolveClass clazz c) as [[[]|e] c1]; simpl in *.
  - eapply lastWins_app; [done|apply IH].
  - by rewrite app_nil_r.
Qed.

(** *** Computations that do not write the table *)

Definition keepsReexports {A} (m : M A) : Prop :=
  ∀ c, reexportMap (m c).2 = reexportMap c.

Lemma keepsReexports_ret {A} (a : A) : keepsReexports (ret a).
Proof. done. Qed.

Lemma keepsReexports_throw {A} e : keepsReexports (throw (A:=A) e).
Proof. done. Qed.

Lemma keepsReexports_gets {A} (f : TraitCompiler → A) : keepsReexports (gets f).
Proof. done. Qed.

Lemma keepsReexports_bind {A B} (m : M A) (k : A → M B) :
  keepsReexports m → (∀ a, keepsReexports (k a)) → keepsReexports (bind m k).
Proof.
  intros Hm Hk c. unfold bind. specialize (Hm c).
  destruct (m c) as [[a|e] c1]; simpl in *; [|done].
  by rewrite Hk.
Qed.

Lemma keepsReexports_modify f :
  (∀ c, reexportMap (f c) = reexportMap c) → keepsReexports (modify f).
Proof. intros H c. apply H. Qed.

Lemma keepsReexports_mutateTrait p i f : keepsReexports (mutateTrait p i f).
Proof. done. Qed.

Ltac keeps_reexports :=
  repeat first
    [ apply keepsReexports_ret
    | apply keepsReexports_throw
    | apply keepsReexports_gets
    | apply keepsReexports_mutateTrait
    | apply keepsReexports_modify; done
    | apply keepsReexports_bind; [|intros ?]
    | progress case_match ].

Lemma scanClassForTraits_keepsReexports clazz :
  keepsReexports (scanClassForTraits clazz).
Proof.
  intros c. rewrite scanClassForTraits_run. by repeat case_match.
Qed.

Lemma analyzeTrait_keepsReexports clazz p i :
  keepsReexports (analyzeTrait clazz p i).
Proof.
  unfold analyzeTrait, deref, factorySymbols_add, TypeError.
  keeps_reexports.
Qed.

Lemma analyzeTraits_keepsReexports clazz p positions :
  keepsReexports (analyzeTraits clazz p positions).
Proof.
  induction positions as [|i rest IH]; simpl; [done|].
  apply keepsReexports_bind; [apply analyzeTrait_keepsReexports|done].
Qed.

Lemma analyzeClass_keepsReexports clazz : keepsReexports (analyzeClass clazz).
Proof.
  unfold analyzeClass.
  apply keepsReexports_bind; [apply scanClassForTraits_keepsReexports|].
  intros [p|]; [|done].
  apply keepsReexports_bind; [unfold deref, TypeError; keeps_reexports|].
  intros rec. apply analyzeTraits_keepsReexports.
Qed.

Lemma visit_keepsReexports nodes : keepsReexports (visit nodes).
Proof.
  induction nodes as [|node rest IH]; simpl; [done|].
  apply keepsReexports_bind; [|done].
  destruct (isNamedClassDeclaration node); [apply analyzeClass_keepsReexports|done].
Qed.

Lemma compileTraits_keepsReexports clazz original traits : ∀ res pool,
  keepsReexports (compileTraits clazz original traits res pool).
Proof.
  induction traits as [|trait rest IH]; intros res pool; simpl; [done|].
  case_bool_decide; [apply IH|].
  apply keepsReexports_bind; [done|]. intros span.
  destruct (DecoratorHandler.compile _ _ _ _ _) as [[r|rs] pool'].
  - apply keepsReexports_bind; [done|]. intros _. case_match; apply IH.
  - apply keepsReexports_bind; [done|]. intros _. apply IH.
Qed.

Lemma recordDirectives_keepsReexports deps file directives :
  keepsReexports (recordDirectives deps file directives).
Proof.
  induction directives as [|directive rest IH]; simpl; [done|].
  keeps_reexports; done.
Qed.

Lemma recordPipes_keepsReexports file pipes :
  keepsReexports (recordPipes file pipes).
Proof.
  induction pipes as [|pipe rest IH]; simpl; [done|].
  keeps_reexports; done.
Qed.

Lemma recordScopes_keepsReexports scopes : keepsReexports (recordScopes scopes).
Proof.
  induction scopes as [|scope rest IH]; simpl; [done|].
  apply keepsReexports_bind; [|done].
  unfold recordScope. keeps_reexports.
  - apply recordDirectives_keepsReexports.
  - apply recordPipes_keepsReexports.
Qed.

Lemma recordNgModuleScopeDependencies_keepsReexports :
  keepsReexports recordNgModuleScopeDependencies.
Proof.
  unfold recordNgModuleScopeDependencies.
  apply keepsReexports_bind; [done|]. intros span.
  apply keepsReexports_bind; [done|]. intros scopes.
  apply keepsReexports_bind; [apply recordScopes_keepsReexports|done].
Qed.

Lemma typeCheckClasses_keepsReexports keys : ∀ ctx,
  keepsReexports (typeCheckClasses keys ctx).
Proof.
  induction keys as [|clazz rest IH]; intros ctx; simpl; [done|].
  apply keepsReexports_bind; [done|]. intros [p|]; [|done].
  apply keepsReexports_bind; [unfold deref, TypeError; keeps_reexports|].
  intros rec. apply IH.
Qed.

Lemma indexClasses_keepsReexports keys : ∀ ctx,
  keepsReexports (indexClasses keys ctx).
Proof.
  induction keys as [|clazz rest IH]; intros ctx; simpl; [done|].
  apply keepsReexports_bind; [done|]. intros [p|]; [|done].
  apply keepsReexports_bind; [unfold deref, TypeError; keeps_reexports|].
  intros rec. apply IH.
Qed.

Lemma diagnosticsOf_keepsReexports keys : keepsReexports (diagnosticsOf keys).
Proof.
  induction keys as [|clazz rest IH]; simpl; [done|].
  apply keepsReexports_bind; [done|]. intros [p|]; [|done].
  apply keepsReexports_bind; [unfold deref, TypeError; keeps_reexports|].
  intros rec. apply keepsReexports_bind; [apply IH|done].
Qed.

(** C8.  The re-export table is written by [resolve] alone: the analysis
    of a file, the compilation of a class, the type-checking and indexing
    passes and the accessors leave it as it is, and so does the recording
    of dependencies at the end of [resolve].  After [resolve], what the
    table holds for an alias of a file is the value of the last write the
    pass made to that alias of that file, or what the table held before
    when the pass made none; [resolveWrites] lists the writes of the pass
    in the order in which it makes them. *)
Theorem reexports_last_write_wins :
  (∀ sf nodes c, reexportMap (analyzeSync sf nodes c).2 = reexportMap c) ∧
  (∀ clazz constantPool c,
     reexportMap (compile clazz constantPool c).2 = reexportMap c) ∧
  (∀ ctx c, reexportMap (typeCheck ctx c).2 = reexportMap c) ∧
  (∀ ctx c, reexportMap (index ctx c).2 = reexportMap c) ∧
  (∀ node c, reexportMap (decoratorsFor node c).2 = reexportMap c) ∧
  (∀ c, reexportMap (diagnostics c).2 = reexportMap c) ∧
  (∀ c, reexportMap (exportStatements c).2 = reexportMap c) ∧
  (∀ c, reexportMap (recordNgModuleScopeDependencies c).2 = reexportMap c) ∧
  (∀ c file alias,
     reexportOf (reexportMap (resolve c).2) file alias =
     match lastWrite file alias (resolveWrites c) with
     | Some v => Some v
     | None => reexportOf (reexportMap c) file alias
     end).
Proof.
  split_and!.
  - intros sf nodes. unfold analyzeSync.
    apply keepsReexports_bind; [apply visit_keepsReexports|].
    intros _. keeps_reexports.
  - intros clazz pool. unfold compile.
    apply keepsReexports_bind; [done|]. intros known.
    case_match; [done|].
    apply keepsReexports_bind; [done|]. intros [p|]; [|done].
    apply keepsReexports_bind; [unfold deref, TypeError; keeps_reexports|].
    intros rec.
    apply keepsReexports_bind; [apply compileTraits_keepsReexports|].
    intros out. keeps_reexports.
  - intros ctx. unfold typeCheck.
    apply keepsReexports_bind; [done|]. intros keys.
    apply typeCheckClasses_keepsReexports.
  - intros ctx. unfold index.
    apply keepsReexports_bind; [done|]. intros keys.
    apply indexClasses_keepsReexports.
  - intros node. unfold decoratorsFor.
    apply keepsReexports_bind; [done|]. intros known.
    case_match; [done|].
    apply keepsReexports_bind; [done|]. intros [p|]; [|done].
    apply keepsReexports_bind; [unfold deref, TypeError; keeps_reexports|done].
  - unfold diagnostics.
    apply keepsReexports_bind; [done|]. intros keys.
    apply diagnosticsOf_keepsReexports.
  - done.
  - apply recordNgModuleScopeDependencies_keepsReexports.
  - intros c. unfold resolve, resolveWrites, bind at 1, gets. unfold bind.
    pose proof (resolveClasses_lastWins (JsMap.keys (classes c)) c) as Hpass.
    destruct (resolveClasses (JsMap.keys (classes c)) c) as [[[]|e] c1];
      simpl in *; [|done].
    by rewrite recordNgModuleScopeDependencies_keepsReexports.
Qed.

(** ** Claims about compilation *)

Definition names (rs : list CompileResult.t) : list string :=
  map CompileResult.name rs.

(** Of the results that share a name, the first one only. *)
Fixpoint keepFirstByName (rs : list CompileResult.t) : list CompileResult.t :=
  match rs with
  | [] => []
  | r :: rest =>
    r :: filter (λ r', CompileResult.name r' ≠ CompileResult.name r)
           (keepFirstByName rest)
  end.

(** What a handler's [compile] returned, as a list. *)
Definition resultsOf (r : CompileReturn) : list CompileResult.t :=
  match r with
  | Single result => [result]
  | Many results => results
  end.

(** The results the RESOLVED traits of a record emit, in the order of the
    traits, each handler being given the constant pool as the handlers
    before it left it. *)
Fixpoint emitted (clazz : Declaration) (traits : list Trait.t)
    (constantPool : ConstantPool) : list CompileResult.t :=
  match traits with
  | [] => []
  | trait :: rest =>
    if bool_decide (Trait.state trait ≠ RESOLVED) then
      emitted clazz rest constantPool
    else
      let '(compileMatchRes, constantPool') :=
        DecoratorHandler.compile (Trait.handler trait) clazz
          (Trait.analysis trait) (Trait.resolution trait) constantPool in
      resultsOf compileMatchRes ++ emitted clazz rest constantPool'
  end.

Lemma someNamed_true name res : someNamed name res = true ↔ name ∈ names res.
Proof.
  unfold someNamed, names. rewrite existsb_exists, list_elem_of_fmap.
  split.
  - intros (r & Hr%list_elem_of_In & Hn%bool_decide_eq_true). by exists r.
  - intros (r & -> & Hr). exists r. split; [by apply list_elem_of_In|].
    by apply bool_decide_eq_true.
Qed.

Lemma names_app rs1 rs2 : names (rs1 ++ rs2) = names rs1 ++ names rs2.
Proof. apply map_app. Qed.

(** The loop of lines 388-392 keeps what it has and adds, of the new
    results, the first of each name it does not have. *)
Lemma pushUnnamed_spec results : ∀ res,
  pushUnnamed res results =
  res ++ filter (λ r, CompileResult.name r ∉ names res) (keepFirstByName results).
Proof.
  induction results as [|r rest IH]; intros res; simpl.
  - by rewrite app_nil_r.
  - destruct (someNamed (CompileResult.name r) res) eqn:Hsome; simpl.
    + apply someNamed_true in Hsome.
      rewrite IH, filter_cons_False by (intros Hn; by apply Hn).
      f_equal. rewrite list_filter_filter. apply list_filter_iff.
      intros r'. split; [|by intros [? _]].
      intros Hr'. split; [done|]. intros Heq. apply Hr'. by rewrite Heq.
    + assert (Hnot : CompileResult.name r ∉ names res).
      { intros Hin%someNamed_true. congruence. }
      rewrite IH, filter_cons_True by done.
      rewrite <- app_assoc. simpl. do 2 f_equal.
      rewrite list_filter_filter. apply list_filter_iff.
      intros r'. rewrite names_app, elem_of_app. simpl.
      rewrite list_elem_of_singleton. tauto.
Qed.

Lemma filter_all {A} (P : A → Prop) `{!∀ x, Decision (P x)} (l : list A) :
  (∀ x, x ∈ l → P x) → filter P l = l.
Proof.
  intros Hall. induction l as [|x l IH]; [done|].
  rewrite filter_cons_True by (apply Hall; by left).
  f_equal. apply IH. intros y Hy. apply Hall. by right.
Qed.

Lemma pushUnnamed_nil results : pushUnnamed [] results = keepFirstByName results.
Proof.
  rewrite pushUnnamed_spec. simpl. apply filter_all.
  intros r _ Hin. by apply elem_of_nil in Hin.
Qed.

Lemma pushUnnamed_app results1 results2 : ∀ res,
  pushUnnamed res (results1 ++ results2) =
  pushUnnamed (pushUnnamed res results1) results2.
Proof.
  induction results1 as [|r rest IH]; intros res; simpl; [done|].
  destruct (negb _); apply IH.
Qed.

Lemma names_filter_not_elem n (rs : list CompileResult.t) :
  n ∉ names (filter (λ r', CompileResult.name r' ≠ n) rs).
Proof.
  unfold names. rewrite list_elem_of_fmap.
  intros (r & -> & [Hne _]%list_elem_of_filter). done.
Qed.

Lemma NoDup_names_filter (P : CompileResult.t → Prop) `{!∀ x, Decision (P x)} rs :
  NoDup (names rs) → NoDup (names (filter P rs)).
Proof.
  induction rs as [|r rs IH]; [done|].
  simpl. rewrite NoDup_cons. intros [Hr Hnd].
  destruct (decide (P r)).
  - rewrite filter_cons_True by done. simpl. apply NoDup_cons. split; [|by apply IH].
    intros (r' & Hn & [_ Hin]%list_elem_of_filter)%list_elem_of_fmap.
    apply Hr. apply list_elem_of_fmap. by exists r'.
  - rewrite filter_cons_False by done. by apply IH.
Qed.

Lemma keepFirstByName_NoDup rs : NoDup (names (keepFirstByName rs)).
Proof.
  induction rs as [|r rs IH]; simpl; [apply NoDup_nil_2|].
  apply NoDup_cons. split; [apply names_filter_not_elem|].
  by apply NoDup_names_filter.
Qed.

(** A result that is kept is the first of its name among those emitted. *)
Lemma keepFirstByName_first rs r :
  r ∈ keepFirstByName rs →
  ∃ before after,
    rs = before ++ r :: after ∧ CompileResult.name r ∉ names before.
Proof.
  revert r. induction rs as [|x rs IH]; intros r; simpl.
  - intros Hin. by apply elem_of_nil in Hin.
  - intros [->|[Hne Hin]%list_elem_of_filter]%elem_of_cons.
    + exists [], rs. split; [done|]. apply not_elem_of_nil.
    + destruct (IH r Hin) as (before & after & -> & Hnot).
      exists (x :: before), after. split; [done|].
      simpl. rewrite not_elem_of_cons. done.
Qed.

(** Every name that is emitted is the name of a result that is kept. *)
Lemma keepFirstByName_names rs e :
  e ∈ rs → CompileResult.name e ∈ names (keepFirstByName rs).
Proof.
  induction rs as [|x rs IH]; simpl.
  - intros Hin. by apply elem_of_nil in Hin.
  - intros [->|Hin]%elem_of_cons; [by left|].
    destruct (decide (CompileResult.name e = CompileResult.name x)) as [->|Hne];
      [by left|].
    right. specialize (IH Hin).
    apply list_elem_of_fmap in IH as (r & Hn & Hr).
    apply list_elem_of_fmap. exists r. split; [done|].
    apply list_elem_of_filter. split; [congruence|done].
Qed.

(** The loop of [compile]: it never throws, it returns the results the
    traits emit without those whose name was already there, and it leaves
    the compiler as it is but for the spans of the recorder. *)
Lemma compileTraits_run clazz original traits : ∀ res constantPool c,
  ∃ constantPool' log,
    compileTraits clazz original traits res constantPool c =
    (Normal (pushUnnamed res (emitted clazz traits constantPool), constantPool'),
     set_perf (λ _, log) c).
Proof.
  induction traits as [|trait rest IH]; intros res pool c; simpl.
  - exists pool, (perf c). unfold ret. by destruct c.
  - case_bool_decide; [apply IH|].
    unfold bind at 1, perf_start.
    destruct (DecoratorHandler.compile _ _ _ _ _) as [[r|rs] pool1].
    + unfold bind at 1, perf_stop, modify. simpl.
      destruct (negb (someNamed (CompileResult.name r) res)) eqn:Hnew.
      * edestruct IH as (pool2 & log & ->). by exists pool2, log.
      * edestruct IH as (pool2 & log & ->). by exists pool2, log.
    + unfold bind at 1, perf_stop, modify. simpl. rewrite pushUnnamed_app.
      edestruct IH as (pool2 & log & ->). by exists pool2, log.
Qed.

(** [compile] in one equation, for a class declaration whose original is a
    class declaration with a record. *)
Lemma compile_run clazz constantPool c rec :
  isNamedClassDeclaration clazz = true →
  isNamedClassDeclaration (getOriginalNode clazz) = true →
  recordOf c (getOriginalNode clazz) = Some rec →
  let res := keepFirstByName (emitted clazz (ClassRecord.traits rec) constantPool) in
  ∃ constantPool' c',
    compile clazz constantPool c =
    (Normal (if bool_decide (0 < List.length res)%nat then Some res else None,
             constantPool'), c') ∧
    dtsTransforms c' =
      dtsTransforms c ++
      [DtsTransformRegistry.addFields (getSourceFile (getOriginalNode clazz))
         (getOriginalNode clazz) res].
Proof.
  intros Hclazz Horiginal Hrec res. unfold recordOf in Hrec.
  destruct (JsMap.get (getOriginalNode clazz) (classes c)) as [p|] eqn:Hget;
    [|done]. simpl in Hrec.
  unfold compile. unfold bind at 1, gets.
  unfold JsMap.has. rewrite Hget, Hclazz, Horiginal. simpl.
  unfold bind at 1. rewrite Hget.
  erewrite bind_normal by by apply deref_run.
  destruct (compileTraits_run clazz (getOriginalNode clazz)
              (ClassRecord.traits rec) [] constantPool c)
    as (pool1 & log & Hrun).
  erewrite bind_normal by done.
  rewrite pushUnnamed_nil. unfold bind, modify, ret. simpl.
  by eexists _, _.
Qed.

(** The guard of lines 369-372. *)
Lemma compile_null clazz constantPool c :
  isNamedClassDeclaration clazz = false ∨
  isNamedClassDeclaration (getOriginalNode clazz) = false ∨
  JsMap.has (getOriginalNode clazz) (classes c) = false →
  compile clazz constantPool c = (Normal (None, constantPool), c).
Proof.
  intros Hguard. unfold compile, bind at 1, gets.
  by destruct Hguard as [-> | [-> | ->]]; rewrite ?orb_true_r.
Qed.

(** C5.  The list [compile] returns never has two results of the same
    name.  For a class declaration with a record, [compile] returns, and
    what it returns is the list of the results its RESOLVED traits emit,
    each result whose name an earlier result has already being left out
    ([null] stands for the empty list): every result of the list is the
    first result of its name that was emitted, and every name that was
    emitted is in the list. *)
Theorem compile_no_duplicate_names (clazz : Declaration)
    (constantPool : ConstantPool) (c : TraitCompiler) :
  (∀ res constantPool',
     (compile clazz constantPool c).1 = Normal (Some res, constantPool') →
     NoDup (names res)) ∧
  (∀ rec,
     isNamedClassDeclaration clazz = true →
     isNamedClassDeclaration (getOriginalNode clazz) = true →
     recordOf c (getOriginalNode clazz) = Some rec →
     let results := emitted clazz (ClassRecord.traits rec) constantPool in
     ∃ res constantPool',
       (compile clazz constantPool c).1 =
         Normal (if bool_decide (res = []) then None else Some res,
                 constantPool') ∧
       res = keepFirstByName results ∧
       NoDup (names res) ∧
       (∀ r, r ∈ res →
          ∃ before after,
            results = before ++ r :: after ∧
            CompileResult.name r ∉ names before) ∧
       (∀ e, e ∈ results → CompileResult.name e ∈ names res)).
Proof.
  split.
  - intros res pool1 Hrun.
    destruct (isNamedClassDeclaration clazz) eqn:Hclazz;
      [|rewrite compile_null in Hrun by (by left); done].
    destruct (isNamedClassDeclaration (getOriginalNode clazz)) eqn:Horiginal;
      [|rewrite compile_null in Hrun by (right; by left); done].
    destruct (JsMap.get (getOriginalNode clazz) (classes c)) as [p|] eqn:Hget.
    + destruct (heap c !! p) as [rec|] eqn:Hp.
      * assert (Hrec : recordOf c (getOriginalNode clazz) = Some rec).
        { unfold recordOf. by rewrite Hget. }
        destruct (compile_run clazz constantPool c Hclazz Horiginal Hrec)
          as (pool2 & c2 & Hrun2 & _).
        rewrite Hrun2 in Hrun. simpl in Hrun.
        case_bool_decide; [|done].
        injection Hrun as <- _. apply keepFirstByName_NoDup.
      * unfold compile, bind at 1, gets, JsMap.has in Hrun.
        rewrite Hget, Hclazz, Horiginal in Hrun. simpl in Hrun.
        unfold bind at 1 in Hrun. rewrite Hget in Hrun.
        by erewrite bind_abrupt in Hrun by by apply deref_dangling.
    + rewrite compile_null in Hrun; [done|].
      right. right. unfold JsMap.has. by rewrite Hget.
  - intros rec Hclazz Horiginal Hrec results.
    destruct (compile_run clazz constantPool c Hclazz Horiginal Hrec)
      as (pool1 & c1 & Hrun & _).
    exists (keepFirstByName results), pool1. split_and!.
    + rewrite Hrun. simpl. fold results.
      by destruct (keepFirstByName results).
    + done.
    + apply keepFirstByName_NoDup.
    + intros r. apply keepFirstByName_first.
    + intros e. apply keepFirstByName_names.
Qed.

(** C6.  [compile] returns [null], and registers nothing, when the
    original of the declaration has no record in [classes], and also when
    the declaration or its original is not a named class declaration.  For
    a named class declaration whose original is one and has a record, it
    returns [null] when the list of results, without the repeated names,
    is empty, and that list otherwise; and in both cases it registers that
    list with the declaration-file transform of the file of the original
    declaration, under the original declaration. *)
Theorem compile_returns_and_registers (clazz : Declaration)
    (constantPool : ConstantPool) (c : TraitCompiler) :
  let original := getOriginalNode clazz in
  (JsMap.has original (classes c) = false →
   compile clazz constantPool c = (Normal (None, constantPool), c)) ∧
  (isNamedClassDeclaration clazz = false ∨
   isNamedClassDeclaration original = false →
   compile clazz constantPool c = (Normal (None, constantPool), c)) ∧
  (∀ rec,
     isNamedClassDeclaration clazz = true →
     isNamedClassDeclaration original = true →
     recordOf c original = Some rec →
     let res := keepFirstByName
                  (emitted clazz (ClassRecord.traits rec) constantPool) in
     ∃ constantPool' c',
       compile clazz constantPool c =
         (Normal (match res with [] => None | _ :: _ => Some res end,
                  constantPool'), c') ∧
       dtsTransforms c' =
         dtsTransforms c ++
         [DtsTransformRegistry.addFields (getSourceFile original) original res]).
Proof.
  intros original. split_and!.
  - intros Hhas. apply compile_null. right. by right.
  - intros [Hnot|Hnot]; apply compile_null; [by left|right; by left].
  - intros rec Hclazz Horiginal Hrec res.
    destruct (compile_run clazz constantPool c Hclazz Horiginal Hrec)
      as (pool1 & c1 & Hrun & Hdts).
    exists pool1, c1. split; [|done].
    rewrite Hrun. fold res. by destruct res.
Qed.

(** ** Claims about the recording of dependencies *)

(** The compiler with the edges of its incremental store replaced. *)
Definition withEdges (c : TraitCompiler) (edges : IncrementalDriver.t)
    : TraitCompiler :=
  set_incrementalDriver (λ _, edges) c.

(** The edges the loop over the pipes of a scope records. *)
Definition pipeEdges (file : SourceFile) (pipes : list ScopeMember.pipe)
    : list (SourceFile * SourceFile) :=
  map (λ pipe, (getSourceFile (ScopeMember.pipeNode pipe), file)) pipes.

(** The edges the loop over the directives of a scope records. *)
Definition directiveEdges (deps : list SourceFile) (file : SourceFile)
    (directives : list ScopeMember.directive)
    : list (SourceFile * SourceFile) :=
  flat_map (λ directive,
    let dirSf := getSourceFile (ScopeMember.node directive) in
    (dirSf, file) ::
    (if ScopeMember.isComponent directive
     then map (λ dep, (dep, dirSf)) deps else [])) directives.

(** The edges recorded for one scope, [deps] being the dependencies of
    the file of its declaration. *)
Definition scopeEdges (deps : list SourceFile) (scope : CompilationScope.t)
    : list (SourceFile * SourceFile) :=
  let file := getSourceFile (CompilationScope.declaration scope) in
  let ngModuleFile := getSourceFile (CompilationScope.ngModule scope) in
  map (λ dep, (dep, ngModuleFile)) deps ++
  [(ngModuleFile, file)] ++
  directiveEdges deps file (CompilationScope.directives scope) ++
  pipeEdges file (CompilationScope.pipes scope).

(** The edges recorded for the scopes of the registry, one scope after
    the other, each with the dependencies known when it is reached. *)
Fixpoint scopesEdges (known : IncrementalDriver.t)
    (scopes : list CompilationScope.t) : list (SourceFile * SourceFile) :=
  match scopes with
  | [] => []
  | scope :: rest =>
    let edges :=
      scopeEdges
        (IncrementalDriver.getFileDependencies
           (getSourceFile (CompilationScope.declaration scope)) known)
        scope in
    edges ++ scopesEdges (known ++ edges) rest
  end.

Lemma withEdges_id c : withEdges c (incrementalDriver c) = c.
Proof. by destruct c. Qed.

Lemma recordPipes_run file pipes : ∀ c,
  recordPipes file pipes c =
  (Normal tt, withEdges c (incrementalDriver c ++ pipeEdges file pipes)).
Proof.
  induction pipes as [|pipe rest IH]; intros c; simpl.
  - by rewrite app_nil_r, withEdges_id.
  - unfold bind, modify. rewrite IH. f_equal.
    unfold withEdges, set_incrementalDriver,
      IncrementalDriver.trackFileDependency; simpl.
    by rewrite <- app_assoc.
Qed.

Lemma recordDirectives_run deps file directives : ∀ c,
  recordDirectives deps file directives c =
  (Normal tt,
   withEdges c (incrementalDriver c ++ directiveEdges deps file directives)).
Proof.
  induction directives as [|directive rest IH]; intros c; simpl.
  - by rewrite app_nil_r, withEdges_id.
  - unfold bind at 1, modify. unfold bind at 1.
    destruct (ScopeMember.isComponent directive); unfold modify, ret;
      rewrite IH; f_equal;
      unfold withEdges, set_incrementalDriver,
        IncrementalDriver.trackFileDependency,
        IncrementalDriver.trackFileDependencies; simpl;
      by rewrite <- ?app_assoc.
Qed.

Lemma recordScope_run scope c :
  recordScope scope c =
  (Normal tt,
   withEdges c
     (incrementalDriver c ++
      scopeEdges
        (IncrementalDriver.getFileDependencies
           (getSourceFile (CompilationScope.declaration scope))
           (incrementalDriver c))
        scope)).
Proof.
  unfold recordScope, bind at 1, gets.
  unfold bind at 1, modify. unfold bind at 1.
  unfold bind. rewrite recordDirectives_run, recordPipes_run. f_equal.
  unfold withEdges, set_incrementalDriver, scopeEdges,
    IncrementalDriver.trackFileDependency,
    IncrementalDriver.trackFileDependencies; simpl.
  by rewrite <- !app_assoc.
Qed.

Lemma recordScopes_run scopes : ∀ c,
  recordScopes scopes c =
  (Normal tt,
   withEdges c (incrementalDriver c ++ scopesEdges (incrementalDriver c) scopes)).
Proof.
  induction scopes as [|scope rest IH]; intros c; simpl.
  - by rewrite app_nil_r, withEdges_id.
  - unfold bind. rewrite recordScope_run, IH. f_equal.
    unfold withEdges, set_incrementalDriver; simpl.
    by rewrite <- app_assoc.
Qed.

Lemma recordNgModuleScopeDependencies_run c :
  (recordNgModuleScopeDependencies c).1 = Normal tt ∧
  incrementalDriver (recordNgModuleScopeDependencies c).2 =
    incrementalDriver c ++ scopesEdges (incrementalDriver c) (scopeRegistry c).
Proof.
  unfold recordNgModuleScopeDependencies, bind at 1, perf_start.
  unfold bind at 1, gets. unfold bind. rewrite recordScopes_run. done.
Qed.




(** * Further properties of the compiler *)

(** ** Matching: the traits a record ends with *)

(** The handlers that answer for a class, each with what its [detect]
    returned, in the order of the registry. *)
Definition answers (clazz : Declaration) (decorators : option (list Decorator))
    (hs : list DecoratorHandler.t)
    : list (DecoratorHandler.t * DetectResult.t) :=
  omap (λ handler,
          (λ result, (handler, result)) <$>
          DecoratorHandler.detect handler clazz decorators) hs.

(** The traits [Trait.pending(handler, result)] of a list of answers. *)
Definition pendingTraits (ms : list (DecoratorHandler.t * DetectResult.t))
    : list Trait.t :=
  map (λ m, Trait.pending m.1 m.2) ms.

Definition nonWeak (ms : list (DecoratorHandler.t * DetectResult.t))
    : list (DecoratorHandler.t * DetectResult.t) :=
  filter (λ m, DecoratorHandler.precedence m.1 ≠ WEAK) ms.

Definition primaries (ms : list (DecoratorHandler.t * DetectResult.t))
    : list (DecoratorHandler.t * DetectResult.t) :=
  filter (λ m, DecoratorHandler.precedence m.1 = PRIMARY) ms.

(** The answers whose traits stay: all of them when they are all WEAK,
    and otherwise the ones that are not WEAK. *)
Definition kept (ms : list (DecoratorHandler.t * DetectResult.t))
    : list (DecoratorHandler.t * DetectResult.t) :=
  if decide (nonWeak ms = []) then ms else nonWeak ms.

Lemma answers_cons_None {clazz decorators handler} hs :
  DecoratorHandler.detect handler clazz decorators = None →
  answers clazz decorators (handler :: hs) = answers clazz decorators hs.
Proof. unfold answers. simpl. by intros ->. Qed.

Lemma answers_cons_Some {clazz decorators handler} hs {result} :
  DecoratorHandler.detect handler clazz decorators = Some result →
  answers clazz decorators (handler :: hs) =
  (handler, result) :: answers clazz decorators hs.
Proof. unfold answers. simpl. by intros ->. Qed.

Lemma answers_nil clazz decorators hs :
  answers clazz decorators hs = [] ↔
  ∀ handler, handler ∈ hs →
    DecoratorHandler.detect handler clazz decorators = None.
Proof.
  induction hs as [|h hs IH].
  - split; [|done]. intros _ handler Hin. by apply elem_of_nil in Hin.
  - destruct (DecoratorHandler.detect h clazz decorators) as [r|] eqn:Hd.
    + rewrite (answers_cons_Some _ Hd). split; [done|].
      intros H. specialize (H h ltac:(by left)). congruence.
    + rewrite (answers_cons_None _ Hd), IH. split.
      * intros H handler [->|Hin]%elem_of_cons; [done|by apply H].
      * intros H handler Hin. apply H. by right.
Qed.

Lemma scanFirst_None clazz decorators hs :
  scanFirst clazz decorators hs = None ↔ answers clazz decorators hs = [].
Proof.
  induction hs as [|h hs IH]; [done|].
  destruct (DecoratorHandler.detect h clazz decorators) as [r|] eqn:Hd.
  - rewrite (answers_cons_Some _ Hd). simpl. by rewrite Hd.
  - rewrite (answers_cons_None _ Hd). simpl. by rewrite Hd.
Qed.

Lemma nonWeak_app ms1 ms2 : nonWeak (ms1 ++ ms2) = nonWeak ms1 ++ nonWeak ms2.
Proof. apply filter_app. Qed.

Lemma primaries_app ms1 ms2 :
  primaries (ms1 ++ ms2) = primaries ms1 ++ primaries ms2.
Proof. apply filter_app. Qed.

Lemma nonWeak_cons m ms :
  nonWeak (m :: ms) =
  if decide (DecoratorHandler.precedence m.1 = WEAK)
  then nonWeak ms else m :: nonWeak ms.
Proof.
  unfold nonWeak. case_decide.
  - by rewrite filter_cons_False by (intros H'; by apply H').
  - by rewrite filter_cons_True.
Qed.

Lemma primaries_cons m ms :
  primaries (m :: ms) =
  if decide (DecoratorHandler.precedence m.1 = PRIMARY)
  then m :: primaries ms else primaries ms.
Proof.
  unfold primaries. case_decide.
  - by rewrite filter_cons_True.
  - by rewrite filter_cons_False.
Qed.

Lemma primaries_all_weak ms : nonWeak ms = [] → primaries ms = [].
Proof.
  induction ms as [|m ms IH]; [done|].
  rewrite nonWeak_cons, primaries_cons. case_decide as Hw; [|done].
  intros H. rewrite decide_False by congruence. by apply IH.
Qed.

Lemma pendingTraits_nonWeak ms :
  filter (λ field, Trait.precedence field ≠ WEAK) (pendingTraits ms) =
  pendingTraits (nonWeak ms).
Proof.
  induction ms as [|m ms IH]; [done|]. rewrite nonWeak_cons.
  unfold pendingTraits in *. simpl. case_decide as Hw.
  - rewrite filter_cons_False; [done|]. intros H'. by apply H'.
  - rewrite filter_cons_True by done. simpl. by rewrite IH.
Qed.

Lemma pendingTraits_app ms1 ms2 :
  pendingTraits (ms1 ++ ms2) = pendingTraits ms1 ++ pendingTraits ms2.
Proof. apply map_app. Qed.

Lemma kept_eq ms1 ms2 :
  nonWeak ms1 = nonWeak ms2 → nonWeak ms1 ≠ [] → kept ms1 = kept ms2.
Proof.
  intros Heq Hne. unfold kept. rewrite <- Heq. by rewrite !decide_False.
Qed.

(** The loop on a record whose traits are those of the answers [acc] so
    far, when no two PRIMARY handlers answer. *)
Lemma scanRecord_kept clazz decorators hs : ∀ acc rec,
  acc ≠ [] →
  ClassRecord.metaDiagnostics rec = None →
  ClassRecord.traits rec = pendingTraits acc →
  (nonWeak acc = [] ∨ nonWeak acc = acc) →
  ClassRecord.hasWeakHandlers rec = bool_decide (nonWeak acc = []) →
  ClassRecord.hasPrimaryHandler rec = bool_decide (primaries acc ≠ []) →
  (List.length (primaries (acc ++ answers clazz decorators hs)) ≤ 1)%nat →
  let rec' := scanRecord clazz decorators hs rec in
  ClassRecord.traits rec' =
    pendingTraits (kept (acc ++ answers clazz decorators hs)) ∧
  ClassRecord.metaDiagnostics rec' = None ∧
  ClassRecord.hasWeakHandlers rec' =
    bool_decide (nonWeak (acc ++ answers clazz decorators hs) = []).
Proof.
  induction hs as [|h hs IH];
    intros acc rec Hne Hmeta Htraits Hhom Hweak Hprim Hcount.
  - simpl. unfold answers; simpl. rewrite app_nil_r. split_and!; try done.
    rewrite Htraits. f_equal. unfold kept. case_decide; [done|].
    by destruct Hhom.
  - simpl.
    destruct (DecoratorHandler.detect h clazz decorators) as [r|] eqn:Hd.
    2:{ rewrite (answers_cons_None _ Hd) in *. by apply IH. }
    rewrite (answers_cons_Some _ Hd) in *.
    unfold nextMatch.
    destruct (decide (DecoratorHandler.precedence h = WEAK)) as [Hw|Hw].
    + (* a WEAK handler *)
      assert (Hnotp : DecoratorHandler.precedence h ≠ PRIMARY) by congruence.
      rewrite (bool_decide_eq_true_2 _ Hw). simpl.
      destruct (ClassRecord.hasWeakHandlers rec) eqn:Hhas; simpl.
      * (* among WEAK traits: appended *)
        symmetry in Hweak. apply bool_decide_eq_true in Hweak.
        assert (Hnp : primaries acc = []) by by apply primaries_all_weak.
        unfold checkPrimaryRecord.
        rewrite (bool_decide_eq_false_2 _ Hnotp). simpl.
        replace (acc ++ (h, r) :: answers clazz decorators hs)
          with ((acc ++ [(h, r)]) ++ answers clazz decorators hs) in *
          by by rewrite <- app_assoc.
        assert (Hall : nonWeak (acc ++ [(h, r)]) = []).
        { rewrite nonWeak_app, Hweak, nonWeak_cons. simpl.
          by rewrite decide_True. }
        apply IH; simpl.
        -- by destruct acc.
        -- done.
        -- by rewrite Htraits, pendingTraits_app.
        -- by left.
        -- rewrite Hhas. symmetry. by apply bool_decide_eq_true.
        -- rewrite Hprim, primaries_app, Hnp, primaries_cons. simpl.
           rewrite decide_False by done. symmetry.
           apply bool_decide_eq_false. intros H'. by apply H'.
        -- exact Hcount.
      * (* after traits that are not WEAK: dropped *)
        symmetry in Hweak. apply bool_decide_eq_false in Hweak.
        destruct Hhom as [Hhom|Hhom]; [done|].
        assert (Hnw : nonWeak (acc ++ (h, r) :: answers clazz decorators hs) =
                      nonWeak (acc ++ answers clazz decorators hs)).
        { rewrite !nonWeak_app, nonWeak_cons. simpl. by rewrite decide_True. }
        assert (Hp : primaries (acc ++ (h, r) :: answers clazz decorators hs) =
                     primaries (acc ++ answers clazz decorators hs)).
        { rewrite !primaries_app, primaries_cons. simpl.
          by rewrite decide_False. }
        rewrite (kept_eq _ _ Hnw), Hnw.
        2:{ rewrite Hnw, nonWeak_app, Hhom. by destruct acc. }
        rewrite Hp in Hcount.
        apply IH; try done.
        -- by right.
        -- rewrite Hhas. symmetry. by apply bool_decide_eq_false.
    + (* a handler that is not WEAK *)
      rewrite (bool_decide_eq_false_2 _ Hw). simpl.
      assert (Hone : nonWeak [(h, r)] = [(h, r)]).
      { rewrite nonWeak_cons. simpl. by rewrite decide_False. }
      assert (Hpone : bool_decide (DecoratorHandler.precedence h = PRIMARY) =
                      bool_decide (primaries [(h, r)] ≠ [])).
      { rewrite primaries_cons. simpl. case_decide as Hp'.
        - by rewrite !bool_decide_eq_true_2.
        - rewrite (bool_decide_eq_false_2 _ Hp'). symmetry.
          apply bool_decide_eq_false. intros H'. by apply H'. }
      destruct (ClassRecord.hasWeakHandlers rec) eqn:Hhas; simpl.
      * (* the WEAK traits go, the trait is appended *)
        symmetry in Hweak. apply bool_decide_eq_true in Hweak.
        assert (Hnp : primaries acc = []) by by apply primaries_all_weak.
        unfold checkPrimaryRecord. simpl.
        rewrite Hprim, Hnp.
        rewrite (bool_decide_eq_false_2 ([] ≠ [])) by (intros H'; by apply H').
        rewrite andb_false_r. simpl.
        assert (Hnw : nonWeak (acc ++ (h, r) :: answers clazz decorators hs) =
                      nonWeak ([(h, r)] ++ answers clazz decorators hs)).
        { rewrite !nonWeak_app, Hweak, Hone, nonWeak_cons. simpl.
          by rewrite decide_False. }
        assert (Hp : primaries (acc ++ (h, r) :: answers clazz decorators hs) =
                     primaries ([(h, r)] ++ answers clazz decorators hs)).
        { rewrite !primaries_app, Hnp, !primaries_cons. simpl.
          by case_decide. }
        rewrite (kept_eq _ _ Hnw), Hnw.
        2:{ rewrite Hnw, nonWeak_app, Hone. done. }
        rewrite Hp in Hcount.
        apply IH; simpl; try done.
        -- by rewrite Htraits, pendingTraits_nonWeak, Hweak.
        -- by right.
        -- rewrite Hone. symmetry. by apply bool_decide_eq_false.
      * (* among traits that are not WEAK: appended, unless two are PRIMARY *)
        symmetry in Hweak. apply bool_decide_eq_false in Hweak.
        destruct Hhom as [Hhom|Hhom]; [done|].
        unfold checkPrimaryRecord.
        destruct (bool_decide (DecoratorHandler.precedence h = PRIMARY) &&
                  ClassRecord.hasPrimaryHandler rec) eqn:Hcol.
        { exfalso. apply andb_true_iff in Hcol as [Hp Hhp].
          apply bool_decide_eq_true in Hp.
          rewrite Hprim in Hhp. apply bool_decide_eq_true in Hhp.
          rewrite primaries_app, primaries_cons in Hcount. simpl in Hcount.
          rewrite decide_True in Hcount by done.
          rewrite length_app in Hcount. simpl in Hcount.
          destruct (primaries acc); [done|]. simpl in Hcount. lia. }
        replace (acc ++ (h, r) :: answers clazz decorators hs)
          with ((acc ++ [(h, r)]) ++ answers clazz decorators hs) in *
          by by rewrite <- app_assoc.
        apply IH; simpl.
        -- by destruct acc.
        -- done.
        -- by rewrite Htraits, pendingTraits_app.
        -- right. by rewrite nonWeak_app, Hhom, Hone.
        -- rewrite Hhas. symmetry. apply bool_decide_eq_false.
           rewrite nonWeak_app, Hhom. by destruct acc.
        -- rewrite Hprim, Hpone, primaries_app.
           destruct (primaries acc), (primaries [(h, r)]); simpl;
             repeat case_bool_decide; naive_solver.
        -- exact Hcount.
Qed.

Lemma scanFirst_kept clazz decorators hs :
  answers clazz decorators hs ≠ [] →
  (List.length (primaries (answers clazz decorators hs)) ≤ 1)%nat →
  ∃ rec,
    scanFirst clazz decorators hs = Some rec ∧
    ClassRecord.traits rec = pendingTraits (kept (answers clazz decorators hs)) ∧
    ClassRecord.metaDiagnostics rec = None ∧
    ClassRecord.hasWeakHandlers rec =
      bool_decide (nonWeak (answers clazz decorators hs) = []).
Proof.
  induction hs as [|h hs IH]; [done|].
  destruct (DecoratorHandler.detect h clazz decorators) as [r|] eqn:Hd.
  2:{ rewrite (answers_cons_None _ Hd). simpl. rewrite Hd. apply IH. }
  rewrite (answers_cons_Some _ Hd). simpl. rewrite Hd. intros _ Hcount.
  eexists. split; [done|].
  change ((h, r) :: answers clazz decorators hs)
    with ([(h, r)] ++ answers clazz decorators hs) in *.
  apply scanRecord_kept; simpl; try done.
  - rewrite nonWeak_cons. simpl. case_decide; [by left|by right].
  - rewrite nonWeak_cons. simpl. case_decide as Hw.
    + by rewrite !bool_decide_eq_true_2.
    + by rewrite !bool_decide_eq_false_2.
  - rewrite primaries_cons. simpl. case_decide as Hp.
    + by rewrite !bool_decide_eq_true_2.
    + rewrite (bool_decide_eq_false_2 _ Hp). symmetry.
      apply bool_decide_eq_false. intros H'. by apply H'.
Qed.

(** [Map.set] on a key the map has keeps the order of the keys; on a new
    key it puts the key last. *)
Lemma JsMap_keys_set {K V} `{EqDecision K} (m : JsMap.t K V) k v :
  JsMap.keys (JsMap.set k v m) =
  if JsMap.has k m then JsMap.keys m else JsMap.keys m ++ [k].
Proof.
  unfold JsMap.has, JsMap.keys. induction m as [|[k' v'] m IH]; simpl; [done|].
  destruct (decide (k = k')) as [->|Hne]; simpl; [done|].
  rewrite IH. by destruct (JsMap.get k m).
Qed.

Lemma JsMap_set_id {K V} `{EqDecision K} (m : JsMap.t K V) k v :
  JsMap.get k m = Some v → JsMap.set k v m = m.
Proof.
  induction m as [|[k' v'] m IH]; simpl; [done|].
  destruct (decide (k = k')) as [->|Hne].
  - by intros [= ->].
  - intros H. by rewrite IH.
Qed.

Lemma indexClass_id clazz index s :
  JsMap.get (getSourceFile clazz) index = Some s → clazz ∈ s →
  indexClass clazz index = index.
Proof.
  intros Hs Hin. unfold indexClass, JsMap.has. rewrite Hs. simpl.
  apply JsMap_set_id. rewrite Hs. f_equal. unfold JsSet.add, JsSet.has.
  by rewrite bool_decide_eq_true_2.
Qed.

(** X1.  [scanClassForTraits] returns [null] exactly when the class is not
    looked at (it is not exported, and classes that are not exported are
    not compiled) or when the [detect] of every handler of the registry
    returns [undefined] for it; and then nothing of the compiler has
    changed: no record, no entry in the maps. *)
Theorem scan_returns_null (clazz : Declaration) (c : TraitCompiler) :
  ((scanClassForTraits clazz c).1 = Normal None ↔
   eligible c clazz = false ∨
   ∀ handler, handler ∈ handlers c →
     DecoratorHandler.detect handler clazz (reflector c clazz) = None) ∧
  ((scanClassForTraits clazz c).1 = Normal None →
   (scanClassForTraits clazz c).2 = c).
Proof.
  rewrite scanClassForTraits_run.
  destruct (eligible c clazz) eqn:Helig.
  - destruct (scanFirst clazz (reflector c clazz) (handlers c)) as [rec|] eqn:Hscan.
    + simpl. split; [|done]. split; [done|]. intros [|Hnone]; [done|].
      apply answers_nil, scanFirst_None in Hnone. congruence.
    + simpl. split; [|done]. split; [|done]. intros _. right.
      by apply answers_nil, scanFirst_None.
  - simpl. split; [|done]. split; [by left|done].
Qed.

(** X2.  When at most one PRIMARY handler answers for a class that is
    looked at, the record of the class has no diagnostic and its traits
    are the PENDING traits of the handlers that answered, in the order of
    the registry and each with what its [detect] returned: of all of them
    when they are all WEAK, and otherwise of those that are not WEAK. *)
Theorem scan_traits_in_registry_order (clazz : Declaration) (c : TraitCompiler) :
  let ms := answers clazz (reflector c clazz) (handlers c) in
  eligible c clazz = true →
  ms ≠ [] →
  (List.length (primaries ms) ≤ 1)%nat →
  ∃ p rec,
    (scanClassForTraits clazz c).1 = Normal (Some p) ∧
    recordOf (scanClassForTraits clazz c).2 clazz = Some rec ∧
    ClassRecord.metaDiagnostics rec = None ∧
    ClassRecord.traits rec =
      pendingTraits (if decide (nonWeak ms = []) then ms else nonWeak ms) ∧
    ClassRecord.hasWeakHandlers rec = bool_decide (nonWeak ms = []).
Proof.
  intros ms Helig Hne Hcount. rewrite scanClassForTraits_run, Helig.
  destruct (scanFirst_kept clazz (reflector c clazz) (handlers c) Hne Hcount)
    as (rec & -> & Htraits & Hmeta & Hweak).
  exists (List.length (heap c)), rec. simpl. split_and!; try done.
  unfold recordOf. simpl. rewrite JsMap_get_set_eq. simpl.
  by apply list_lookup_middle.
Qed.

(** X3.  Matching a class that already has a record (its file is analysed
    again) gives it a new record: the class keeps its one entry, at the
    same place, in the record map and in the index of its file, the entry
    of the map now leads to the new record, and every record that existed
    before, the old one of the class included, is left as it was. *)
Theorem scan_again_replaces_record (clazz : Declaration) (c : TraitCompiler)
    (p0 : ref) (s : JsSet.t Declaration) :
  JsMap.get clazz (classes c) = Some p0 →
  JsMap.get (getSourceFile clazz) (fileToClasses c) = Some s → clazz ∈ s →
  eligible c clazz = true →
  (∃ handler, handler ∈ handlers c ∧ matches c clazz handler) →
  let c' := (scanClassForTraits clazz c).2 in
  (scanClassForTraits clazz c).1 = Normal (Some (List.length (heap c))) ∧
  JsMap.get clazz (classes c') = Some (List.length (heap c)) ∧
  JsMap.keys (classes c') = JsMap.keys (classes c) ∧
  fileToClasses c' = fileToClasses c ∧
  (∀ d, d ≠ clazz → JsMap.get d (classes c') = JsMap.get d (classes c)) ∧
  (∀ q rec, heap c !! q = Some rec → heap c' !! q = Some rec).
Proof.
  intros Hp0 Hs Hin Helig (handler & Hh & [r Hr]).
  rewrite scanClassForTraits_run, Helig.
  destruct (scanFirst clazz (reflector c clazz) (handlers c)) as [rec|] eqn:Hscan.
  2:{ apply scanFirst_None in Hscan.
      pose proof (proj1 (answers_nil _ _ _) Hscan handler Hh). congruence. }
  simpl. split_and!.
  - done.
  - apply JsMap_get_set_eq.
  - rewrite JsMap_keys_set. unfold JsMap.has. by rewrite Hp0.
  - by eapply indexClass_id.
  - intros d Hd. by apply JsMap_get_set_ne.
  - intros q rec' Hq. by apply lookup_app_l_Some.
Qed.

(** ** What a computation leaves in place *)

(** A computation all of whose runs take the compiler to a state related
    to the one it started from, whether it returns or throws. *)
Definition stepsIn {A} (R : relation TraitCompiler) (m : M A) : Prop :=
  ∀ c, R c (m c).2.

Section StepsIn.
Context (R : relation TraitCompiler) `{!PreOrder R}.

Lemma stepsIn_ret {A} (a : A) : stepsIn R (ret a).
Proof. intros c. reflexivity. Qed.

Lemma stepsIn_throw {A} e : stepsIn R (throw (A:=A) e).
Proof. intros c. reflexivity. Qed.

Lemma stepsIn_TypeError {A} : stepsIn R (TypeError (A:=A)).
Proof. intros c. reflexivity. Qed.

Lemma stepsIn_gets {A} (f : TraitCompiler → A) : stepsIn R (gets f).
Proof. intros c. reflexivity. Qed.

Lemma stepsIn_bind {A B} (m : M A) (k : A → M B) :
  stepsIn R m → (∀ a, stepsIn R (k a)) → stepsIn R (bind m k).
Proof.
  intros Hm Hk c. unfold bind. specialize (Hm c).
  destruct (m c) as [[a|e] c1]; simpl in *; [|done].
  etrans; [exact Hm|apply Hk].
Qed.

Lemma stepsIn_modify f : (∀ c, R c (f c)) → stepsIn R (modify f).
Proof. intros H c. apply H. Qed.

Lemma stepsIn_deref p : stepsIn R (deref p).
Proof.
  apply stepsIn_bind; [apply stepsIn_gets|]. intros h.
  destruct (h !! p); [apply stepsIn_ret|apply stepsIn_TypeError].
Qed.

Lemma stepsIn_alloc r :
  (∀ c, R c (set_heap (λ h, h ++ [r]) c)) → stepsIn R (alloc r).
Proof. intros H c. apply H. Qed.

Lemma stepsIn_perf_start name node :
  (∀ f c, R c (set_perf f c)) → stepsIn R (perf_start name node).
Proof. intros H c. apply H. Qed.

Lemma stepsIn_perf_stop span :
  (∀ f c, R c (set_perf f c)) → stepsIn R (perf_stop span).
Proof. intros H c. apply H. Qed.

(** The loops repeat what their bodies do. *)
Lemma analyzeTraits_stepsIn clazz p positions :
  (∀ i, stepsIn R (analyzeTrait clazz p i)) →
  stepsIn R (analyzeTraits clazz p positions).
Proof.
  intros H. induction positions as [|i rest IH]; simpl.
  - apply stepsIn_ret.
  - apply stepsIn_bind; [apply H|by intros _].
Qed.

Lemma analyzeClass_stepsIn clazz :
  stepsIn R (scanClassForTraits clazz) →
  (∀ p i, stepsIn R (analyzeTrait clazz p i)) →
  stepsIn R (analyzeClass clazz).
Proof.
  intros Hscan Htrait. apply stepsIn_bind; [done|]. intros [p|].
  - apply stepsIn_bind; [apply stepsIn_deref|]. intros rec.
    by apply analyzeTraits_stepsIn.
  - apply stepsIn_ret.
Qed.

Lemma visit_stepsIn nodes :
  (∀ clazz, clazz ∈ nodes → stepsIn R (analyzeClass clazz)) →
  stepsIn R (visit nodes).
Proof.
  intros H. induction nodes as [|node rest IH]; simpl.
  - apply stepsIn_ret.
  - apply stepsIn_bind.
    + destruct (isNamedClassDeclaration node); [|apply stepsIn_ret].
      apply H. by left.
    + intros _. apply IH. intros clazz Hin. apply H. by right.
Qed.

Lemma analyzeSync_stepsIn sf nodes :
  (∀ clazz, clazz ∈ nodes → stepsIn R (scanClassForTraits clazz)) →
  (∀ clazz p i, clazz ∈ nodes → stepsIn R (analyzeTrait clazz p i)) →
  (∀ f c, R c (set_dtsTransforms f c)) →
  stepsIn R (analyzeSync sf nodes).
Proof.
  intros Hscan Htrait Hdts. apply stepsIn_bind.
  - apply visit_stepsIn. intros clazz Hin.
    apply analyzeClass_stepsIn; [by apply Hscan|].
    intros p i. by apply Htrait.
  - intros _. apply stepsIn_bind; [apply stepsIn_gets|]. intros rs.
    apply stepsIn_modify. intros c. apply Hdts.
Qed.

Lemma resolveTraits_stepsIn clazz p positions :
  (∀ i, stepsIn R (resolveTrait clazz p i)) →
  stepsIn R (resolveTraits clazz p positions).
Proof.
  intros H. induction positions as [|i rest IH]; simpl.
  - apply stepsIn_ret.
  - apply stepsIn_bind; [apply H|by intros _].
Qed.

Lemma resolveClass_stepsIn clazz :
  (∀ p i, stepsIn R (resolveTrait clazz p i)) →
  stepsIn R (resolveClass clazz).
Proof.
  intros H. apply stepsIn_bind; [apply stepsIn_gets|]. intros [p|].
  - apply stepsIn_bind; [apply stepsIn_deref|]. intros rec.
    by apply resolveTraits_stepsIn.
  - apply stepsIn_TypeError.
Qed.

Lemma resolveClasses_stepsIn keys :
  (∀ clazz p i, stepsIn R (resolveTrait clazz p i)) →
  stepsIn R (resolveClasses keys).
Proof.
  intros H. induction keys as [|clazz rest IH]; simpl.
  - apply stepsIn_ret.
  - apply stepsIn_bind; [by apply resolveClass_stepsIn|by intros _].
Qed.

Lemma recordDirectives_stepsIn deps file directives :
  (∀ f c, R c (set_incrementalDriver f c)) →
  stepsIn R (recordDirectives deps file directives).
Proof.
  intros H. induction directives as [|directive rest IH]; simpl.
  - apply stepsIn_ret.
  - apply stepsIn_bind; [apply stepsIn_modify; intros c; apply H|]. intros _.
    apply stepsIn_bind; [|by intros _].
    destruct (ScopeMember.isComponent directive);
      [apply stepsIn_modify; intros c; apply H|apply stepsIn_ret].
Qed.

Lemma recordPipes_stepsIn file pipes :
  (∀ f c, R c (set_incrementalDriver f c)) →
  stepsIn R (recordPipes file pipes).
Proof.
  intros H. induction pipes as [|pipe rest IH]; simpl.
  - apply stepsIn_ret.
  - apply stepsIn_bind; [apply stepsIn_modify; intros c; apply H|by intros _].
Qed.

Lemma recordScopes_stepsIn scopes :
  (∀ f c, R c (set_incrementalDriver f c)) →
  stepsIn R (recordScopes scopes).
Proof.
  intros H. induction scopes as [|scope rest IH]; simpl.
  - apply stepsIn_ret.
  - apply stepsIn_bind; [|by intros _]. unfold recordScope.
    apply stepsIn_bind; [apply stepsIn_gets|]. intros deps.
    apply stepsIn_bind; [apply stepsIn_modify; intros c; apply H|]. intros _.
    apply stepsIn_bind; [apply stepsIn_modify; intros c; apply H|]. intros _.
    apply stepsIn_bind; [by apply recordDirectives_stepsIn|]. intros _.
    by apply recordPipes_stepsIn.
Qed.

Lemma recordNgModuleScopeDependencies_stepsIn :
  (∀ f c, R c (set_incrementalDriver f c)) →
  (∀ f c, R c (set_perf f c)) →
  stepsIn R recordNgModuleScopeDependencies.
Proof.
  intros Hinc Hperf. apply stepsIn_bind; [by apply stepsIn_perf_start|].
  intros span. apply stepsIn_bind; [apply stepsIn_gets|]. intros scopes.
  apply stepsIn_bind; [by apply recordScopes_stepsIn|]. intros _.
  by apply stepsIn_perf_stop.
Qed.

Lemma resolve_stepsIn :
  (∀ clazz p i, stepsIn R (resolveTrait clazz p i)) →
  (∀ f c, R c (set_incrementalDriver f c)) →
  (∀ f c, R c (set_perf f c)) →
  stepsIn R resolve.
Proof.
  intros Htrait Hinc Hperf. apply stepsIn_bind; [apply stepsIn_gets|].
  intros keys. apply stepsIn_bind; [by apply resolveClasses_stepsIn|].
  intros _. by apply recordNgModuleScopeDependencies_stepsIn.
Qed.

Lemma writeReexports_stepsIn file reexports :
  (∀ f c, R c (set_reexportMap f c)) →
  stepsIn R (writeReexports file reexports).
Proof.
  intros H. induction reexports as [|reexport rest IH]; simpl.
  - apply stepsIn_ret.
  - apply stepsIn_bind; [|by intros _]. unfold fileReexports_set.
    apply stepsIn_bind; [apply stepsIn_gets|]. intros [m|].
    + apply stepsIn_modify. intros c. apply H.
    + apply stepsIn_TypeError.
Qed.

Lemma recordReexports_stepsIn clazz result :
  (∀ f c, R c (set_reexportMap f c)) →
  stepsIn R (recordReexports clazz result).
Proof.
  intros H. unfold recordReexports.
  destruct (ResolveResult.reexports result); [|apply stepsIn_ret].
  apply stepsIn_bind; [apply stepsIn_gets|]. intros known.
  apply stepsIn_bind; [|intros _; by apply writeReexports_stepsIn].
  destruct (negb known); [apply stepsIn_modify; intros c; apply H|].
  apply stepsIn_ret.
Qed.

(** The two passes touch a trait only through its transitions. *)
Lemma resolveTrait_stepsIn clazz p i :
  (∀ f c, R c (set_heap (alter (ClassRecord.set_traits (alter f i)) p) c)) →
  (∀ f c, R c (set_reexportMap f c)) →
  stepsIn R (resolveTrait clazz p i).
Proof.
  intros Hheap Hre. unfold resolveTrait.
  assert (Hmut : ∀ f, stepsIn R (mutateTrait p i f)).
  { intros f c. apply Hheap. }
  apply stepsIn_bind; [apply stepsIn_deref|]. intros rec.
  destruct (ClassRecord.traits rec !! i) as [trait|]; [|apply stepsIn_TypeError].
  destruct (Trait.state trait);
    try apply stepsIn_ret; try apply stepsIn_throw.
  destruct (DecoratorHandler.resolve (Trait.handler trait)) as [f|];
    [|apply Hmut].
  destruct (f clazz (Trait.analysis trait)) as [result|[msg|d|v]];
    try apply stepsIn_throw; [|apply Hmut].
  apply stepsIn_bind; [|intros _; by apply recordReexports_stepsIn].
  destruct (ResolveResult.diagnostics result); [apply Hmut|].
  destruct (ResolveResult.data result); apply Hmut.
Qed.

Lemma analyzeTrait_stepsIn clazz p i :
  (∀ f c, R c (set_heap (alter (ClassRecord.set_traits (alter f i)) p) c)) →
  (∀ m s symbol c,
     sourceToFactorySymbols c = Some m →
     JsMap.get (fileName (getSourceFile clazz)) m = Some s →
     R c (set_sourceToFactorySymbols
            (λ _, Some (JsMap.set (fileName (getSourceFile clazz))
                          (JsSet.add symbol s) m)) c)) →
  stepsIn R (analyzeTrait clazz p i).
Proof.
  intros Hheap Hsym. unfold analyzeTrait.
  assert (Hmut : ∀ f, stepsIn R (mutateTrait p i f)).
  { intros f c. apply Hheap. }
  apply stepsIn_bind; [apply stepsIn_deref|]. intros rec.
  destruct (ClassRecord.traits rec !! i) as [trait|]; [|apply stepsIn_TypeError].
  case_bool_decide; [apply stepsIn_throw|].
  destruct (DecoratorHandler.analyze _ _ _) as [result|[msg|d|v]];
    try apply stepsIn_throw; [|apply Hmut].
  destruct (AnalysisOutput.diagnostics result); [apply Hmut|].
  destruct (AnalysisOutput.analysis result) as [a|]; [|apply Hmut].
  apply stepsIn_bind; [apply Hmut|]. intros _.
  intros c. unfold bind, gets. simpl.
  destruct (AnalysisOutput.factorySymbolName result) as [symbol|];
    [|reflexivity].
  destruct (sourceToFactorySymbols c) as [m|] eqn:Hm; [|reflexivity].
  unfold JsMap.has.
  destruct (JsMap.get (fileName (getSourceFile clazz)) m) as [s|] eqn:Hs;
    [|reflexivity].
  unfold factorySymbols_add, bind, gets. simpl. rewrite Hm, Hs. simpl.
  by apply Hsym.
Qed.

Lemma compileTraits_stepsIn clazz original traits :
  (∀ f c, R c (set_perf f c)) →
  ∀ res pool, stepsIn R (compileTraits clazz original traits res pool).
Proof.
  intros Hperf. induction traits as [|trait rest IH]; intros res pool; simpl.
  - apply stepsIn_ret.
  - case_bool_decide; [apply IH|].
    apply stepsIn_bind; [by apply stepsIn_perf_start|]. intros span.
    destruct (DecoratorHandler.compile _ _ _ _ _) as [out pool'].
    apply stepsIn_bind; [by apply stepsIn_perf_stop|]. intros _.
    destruct out as [result|results]; [|apply IH].
    destruct (negb _); apply IH.
Qed.

Lemma compile_stepsIn clazz pool :
  (∀ f c, R c (set_perf f c)) →
  (∀ f c, R c (set_dtsTransforms f c)) →
  stepsIn R (compile clazz pool).
Proof.
  intros Hperf Hdts. unfold compile.
  apply stepsIn_bind; [apply stepsIn_gets|]. intros known.
  destruct (_ || _); [apply stepsIn_ret|].
  apply stepsIn_bind; [apply stepsIn_gets|]. intros [p|];
    [|apply stepsIn_TypeError].
  apply stepsIn_bind; [apply stepsIn_deref|]. intros rec.
  apply stepsIn_bind; [by apply compileTraits_stepsIn|]. intros out.
  apply stepsIn_bind; [|intros _; apply stepsIn_ret].
  apply stepsIn_modify. intros c. apply Hdts.
Qed.
End StepsIn.

(** ** The parameters of the compiler *)

(** The constructor parameters that no method assigns. *)
Definition sameConfig (c c' : TraitCompiler) : Prop :=
  handlers c' = handlers c ∧ reflector c' = reflector c ∧
  compileNonExportedClasses c' = compileNonExportedClasses c ∧
  scopeRegistry c' = scopeRegistry c ∧ mwpScanner c' = mwpScanner c.

Global Instance sameConfig_preorder : PreOrder sameConfig.
Proof.
  split.
  - by intros c.
  - intros c1 c2 c3 (?&?&?&?&?) (?&?&?&?&?). unfold sameConfig.
    split_and!; congruence.
Qed.

Lemma scanClassForTraits_sameConfig clazz :
  stepsIn sameConfig (scanClassForTraits clazz).
Proof.
  intros c. rewrite scanClassForTraits_run.
  destruct (eligible c clazz); [|done].
  by destruct (scanFirst _ _ _).
Qed.

Lemma analyzeSync_sameConfig sf nodes : stepsIn sameConfig (analyzeSync sf nodes).
Proof.
  apply analyzeSync_stepsIn; [apply _|..].
  - intros clazz _. apply scanClassForTraits_sameConfig.
  - intros clazz p i _. by apply analyzeTrait_stepsIn; [apply _|..].
  - done.
Qed.

Lemma analyzeClass_sameConfig clazz : stepsIn sameConfig (analyzeClass clazz).
Proof.
  apply analyzeClass_stepsIn; [apply _|..].
  - apply scanClassForTraits_sameConfig.
  - intros p i. by apply analyzeTrait_stepsIn; [apply _|..].
Qed.

Lemma visit_sameConfig nodes : stepsIn sameConfig (visit nodes).
Proof.
  apply visit_stepsIn; [apply _|]. intros clazz _.
  apply analyzeClass_sameConfig.
Qed.

(** ** The record map and its records *)

(** What holds of the record map of every compiler: a class is a key at
    most once, and the record its entry leads to is a record of that
    class. *)
Definition wellFormed (c : TraitCompiler) : Prop :=
  NoDup (JsMap.keys (classes c)) ∧
  ∀ clazz p, JsMap.get clazz (classes c) = Some p →
    ClassRecord.node <$> heap c !! p = Some clazz.

(** The record map is the same and every record is still the record of
    the class it was a record of. *)
Definition sameRecords (c c' : TraitCompiler) : Prop :=
  classes c' = classes c ∧
  ∀ p, ClassRecord.node <$> heap c' !! p = ClassRecord.node <$> heap c !! p.

Global Instance sameRecords_preorder : PreOrder sameRecords.
Proof.
  split.
  - by intros c.
  - intros c1 c2 c3 [H1 H1'] [H2 H2']. split; [congruence|].
    intros p. by rewrite H2', H1'.
Qed.

Definition keepsWellFormed (c c' : TraitCompiler) : Prop :=
  wellFormed c → wellFormed c'.

Global Instance keepsWellFormed_preorder : PreOrder keepsWellFormed.
Proof.
  split.
  - intros c H. exact H.
  - intros c1 c2 c3 H1 H2 H. by apply H2, H1.
Qed.

Lemma sameRecords_wellFormed c c' :
  sameRecords c c' → wellFormed c → wellFormed c'.
Proof.
  intros [Hc Hn] [Hdup Hnode]. split; [by rewrite Hc|].
  intros clazz p. rewrite Hc, Hn. apply Hnode.
Qed.

Lemma sameRecords_transition f i p c :
  sameRecords c (set_heap (alter (ClassRecord.set_traits (alter f i)) p) c).
Proof.
  split; [done|]. intros q. simpl.
  destruct (decide (p = q)) as [<-|Hne].
  - rewrite list_lookup_alter_eq. by destruct (heap c !! p).
  - by rewrite list_lookup_alter_ne.
Qed.

Lemma analyzeTrait_sameRecords clazz p i :
  stepsIn sameRecords (analyzeTrait clazz p i).
Proof.
  apply analyzeTrait_stepsIn; [apply _|..].
  - intros f c. apply sameRecords_transition.
  - done.
Qed.

Lemma analyzeTraits_sameRecords clazz p positions :
  stepsIn sameRecords (analyzeTraits clazz p positions).
Proof.
  apply analyzeTraits_stepsIn; [apply _|]. intros i.
  apply analyzeTrait_sameRecords.
Qed.

Lemma resolveTrait_sameRecords clazz p i :
  stepsIn sameRecords (resolveTrait clazz p i).
Proof.
  apply resolveTrait_stepsIn; [apply _|..].
  - intros f c. apply sameRecords_transition.
  - done.
Qed.

Lemma resolve_sameRecords : stepsIn sameRecords resolve.
Proof.
  apply resolve_stepsIn; [apply _|..]; try done.
  intros clazz p i. apply resolveTrait_sameRecords.
Qed.

Lemma compile_sameRecords clazz pool : stepsIn sameRecords (compile clazz pool).
Proof. by apply compile_stepsIn; [apply _|..]. Qed.

Lemma JsMap_has_keys {K V} `{EqDecision K} (m : JsMap.t K V) k :
  JsMap.has k m = true ↔ k ∈ JsMap.keys m.
Proof.
  unfold JsMap.has, JsMap.keys. induction m as [|[k' v'] m IH]; simpl.
  - split; [done|]. by intros ?%elem_of_nil.
  - destruct (decide (k = k')) as [->|Hne].
    + split; [|done]. intros _. by left.
    + rewrite IH. split; [by right|].
      by intros [?|?]%elem_of_cons.
Qed.

Lemma registered_wellFormed clazz rec c :
  ClassRecord.node rec = clazz →
  wellFormed c → wellFormed (registered clazz rec c).
Proof.
  intros Hnode [Hdup Hrec]. split; simpl.
  - rewrite JsMap_keys_set. destruct (JsMap.has clazz (classes c)) eqn:Hhas;
      [done|].
    apply NoDup_app. split_and!; [done| |apply NoDup_singleton].
    intros k Hk ->%list_elem_of_singleton.
    apply JsMap_has_keys in Hk. congruence.
  - intros d p. destruct (decide (clazz = d)) as [<-|Hne].
    + rewrite JsMap_get_set_eq. intros [= <-].
      rewrite list_lookup_middle by done. simpl. by f_equal.
    + rewrite JsMap_get_set_ne by done. intros Hd.
      specialize (Hrec _ _ Hd).
      destruct (heap c !! p) as [r|] eqn:Hp; [|done].
      by rewrite (lookup_app_l_Some _ _ _ _ Hp).
Qed.

Lemma scanFirst_node clazz decorators hs rec :
  scanFirst clazz decorators hs = Some rec → ClassRecord.node rec = clazz.
Proof.
  induction hs as [|h hs IH]; simpl; [done|].
  destruct (DecoratorHandler.detect h clazz decorators); [|done].
  intros [= <-]. by rewrite scanRecord_node.
Qed.

Lemma scanClassForTraits_wellFormed clazz :
  stepsIn keepsWellFormed (scanClassForTraits clazz).
Proof.
  intros c Hwf. rewrite scanClassForTraits_run.
  destruct (eligible c clazz); [|done].
  destruct (scanFirst _ _ _) as [rec|] eqn:Hscan; [|done].
  apply registered_wellFormed; [|done]. by eapply scanFirst_node.
Qed.

Lemma sameRecords_keepsWellFormed {A} (m : M A) :
  stepsIn sameRecords m → stepsIn keepsWellFormed m.
Proof. intros H c Hwf. eapply sameRecords_wellFormed; [apply H|done]. Qed.

Lemma analyzeClass_wellFormed clazz : stepsIn keepsWellFormed (analyzeClass clazz).
Proof.
  apply analyzeClass_stepsIn; [apply _|..].
  - apply scanClassForTraits_wellFormed.
  - intros p i. apply sameRecords_keepsWellFormed, analyzeTrait_sameRecords.
Qed.

Lemma analyzeSync_wellFormed sf nodes :
  stepsIn keepsWellFormed (analyzeSync sf nodes).
Proof.
  apply analyzeSync_stepsIn; [apply _|..].
  - intros clazz _. apply scanClassForTraits_wellFormed.
  - intros clazz p i _.
    apply sameRecords_keepsWellFormed, analyzeTrait_sameRecords.
  - intros f c Hwf. by eapply sameRecords_wellFormed.
Qed.

(** ** Analysis *)

(** A trait as the matching loop makes it: PENDING, of a handler of the
    registry, with what the [detect] of that handler returned. *)
Definition fromRegistry (clazz : Declaration)
    (decorators : option (list Decorator)) (hs : list DecoratorHandler.t)
    (t : Trait.t) : Prop :=
  Trait.state t = PENDING ∧ Trait.handler t ∈ hs ∧
  DecoratorHandler.detect (Trait.handler t) clazz decorators =
    Some (Trait.detected t).

Lemma scanRecord_fromRegistry clazz decorators all hs : ∀ rec,
  (∀ h, h ∈ hs → h ∈ all) →
  Forall (fromRegistry clazz decorators all) (ClassRecord.traits rec) →
  Forall (fromRegistry clazz decorators all)
    (ClassRecord.traits (scanRecord clazz decorators hs rec)).
Proof.
  induction hs as [|h hs IH]; intros rec Hsub Hall; simpl; [done|].
  assert (Hsub' : ∀ h', h' ∈ hs → h' ∈ all).
  { intros h' Hin. apply Hsub. by right. }
  destruct (DecoratorHandler.detect h clazz decorators) as [r|] eqn:Hd;
    [|by apply IH].
  assert (Hnew : fromRegistry clazz decorators all (Trait.pending h r)).
  { split_and!; simpl; [done| |done]. apply Hsub. by left. }
  assert (Hfilter : Forall (fromRegistry clazz decorators all)
            (filter (λ field, Trait.precedence field ≠ WEAK)
               (ClassRecord.traits rec))).
  { apply Forall_forall. intros t [_ Ht]%list_elem_of_filter.
    by eapply Forall_forall in Hall. }
  unfold nextMatch, checkPrimaryRecord.
  repeat case_match; simplify_eq; simpl; try apply IH; simpl; try done.
  all: apply Forall_app; split; [done|by apply Forall_singleton].
Qed.

Lemma scanFirst_fromRegistry clazz decorators all hs rec :
  (∀ h, h ∈ hs → h ∈ all) →
  scanFirst clazz decorators hs = Some rec →
  Forall (fromRegistry clazz decorators all) (ClassRecord.traits rec).
Proof.
  induction hs as [|h hs IH]; intros Hsub; simpl; [done|].
  assert (Hsub' : ∀ h', h' ∈ hs → h' ∈ all).
  { intros h' Hin. apply Hsub. by right. }
  destruct (DecoratorHandler.detect h clazz decorators) as [r|] eqn:Hd;
    [|by apply IH].
  intros [= <-]. apply scanRecord_fromRegistry; [done|]. simpl.
  apply Forall_singleton. split_and!; simpl; [done| |done].
  apply Hsub. by left.
Qed.

Lemma traitAt_inv c p i t :
  traitAt c p i = Some t →
  ∃ rec, heap c !! p = Some rec ∧ ClassRecord.traits rec !! i = Some t.
Proof.
  unfold traitAt. destruct (heap c !! p) as [rec|]; simpl; [|done].
  intros H. by exists rec.
Qed.

(** What the analysis of a file name's class does to the factory symbols
    (lines 265-269). *)
Definition noteFactorySymbol (clazz : Declaration) (name : option string)
    (symbols : option (JsMap.t string (JsSet.t string)))
    : option (JsMap.t string (JsSet.t string)) :=
  match name, symbols with
  | Some symbol, Some m =>
    match JsMap.get (fileName (getSourceFile clazz)) m with
    | Some s =>
      Some (JsMap.set (fileName (getSourceFile clazz)) (JsSet.add symbol s) m)
    | None => Some m
    end
  | _, _ => symbols
  end.

Lemma set_sourceToFactorySymbols_id c :
  set_sourceToFactorySymbols (λ _, sourceToFactorySymbols c) c = c.
Proof. by destruct c. Qed.

Lemma analyzeTrait_analysed_run clazz p i c t result a :
  traitAt c p i = Some t → Trait.state t = PENDING →
  DecoratorHandler.analyze (Trait.handler t) clazz
    (DetectResult.metadata (Trait.detected t)) = Returns result →
  AnalysisOutput.diagnostics result = None →
  AnalysisOutput.analysis result = Some a →
  analyzeTrait clazz p i c =
  (Normal tt,
   set_sourceToFactorySymbols
     (λ _, noteFactorySymbol clazz (AnalysisOutput.factorySymbolName result)
             (sourceToFactorySymbols c))
     (set_heap (alter (ClassRecord.set_traits (alter (Trait.toAnalyzed a) i)) p)
        c)).
Proof.
  intros (rec & Hp & Hi)%traitAt_inv Hstate Hres Hdiag Han.
  unfold analyzeTrait. erewrite bind_normal by by apply deref_run.
  rewrite Hi, bool_decide_eq_false_2 by (intros H; by apply H).
  rewrite Hres, Hdiag, Han.
  unfold bind at 1. rewrite mutateTrait_run.
  destruct c. unfold bind, gets, noteFactorySymbol, JsMap.has,
    factorySymbols_add, bind, gets, modify, ret, TypeError, throw,
    set_sourceToFactorySymbols, set_heap; simpl in *.
  repeat (case_match; simpl in *; simplify_eq); try done; congruence.
Qed.

(** What [analyzeTrait] does to a PENDING trait, by what the [analyze] of
    its handler does. *)
Lemma analyzeTrait_pending clazz p i c t :
  traitAt c p i = Some t → Trait.state t = PENDING →
  match DecoratorHandler.analyze (Trait.handler t) clazz
          (DetectResult.metadata (Trait.detected t)) with
  | Throws (FatalDiagnosticError d) =>
    (analyzeTrait clazz p i c).1 = Normal tt ∧
    traitAt (analyzeTrait clazz p i c).2 p i = Some (Trait.toErrored [d] t)
  | Throws e => analyzeTrait clazz p i c = (Abrupt e, c)
  | Returns result =>
    (analyzeTrait clazz p i c).1 = Normal tt ∧
    traitAt (analyzeTrait clazz p i c).2 p i =
      Some (match AnalysisOutput.diagnostics result with
            | Some ds => Trait.toErrored ds t
            | None =>
              match AnalysisOutput.analysis result with
              | Some a => Trait.toAnalyzed a t
              | None => Trait.toSkipped t
              end
            end)
  end.
Proof.
  intros Ht Hstate.
  destruct (DecoratorHandler.analyze _ _ _) as [result|e] eqn:Hres.
  - destruct (AnalysisOutput.diagnostics result) as [ds|] eqn:Hdiag;
      [|destruct (AnalysisOutput.analysis result) as [a|] eqn:Han].
    + pose proof Ht as (rec & Hp & Hi)%traitAt_inv.
      unfold analyzeTrait. erewrite bind_normal by by apply deref_run.
      rewrite Hi, bool_decide_eq_false_2 by (intros H; by apply H).
      rewrite Hres, Hdiag. split; [done|].
      by rewrite traitAt_mutateTrait_eq, Ht.
    + rewrite (@analyzeTrait_analysed_run clazz p i c t result a Ht Hstate Hres Hdiag Han).
      split; [done|]. simpl.
      pose proof (traitAt_mutateTrait_eq p i (Trait.toAnalyzed a) c) as H.
      rewrite mutateTrait_run, Ht in H. exact H.
    + pose proof Ht as (rec & Hp & Hi)%traitAt_inv.
      unfold analyzeTrait. erewrite bind_normal by by apply deref_run.
      rewrite Hi, bool_decide_eq_false_2 by (intros H; by apply H).
      rewrite Hres, Hdiag, Han. split; [done|].
      by rewrite traitAt_mutateTrait_eq, Ht.
  - pose proof Ht as (rec & Hp & Hi)%traitAt_inv.
    unfold analyzeTrait. erewrite bind_normal by by apply deref_run.
    rewrite Hi, bool_decide_eq_false_2 by (intros H; by apply H).
    rewrite Hres. destruct e as [msg|d|v]; try done.
    split; [done|]. by rewrite traitAt_mutateTrait_eq, Ht.
Qed.

(** The states a trait can be in after its analysis. *)
Definition analysedState (s : TraitState) : Prop :=
  s = ANALYZED ∨ s = ERRORED ∨ s = SKIPPED.

(** The loop of [analyzeClass] over traits that are all PENDING. *)
Lemma analyzeTraits_pending clazz p positions : ∀ c,
  NoDup positions →
  (∀ i, i ∈ positions →
     ∃ t, traitAt c p i = Some t ∧ Trait.state t = PENDING) →
  (∀ p' i', p' ≠ p ∨ i' ∉ positions →
     traitAt (analyzeTraits clazz p positions c).2 p' i' = traitAt c p' i') ∧
  match (analyzeTraits clazz p positions c).1 with
  | Normal _ =>
    ∀ i, i ∈ positions →
      ∃ t, traitAt (analyzeTraits clazz p positions c).2 p i = Some t ∧
           analysedState (Trait.state t)
  | Abrupt e =>
    ∃ i t, i ∈ positions ∧ traitAt c p i = Some t ∧
           DecoratorHandler.analyze (Trait.handler t) clazz
             (DetectResult.metadata (Trait.detected t)) = Throws e ∧
           ∀ d, e ≠ FatalDiagnosticError d
  end.
Proof.
  induction positions as [|i rest IH]; intros c Hdup Hpending; simpl.
  - split; [done|]. intros i Hin. by apply elem_of_nil in Hin.
  - apply NoDup_cons in Hdup as [Hi Hdup].
    destruct (Hpending i ltac:(by left)) as (t & Ht & Hstate).
    pose proof (@analyzeTrait_pending clazz p i c _ Ht Hstate) as Hstep.
    assert (Hframe : ∀ p' i', (p', i') ≠ (p, i) →
              traitAt (analyzeTrait clazz p i c).2 p' i' = traitAt c p' i').
    { intros p' i' Hne. by apply analyzeTrait_frame. }
    unfold bind.
    destruct (analyzeTrait clazz p i c) as [[[]|e] c1] eqn:Hrun; simpl in *.
    + assert (Hrest : ∀ j, j ∈ rest →
                ∃ t', traitAt c1 p j = Some t' ∧ Trait.state t' = PENDING).
      { intros j Hj. destruct (Hpending j ltac:(by right)) as (t' & Ht' & Hs').
        exists t'. split; [|done]. rewrite Hframe; [done|].
        intros [= ->]. done. }
      destruct (IH c1 Hdup Hrest) as [Hothers Hout]. split.
      * intros p' i' Hne. rewrite Hothers.
        -- apply Hframe. intros [= -> ->]. destruct Hne as [Hne|Hne]; [done|].
           apply Hne. by left.
        -- destruct Hne as [Hne|Hne]; [by left|]. right. intros Hin.
           apply Hne. by right.
      * destruct (analyzeTraits clazz p rest c1) as [[[]|e] c2] eqn:Hrun';
          simpl in *.
        -- intros j [->|Hj]%elem_of_cons; [|by apply Hout].
           rewrite Hothers by by right.
           destruct (DecoratorHandler.analyze _ _ _) as [result|[msg|d|v]];
             try done.
           ++ destruct Hstep as [_ ->]. eexists. split; [done|].
              unfold analysedState.
              destruct (AnalysisOutput.diagnostics result);
                [|destruct (AnalysisOutput.analysis result)]; simpl; auto.
           ++ destruct Hstep as [_ ->]. eexists. split; [done|].
              unfold analysedState. simpl. auto.
        -- destruct Hout as (j & t' & Hj & Ht' & Hthrows).
           exists j, t'. split; [by right|]. split; [|done].
           rewrite <- Ht'. symmetry. apply Hframe. intros [= ->]. done.
    + split.
      * intros p' i' Hne. apply Hframe. intros [= -> ->].
        destruct Hne as [Hne|Hne]; [done|]. apply Hne. by left.
      * exists i, t. split; [by left|]. split; [done|].
        destruct (DecoratorHandler.analyze _ _ _) as [result|[msg|d|v]];
          try (by destruct Hstep).
        -- injection Hstep as -> _. by split.
        -- injection Hstep as -> _. by split.
Qed.

Lemma traitAt_registered_old clazz rec c p i :
  (p < List.length (heap c))%nat →
  traitAt (registered clazz rec c) p i = traitAt c p i.
Proof.
  intros Hp. unfold traitAt. simpl. by rewrite lookup_app_l.
Qed.

Lemma traitAt_registered_new clazz rec c i :
  traitAt (registered clazz rec c) (List.length (heap c)) i =
  ClassRecord.traits rec !! i.
Proof.
  unfold traitAt. simpl. by rewrite list_lookup_middle.
Qed.

Lemma wellFormed_lt c clazz p :
  wellFormed c → JsMap.get clazz (classes c) = Some p →
  (p < List.length (heap c))%nat.
Proof.
  intros [_ Hrec] Hp. specialize (Hrec _ _ Hp).
  destruct (heap c !! p) as [rec|] eqn:Hlook; [|done].
  by eapply lookup_lt_Some.
Qed.

(** What [analyzeClass] does, in full: either the class gets no record and
    nothing changes, or it gets a new record whose traits are then
    analysed in order. *)
Lemma analyzeClass_run clazz c :
  analyzeClass clazz c =
  if eligible c clazz
  then match scanFirst clazz (reflector c clazz) (handlers c) with
       | None => (Normal tt, c)
       | Some rec =>
         analyzeTraits clazz (List.length (heap c))
           (seq 0 (List.length (ClassRecord.traits rec)))
           (registered clazz rec c)
       end
  else (Normal tt, c).
Proof.
  unfold analyzeClass, bind. rewrite scanClassForTraits_run.
  destruct (eligible c clazz); [|done].
  destruct (scanFirst _ _ _) as [rec|]; [|done].
  pose proof (deref_run (List.length (heap c)) (registered clazz rec c)
                (registered_heap clazz rec c)) as Hd.
  unfold bind in Hd. by rewrite Hd.
Qed.

(** For the traits of a new record, the premises of [analyzeTraits_pending]. *)
Lemma registered_pending clazz rec c all :
  Forall (fromRegistry clazz (reflector c clazz) all) (ClassRecord.traits rec) →
  ∀ i, i ∈ seq 0 (List.length (ClassRecord.traits rec)) →
    ∃ t, traitAt (registered clazz rec c) (List.length (heap c)) i = Some t ∧
         Trait.state t = PENDING.
Proof.
  intros Hall i Hi. apply elem_of_seq in Hi as [_ Hi]. simpl in Hi.
  destruct (lookup_lt_is_Some_2 _ _ Hi) as [t Ht].
  exists t. rewrite traitAt_registered_new. split; [done|].
  eapply Forall_lookup_1 in Hall; [|done]. apply Hall.
Qed.

(** The states of the traits of the classes of the record map. *)
Definition traitStates (P : TraitState → Prop) (c : TraitCompiler) : Prop :=
  ∀ clazz p i t,
    JsMap.get clazz (classes c) = Some p → traitAt c p i = Some t →
    P (Trait.state t).

Lemma analyzeClass_analysed clazz c :
  wellFormed c → traitStates analysedState c →
  (analyzeClass clazz c).1 = Normal tt →
  traitStates analysedState (analyzeClass clazz c).2.
Proof.
  intros Hwf Hstates. rewrite analyzeClass_run.
  destruct (eligible c clazz); [|done].
  destruct (scanFirst _ _ _) as [rec|] eqn:Hscan; [|done].
  pose proof (@scanFirst_fromRegistry clazz (reflector c clazz) (handlers c)
                (handlers c) rec (λ h H, H) Hscan) as Hall.
  destruct (@analyzeTraits_pending clazz (List.length (heap c))
              (seq 0 (List.length (ClassRecord.traits rec)))
              (registered clazz rec c) (NoDup_seq _ _)
              (@registered_pending clazz rec c _ Hall)) as [Hothers Hout].
  pose proof (analyzeTraits_sameRecords clazz (List.length (heap c))
                (seq 0 (List.length (ClassRecord.traits rec)))
                (registered clazz rec c)) as [Hclasses _].
  destruct (analyzeTraits _ _ _ _) as [[[]|e] c'] eqn:Hrun; simpl in *; [|done].
  intros _ d p i t. rewrite Hclasses. simpl.
  destruct (decide (clazz = d)) as [<-|Hne].
  - rewrite JsMap_get_set_eq. intros [= <-] Ht.
    destruct (decide (i ∈ seq 0 (List.length (ClassRecord.traits rec))))
      as [Hi|Hi].
    + destruct (Hout i Hi) as (t' & Ht' & Hs). congruence.
    + rewrite Hothers in Ht by by right.
      rewrite traitAt_registered_new in Ht. exfalso. apply Hi.
      apply elem_of_seq. split; [lia|]. simpl. by eapply lookup_lt_Some.
  - rewrite JsMap_get_set_ne by done. intros Hd Ht.
    pose proof (@wellFormed_lt c d p Hwf Hd) as Hlt.
    rewrite Hothers in Ht by (left; lia).
    rewrite traitAt_registered_old in Ht by done.
    by eapply Hstates.
Qed.

Lemma traitStates_heap P c c' :
  classes c' = classes c → heap c' = heap c →
  traitStates P c → traitStates P c'.
Proof.
  intros Hc Hh H clazz p i t. rewrite Hc. unfold traitAt. rewrite Hh.
  apply H.
Qed.

Lemma visit_analysed nodes : ∀ c,
  wellFormed c → traitStates analysedState c →
  (visit nodes c).1 = Normal tt →
  traitStates analysedState (visit nodes c).2.
Proof.
  induction nodes as [|node rest IH]; intros c Hwf Hstates; simpl; [done|].
  unfold bind.
  destruct (isNamedClassDeclaration node).
  - pose proof (@analyzeClass_analysed node c Hwf Hstates) as Hstep.
    pose proof (@analyzeClass_wellFormed node c Hwf) as Hwf'.
    destruct (analyzeClass node c) as [[[]|e] c1]; simpl in *; [|done].
    apply IH; [done|by apply Hstep].
  - simpl. by apply IH.
Qed.

Lemma analyzeSync_run sf nodes c :
  analyzeSync sf nodes c =
  match visit nodes c with
  | (Normal _, c1) =>
    (Normal tt,
     set_dtsTransforms
       (λ d, d ++ map (λ nt, DtsTransformRegistry.addTypeReplacement sf nt.1 nt.2)
                    (mwpScanner c1 sf)) c1)
  | (Abrupt e, c1) => (Abrupt e, c1)
  end.
Proof.
  unfold analyzeSync, bind. by destruct (visit nodes c) as [[[]|e] c1].
Qed.

(** X4.  On a PENDING trait whose handler's [analyze] returns, the call
    returns and the trait is: ERRORED with the diagnostics of the output
    when it has some, whether or not it has an analysis too; ANALYZED with
    the analysis when it has one and no diagnostics; SKIPPED when it has
    neither.  In each case the trait keeps its handler and its detection
    result, no other trait changes, and the record map is left alone. *)
Theorem analyzeTrait_outcome (clazz : Declaration) (p : ref) (i : nat)
    (c : TraitCompiler) (trait : Trait.t) (result : AnalysisOutput.t) :
  traitAt c p i = Some trait →
  Trait.state trait = PENDING →
  DecoratorHandler.analyze (Trait.handler trait) clazz
    (DetectResult.metadata (Trait.detected trait)) = Returns result →
  let c' := (analyzeTrait clazz p i c).2 in
  (analyzeTrait clazz p i c).1 = Normal tt ∧
  (∃ trait',
     traitAt c' p i = Some trait' ∧
     Trait.handler trait' = Trait.handler trait ∧
     Trait.detected trait' = Trait.detected trait ∧
     (∀ ds, AnalysisOutput.diagnostics result = Some ds →
        Trait.state trait' = ERRORED ∧ Trait.diagnostics trait' = Some ds) ∧
     (∀ a, AnalysisOutput.diagnostics result = None →
        AnalysisOutput.analysis result = Some a →
        Trait.state trait' = ANALYZED ∧ Trait.analysis trait' = Some a) ∧
     (AnalysisOutput.diagnostics result = None →
      AnalysisOutput.analysis result = None →
      Trait.state trait' = SKIPPED)) ∧
  (∀ p' i', (p', i') ≠ (p, i) → traitAt c' p' i' = traitAt c p' i') ∧
  classes c' = classes c ∧ fileToClasses c' = fileToClasses c.
Proof.
  intros Ht Hstate Hres c'.
  pose proof (@analyzeTrait_pending clazz p i c _ Ht Hstate) as Hstep.
  rewrite Hres in Hstep. destruct Hstep as [Hret Hnew].
  split; [done|]. split; [|split; [|split]].
  - eexists. split; [exact Hnew|].
    destruct (AnalysisOutput.diagnostics result) as [ds|];
      [|destruct (AnalysisOutput.analysis result) as [a|]]; simpl.
    all: split_and!; try done; intros; by simplify_eq.
  - intros p' i' Hne. by apply analyzeTrait_frame.
  - apply (@analyzeTrait_sameRecords clazz p i c).
  - assert (H : stepsIn (λ c c', fileToClasses c' = fileToClasses c)
                  (analyzeTrait clazz p i)).
    { apply analyzeTrait_stepsIn; [|done..].
      split; [by intros ?|]. intros c1 c2 c3 H1 H2. congruence. }
    apply H.
Qed.

(** X5.  When the analysis of a file throws, what is thrown is what the
    [analyze] of a handler threw, and it is not a [FatalDiagnosticError]:
    the handler is one of the registry, it answered for a class of the
    file, and it was given the metadata of its own answer.  The pass
    itself raises no error of its own. *)
Theorem analyzeSync_throws_only_handler_errors (sf : SourceFile)
    (nodes : list Declaration) (c : TraitCompiler) (e : Thrown) :
  (analyzeSync sf nodes c).1 = Abrupt e →
  ∃ clazz handler result,
    clazz ∈ nodes ∧ isNamedClassDeclaration clazz = true ∧
    handler ∈ handlers c ∧
    DecoratorHandler.detect handler clazz (reflector c clazz) = Some result ∧
    DecoratorHandler.analyze handler clazz (DetectResult.metadata result) =
      Throws e ∧
    ∀ d, e ≠ FatalDiagnosticError d.
Proof.
  unfold analyzeSync, bind at 1.
  destruct (visit nodes c) as [[[]|e'] c1] eqn:Hvisit; simpl; [done|].
  intros [= ->]. revert c Hvisit.
  induction nodes as [|node rest IH]; intros c; simpl; [done|].
  unfold bind.
  destruct (isNamedClassDeclaration node) eqn:Hnamed.
  - pose proof (analyzeClass_sameConfig node c) as (Hh & Hr & _).
    rewrite analyzeClass_run in *.
    destruct (eligible c node).
    2:{ intros Hrest. destruct (IH _ Hrest) as (cl & h & r & Hin & H).
        exists cl, h, r. split; [by right|done]. }
    destruct (scanFirst _ _ _) as [rec|] eqn:Hscan.
    2:{ intros Hrest. destruct (IH _ Hrest) as (cl & h & r & Hin & H).
        exists cl, h, r. split; [by right|done]. }
    pose proof (@scanFirst_fromRegistry node (reflector c node) (handlers c)
                  (handlers c) rec (λ h H, H) Hscan) as Hall.
    destruct (@analyzeTraits_pending node (List.length (heap c))
                (seq 0 (List.length (ClassRecord.traits rec)))
                (registered node rec c) (NoDup_seq _ _)
                (@registered_pending node rec c _ Hall)) as [_ Hout].
    destruct (analyzeTraits _ _ _ _) as [[[]|e'] c2] eqn:Hrun; simpl in *.
    + intros Hrest. destruct (IH _ Hrest) as (cl & h & r & Hin & Hnm & Hh' & Hd & H).
      exists cl, h, r. split; [by right|]. split; [done|].
      rewrite <- Hh, <- Hr. done.
    + intros [= -> ->]. destruct Hout as (i & t & Hi & Ht & Hthrows & Hfatal).
      rewrite traitAt_registered_new in Ht.
      eapply Forall_lookup_1 in Hall as (_ & Hin & Hdet); [|done].
      exists node, (Trait.handler t), (Trait.detected t).
      split_and!; try done. by left.
  - simpl. intros Hrest.
    destruct (IH _ Hrest) as (cl & h & r & Hin & H).
    exists cl, h, r. split; [by right|done].
Qed.

(** X6.  Every compiler has a record map in which each class is one key,
    leading to a record of that class; if, besides, every trait of every
    class of the map is ANALYZED, ERRORED or SKIPPED (as in a new compiler,
    which has no class), then the same holds after the analysis of a file
    that returns: the pass leaves no trait PENDING, neither in the records
    it makes nor in those it finds. *)
Theorem analyzeSync_leaves_no_pending (sf : SourceFile)
    (nodes : list Declaration) (c : TraitCompiler) :
  wellFormed c →
  traitStates analysedState c →
  (analyzeSync sf nodes c).1 = Normal tt →
  wellFormed (analyzeSync sf nodes c).2 ∧
  traitStates analysedState (analyzeSync sf nodes c).2.
Proof.
  intros Hwf Hstates Hret. split; [by apply analyzeSync_wellFormed|].
  revert Hret. rewrite analyzeSync_run.
  pose proof (@visit_analysed nodes c Hwf Hstates) as Hvisit.
  destruct (visit nodes c) as [[[]|e] c1]; simpl in *; [|done].
  intros _. eapply traitStates_heap; [..|by apply Hvisit]; done.
Qed.

(** ** What the analysis of a file registers *)

Lemma JsMap_has_set_iff {K V} `{EqDecision K} (m : JsMap.t K V) k v k' :
  JsMap.has k' (JsMap.set k v m) = true ↔ k' = k ∨ JsMap.has k' m = true.
Proof.
  rewrite !JsMap_has_true. destruct (decide (k = k')) as [->|Hne].
  - rewrite JsMap_get_set_eq. split; [by left|by eexists].
  - rewrite JsMap_get_set_ne by done. split; [by right|].
    by intros [->|].
Qed.

(** A class for which the pass makes a record: a named class declaration
    that is looked at and for which some handler answers. *)
Definition registers (c : TraitCompiler) (d : Declaration) : Prop :=
  isNamedClassDeclaration d = true ∧ eligible c d = true ∧
  ∃ handler, handler ∈ handlers c ∧ matches c d handler.

Lemma registers_sameConfig c c' d :
  sameConfig c c' → registers c' d ↔ registers c d.
Proof.
  intros (Hh & Hr & Hn & _). unfold registers, eligible, matches.
  by rewrite Hh, Hr, Hn.
Qed.

Lemma scanFirst_Some_iff (c : TraitCompiler) clazz :
  is_Some (scanFirst clazz (reflector c clazz) (handlers c)) ↔
  ∃ handler, handler ∈ handlers c ∧ matches c clazz handler.
Proof.
  unfold matches. split.
  - intros [rec Hrec].
    destruct (decide (answers clazz (reflector c clazz) (handlers c) = []))
      as [Hnil|Hne].
    + apply scanFirst_None in Hnil. congruence.
    + destruct (answers clazz (reflector c clazz) (handlers c))
        as [|[h r] ms] eqn:Hans; [done|].
      assert (Hin : (h, r) ∈ answers clazz (reflector c clazz) (handlers c)).
      { rewrite Hans. by left. }
      unfold answers in Hin. apply list_elem_of_omap in Hin as (h' & Hh' & Hd).
      destruct (DecoratorHandler.detect h' clazz (reflector c clazz)) eqn:Hdet;
        [|done].
      exists h'. split; [done|]. by rewrite Hdet.
  - intros (handler & Hin & [r Hr]).
    destruct (scanFirst clazz (reflector c clazz) (handlers c)) eqn:Hscan;
      [done|].
    apply scanFirst_None in Hscan.
    pose proof (proj1 (answers_nil _ _ _) Hscan handler Hin). congruence.
Qed.

Lemma analyzeClass_classes clazz c :
  classes (analyzeClass clazz c).2 =
  if eligible c clazz
  then match scanFirst clazz (reflector c clazz) (handlers c) with
       | Some _ => JsMap.set clazz (List.length (heap c)) (classes c)
       | None => classes c
       end
  else classes c.
Proof.
  rewrite analyzeClass_run. destruct (eligible c clazz); [|done].
  destruct (scanFirst _ _ _) as [rec|]; [|done].
  by destruct (analyzeTraits_sameRecords clazz (List.length (heap c))
                 (seq 0 (List.length (ClassRecord.traits rec)))
                 (registered clazz rec c)) as [-> _].
Qed.

Lemma analyzeClass_has clazz c d :
  isNamedClassDeclaration clazz = true →
  JsMap.has d (classes (analyzeClass clazz c).2) = true ↔
  JsMap.has d (classes c) = true ∨ (d = clazz ∧ registers c d).
Proof.
  intros Hnamed. rewrite analyzeClass_classes. unfold registers.
  rewrite <- scanFirst_Some_iff.
  destruct (eligible c clazz) eqn:Helig.
  - destruct (scanFirst clazz _ _) as [rec|] eqn:Hscan.
    + rewrite JsMap_has_set_iff. split.
      * intros [->|H]; [|by left]. right. rewrite Helig, Hscan. by eauto.
      * intros [H|[-> _]]; [by right|by left].
    + split; [by left|]. intros [H|(-> & _ & _ & Hs)]; [done|].
      rewrite Hscan in Hs. by destruct Hs.
  - split; [by left|]. intros [H|(-> & _ & He & _)]; [done|]. congruence.
Qed.

Lemma visit_has nodes : ∀ c d,
  (JsMap.has d (classes (visit nodes c).2) = true →
   JsMap.has d (classes c) = true ∨ (d ∈ nodes ∧ registers c d)) ∧
  ((visit nodes c).1 = Normal tt →
   JsMap.has d (classes c) = true ∨ (d ∈ nodes ∧ registers c d) →
   JsMap.has d (classes (visit nodes c).2) = true).
Proof.
  induction nodes as [|node rest IH]; intros c d; simpl.
  - split; [by left|]. intros _ [H|[Hin _]]; [done|].
    by apply elem_of_nil in Hin.
  - unfold bind. destruct (isNamedClassDeclaration node) eqn:Hnamed.
    + pose proof (@analyzeClass_has node c d Hnamed) as Hstep.
      pose proof (analyzeClass_sameConfig node c) as Hcfg.
      destruct (analyzeClass node c) as [[[]|e] c1]; simpl in *.
      * destruct (IH c1 d) as [Honly Hif]. split.
        -- intros [H|[Hin Hreg]]%Honly.
           ++ apply Hstep in H as [H|[-> Hreg]]; [by left|].
              right. split; [by left|done].
           ++ right. split; [by right|].
              by apply (registers_sameConfig d Hcfg).
        -- intros Hret [H|[Hin Hreg]]; apply (Hif Hret).
           ++ left. apply Hstep. by left.
           ++ apply elem_of_cons in Hin as [->|Hin].
              ** left. apply Hstep. right. done.
              ** right. split; [done|].
                 by apply (registers_sameConfig d Hcfg).
      * split; [|done]. intros [H|[-> Hreg]]%Hstep; [by left|].
        right. split; [by left|done].
    + simpl. destruct (IH c d) as [Honly Hif]. split.
      * intros [H|[Hin Hreg]]%Honly; [by left|]. right.
        split; [by right|done].
      * intros Hret [H|[Hin Hreg]]; apply (Hif Hret); [by left|].
        apply elem_of_cons in Hin as [->|Hin]; [|by right].
        destruct Hreg as [Hn _]. congruence.
Qed.

(** X7.  The classes the analysis of a file gives a record to are the
    named class declarations among its nodes that are looked at (exported,
    or all of them when classes that are not exported are compiled too)
    and for which some handler of the registry answers: no other class
    enters the record map, also when the pass throws, and when the pass
    returns all of these are in it, beside the classes that were there
    before. *)
Theorem analyzeSync_registers (sf : SourceFile) (nodes : list Declaration)
    (c : TraitCompiler) (d : Declaration) :
  (JsMap.has d (classes (analyzeSync sf nodes c).2) = true →
   JsMap.has d (classes c) = true ∨ (d ∈ nodes ∧ registers c d)) ∧
  ((analyzeSync sf nodes c).1 = Normal tt →
   JsMap.has d (classes c) = true ∨ (d ∈ nodes ∧ registers c d) →
   JsMap.has d (classes (analyzeSync sf nodes c).2) = true).
Proof.
  rewrite analyzeSync_run. destruct (visit_has nodes c d) as [Honly Hif].
  destruct (visit nodes c) as [[[]|e] c1]; simpl in *; [|done].
  split; [done|]. intros _. by apply Hif.
Qed.

(** X8.  The type replacements that the scanner for functions returning
    [ModuleWithProviders] reports for a file are registered with the
    transform of the file's declaration file after all the classes of the
    file were analysed, in the order in which they are reported; the
    analysis of the classes registers nothing there, and when it throws
    the scanner is not run. *)
Theorem analyzeSync_type_replacements (sf : SourceFile)
    (nodes : list Declaration) (c : TraitCompiler) :
  ((analyzeSync sf nodes c).1 = Normal tt →
   dtsTransforms (analyzeSync sf nodes c).2 =
   dtsTransforms c ++
   map (λ nt, DtsTransformRegistry.addTypeReplacement sf nt.1 nt.2)
     (mwpScanner c sf)) ∧
  (∀ e, (analyzeSync sf nodes c).1 = Abrupt e →
     dtsTransforms (analyzeSync sf nodes c).2 = dtsTransforms c).
Proof.
  rewrite analyzeSync_run.
  assert (Hdts : stepsIn (λ c c', dtsTransforms c' = dtsTransforms c)
                   (visit nodes)).
  { apply visit_stepsIn.
    - split; [by intros ?|]. intros c1 c2 c3 H1 H2. congruence.
    - intros clazz _. apply analyzeClass_stepsIn.
      + split; [by intros ?|]. intros c1 c2 c3 H1 H2. congruence.
      + intros c0. rewrite scanClassForTraits_run.
        destruct (eligible c0 clazz); [|done]. by destruct (scanFirst _ _ _).
      + intros p i. apply analyzeTrait_stepsIn; [|done..].
        split; [by intros ?|]. intros c1 c2 c3 H1 H2. congruence. }
  specialize (Hdts c). pose proof (visit_sameConfig nodes c) as (_&_&_&_&Hmwp).
  destruct (visit nodes c) as [[[]|e] c1]; simpl in *.
  - split; [|done]. intros _. by rewrite Hdts, Hmwp.
  - split; [done|]. by intros e' _.
Qed.

(** ** Factory symbols *)

(** The factory symbols of the files [files] have grown, and nothing else
    has changed in the map. *)
Definition symbolsGrow (files : list string) (c c' : TraitCompiler) : Prop :=
  match sourceToFactorySymbols c, sourceToFactorySymbols c' with
  | None, None => True
  | Some m, Some m' =>
    JsMap.keys m' = JsMap.keys m ∧
    ∀ file s, JsMap.get file m = Some s →
      ∃ s', JsMap.get file m' = Some s' ∧
            (∀ x, x ∈ s → x ∈ s') ∧ (file ∉ files → s' = s)
  | _, _ => False
  end.

Global Instance symbolsGrow_preorder files : PreOrder (symbolsGrow files).
Proof.
  split.
  - intros c. unfold symbolsGrow. destruct (sourceToFactorySymbols c); [|done].
    split; [done|]. intros file s Hs. by exists s.
  - intros c1 c2 c3. unfold symbolsGrow.
    destruct (sourceToFactorySymbols c1) as [m1|],
      (sourceToFactorySymbols c2) as [m2|],
      (sourceToFactorySymbols c3) as [m3|]; try done.
    intros [Hk1 H1] [Hk2 H2]. split; [congruence|].
    intros file s Hs. destruct (H1 _ _ Hs) as (s' & Hs' & Hsub & Hsame).
    destruct (H2 _ _ Hs') as (s'' & Hs'' & Hsub' & Hsame').
    exists s''. split; [done|]. split; [by auto|].
    intros Hfile. by rewrite Hsame', Hsame.
Qed.

Lemma symbolsGrow_same files c c' :
  sourceToFactorySymbols c' = sourceToFactorySymbols c → symbolsGrow files c c'.
Proof.
  intros H. unfold symbolsGrow. rewrite H.
  destruct (sourceToFactorySymbols c); [|done].
  split; [done|]. intros file s Hs. by exists s.
Qed.

Lemma symbolsGrow_add files clazz m s symbol c :
  fileName (getSourceFile clazz) ∈ files →
  sourceToFactorySymbols c = Some m →
  JsMap.get (fileName (getSourceFile clazz)) m = Some s →
  symbolsGrow files c
    (set_sourceToFactorySymbols
       (λ _, Some (JsMap.set (fileName (getSourceFile clazz))
                     (JsSet.add symbol s) m)) c).
Proof.
  intros Hin Hm Hs. unfold symbolsGrow. rewrite Hm. simpl. split.
  - rewrite JsMap_keys_set. unfold JsMap.has. by rewrite Hs.
  - intros file s0 Hs0.
    destruct (decide (fileName (getSourceFile clazz) = file)) as [<-|Hne].
    + rewrite JsMap_get_set_eq. eexists. split; [done|].
      assert (s0 = s) as -> by congruence. split; [|done].
      intros x Hx. apply JsSet_elem_of_add. by right.
    + rewrite JsMap_get_set_ne by done. by exists s0.
Qed.

Lemma analyzeSync_symbolsGrow sf nodes :
  stepsIn (symbolsGrow (map (λ node, fileName (getSourceFile node)) nodes))
    (analyzeSync sf nodes).
Proof.
  apply analyzeSync_stepsIn; [apply _|..].
  - intros clazz _ c. apply symbolsGrow_same.
    rewrite scanClassForTraits_run.
    destruct (eligible c clazz); [|done]. by destruct (scanFirst _ _ _).
  - intros clazz p i Hin. apply analyzeTrait_stepsIn; [apply _|..].
    + intros f c. by apply symbolsGrow_same.
    + intros m s symbol c Hm Hs. apply symbolsGrow_add; [|done..].
      apply list_elem_of_fmap. by exists clazz.
  - intros f c. by apply symbolsGrow_same.
Qed.

(** X9.  The analysis of a file never gives [sourceToFactorySymbols] a
    file it did not have: when the map is [null] it stays [null], and
    otherwise it keeps its keys in their order, every set of symbols keeps
    the symbols it had, and the sets of the files that are not the file of
    a node of the pass are left as they were. *)
Theorem analysis_keeps_factory_files (sf : SourceFile)
    (nodes : list Declaration) (c : TraitCompiler) :
  let c' := (analyzeSync sf nodes c).2 in
  (sourceToFactorySymbols c = None → sourceToFactorySymbols c' = None) ∧
  (∀ m, sourceToFactorySymbols c = Some m →
     ∃ m', sourceToFactorySymbols c' = Some m' ∧
           JsMap.keys m' = JsMap.keys m ∧
           ∀ file s, JsMap.get file m = Some s →
             ∃ s', JsMap.get file m' = Some s' ∧
                   (∀ x, x ∈ s → x ∈ s') ∧
                   ((∀ node, node ∈ nodes →
                       fileName (getSourceFile node) ≠ file) → s' = s)).
Proof.
  intros c'. pose proof (analyzeSync_symbolsGrow sf nodes c) as H.
  fold c' in H. unfold symbolsGrow in H. split.
  - intros Hnone. rewrite Hnone in H.
    by destruct (sourceToFactorySymbols c').
  - intros m Hm. rewrite Hm in H.
    destruct (sourceToFactorySymbols c') as [m'|]; [|done].
    destruct H as [Hkeys Hsets]. exists m'. split; [done|]. split; [done|].
    intros file s Hs. destruct (Hsets _ _ Hs) as (s' & Hs' & Hsub & Hsame).
    exists s'. split; [done|]. split; [done|]. intros Hfiles. apply Hsame.
    intros (node & Hfile & Hin)%list_elem_of_fmap. by eapply Hfiles.
Qed.

(** X10.  When the analysis of a PENDING trait returns an analysis, without
    diagnostics, and names a factory symbol, the symbol is added to the
    symbols of the file name of the class if [sourceToFactorySymbols] has
    an entry for that name, and to no other set; it is recorded nowhere
    when the map is [null] or has no entry for the name.  An output with
    diagnostics, or without an analysis, records no symbol even if it
    names one. *)
Theorem factory_symbol_recorded (clazz : Declaration) (p : ref) (i : nat)
    (c : TraitCompiler) (trait : Trait.t) (result : AnalysisOutput.t) :
  traitAt c p i = Some trait →
  Trait.state trait = PENDING →
  DecoratorHandler.analyze (Trait.handler trait) clazz
    (DetectResult.metadata (Trait.detected trait)) = Returns result →
  let c' := (analyzeTrait clazz p i c).2 in
  let file := fileName (getSourceFile clazz) in
  (∀ a symbol m s,
     AnalysisOutput.diagnostics result = None →
     AnalysisOutput.analysis result = Some a →
     AnalysisOutput.factorySymbolName result = Some symbol →
     sourceToFactorySymbols c = Some m →
     JsMap.get file m = Some s →
     ∃ m', sourceToFactorySymbols c' = Some m' ∧
           JsMap.get file m' = Some (JsSet.add symbol s) ∧
           symbol ∈ JsSet.add symbol s ∧
           ∀ other, other ≠ file → JsMap.get other m' = JsMap.get other m) ∧
  (∀ m, sourceToFactorySymbols c = Some m → JsMap.get file m = None →
     sourceToFactorySymbols c' = Some m) ∧
  (sourceToFactorySymbols c = None → sourceToFactorySymbols c' = None) ∧
  (AnalysisOutput.diagnostics result ≠ None ∨
   AnalysisOutput.analysis result = None ∨
   AnalysisOutput.factorySymbolName result = None →
   sourceToFactorySymbols c' = sourceToFactorySymbols c).
Proof.
  intros Ht Hstate Hres c' file.
  assert (Hother : AnalysisOutput.diagnostics result ≠ None ∨
                   AnalysisOutput.analysis result = None →
                   sourceToFactorySymbols c' = sourceToFactorySymbols c).
  { intros Hcase. subst c'.
    pose proof Ht as (rec & Hp & Hi)%traitAt_inv.
    unfold analyzeTrait. erewrite bind_normal by by apply deref_run.
    rewrite Hi, bool_decide_eq_false_2 by (intros H; by apply H).
    rewrite Hres.
    destruct (AnalysisOutput.diagnostics result) as [ds|]; [done|].
    destruct (AnalysisOutput.analysis result) as [a|]; [|done].
    by destruct Hcase. }
  assert (Hrun : ∀ a, AnalysisOutput.diagnostics result = None →
            AnalysisOutput.analysis result = Some a →
            sourceToFactorySymbols c' =
            noteFactorySymbol clazz (AnalysisOutput.factorySymbolName result)
              (sourceToFactorySymbols c)).
  { intros a Hdiag Han. subst c'.
    by rewrite (@analyzeTrait_analysed_run clazz p i c trait result a
                  Ht Hstate Hres Hdiag Han). }
  split_and!.
  - intros a symbol m s Hdiag Han Hsym Hm Hs.
    rewrite (Hrun a Hdiag Han), Hsym, Hm. unfold noteFactorySymbol.
    fold file. rewrite Hs. eexists. split; [done|].
    rewrite JsMap_get_set_eq. split; [done|]. split.
    + apply JsSet_elem_of_add. by left.
    + intros other Hne. by apply JsMap_get_set_ne.
  - intros m Hm Hnone.
    destruct (AnalysisOutput.diagnostics result) as [ds|] eqn:Hdiag.
    { rewrite Hother; [done|]. by left. }
    destruct (AnalysisOutput.analysis result) as [a|] eqn:Han.
    2:{ rewrite Hother; [done|]. by right. }
    rewrite (Hrun a eq_refl eq_refl), Hm. unfold noteFactorySymbol.
    fold file. rewrite Hnone. by destruct (AnalysisOutput.factorySymbolName _).
  - intros Hnone.
    destruct (AnalysisOutput.diagnostics result) as [ds|] eqn:Hdiag.
    { rewrite Hother; [done|]. by left. }
    destruct (AnalysisOutput.analysis result) as [a|] eqn:Han.
    2:{ rewrite Hother; [done|]. by right. }
    rewrite (Hrun a eq_refl eq_refl), Hnone. unfold noteFactorySymbol.
    by destruct (AnalysisOutput.factorySymbolName _).
  - intros [Hd|[Ha|Hn]].
    + apply Hother. by left.
    + apply Hother. by right.
    + destruct (AnalysisOutput.diagnostics result) as [ds|] eqn:Hdiag.
      { apply Hother. by left. }
      destruct (AnalysisOutput.analysis result) as [a|] eqn:Han.
      2:{ apply Hother. by right. }
      by rewrite (Hrun a eq_refl eq_refl), Hn.
Qed.

(** ** Resolution *)

(** The record map and the records are what they were. *)
Definition sameHeap (c c' : TraitCompiler) : Prop :=
  heap c' = heap c ∧ classes c' = classes c.

Global Instance sameHeap_preorder : PreOrder sameHeap.
Proof.
  split.
  - by intros c.
  - intros c1 c2 c3 [H1 H1'] [H2 H2']. split; congruence.
Qed.

Lemma traitAt_sameHeap c c' p i :
  sameHeap c c' → traitAt c' p i = traitAt c p i.
Proof. intros [Hh _]. unfold traitAt. by rewrite Hh. Qed.

Lemma recordReexports_sameHeap clazz result :
  stepsIn sameHeap (recordReexports clazz result).
Proof. by apply recordReexports_stepsIn; [apply _|]. Qed.

Lemma recordNgModuleScopeDependencies_sameHeap :
  stepsIn sameHeap recordNgModuleScopeDependencies.
Proof. by apply recordNgModuleScopeDependencies_stepsIn; [apply _|..]. Qed.

(** The loop over the re-exports of a result never throws once the file
    has its table. *)
Lemma writeReexports_returns file reexports : ∀ c,
  is_Some (JsMap.get file (reexportMap c)) →
  (writeReexports file reexports c).1 = Normal tt ∧
  is_Some (JsMap.get file (reexportMap (writeReexports file reexports c).2)).
Proof.
  induction reexports as [|rx rest IH]; intros c [m Hm]; simpl.
  - split; [done|by eexists].
  - assert (Hset : ∀ alias v,
      fileReexports_set file alias v c =
      (Normal tt,
       set_reexportMap (JsMap.set file (JsMap.set alias v m)) c)).
    { intros alias v. unfold fileReexports_set, bind, gets, modify. simpl.
      by rewrite Hm. }
    unfold bind. rewrite Hset. apply IH. simpl. rewrite JsMap_get_set_eq.
    by eexists.
Qed.

Lemma recordReexports_returns clazz result c :
  (recordReexports clazz result c).1 = Normal tt.
Proof.
  unfold recordReexports.
  destruct (ResolveResult.reexports result) as [rs|]; [|done].
  unfold bind at 1, gets. simpl. unfold JsMap.has.
  destruct (JsMap.get (fileName (getSourceFile clazz)) (reexportMap c))
    as [m|] eqn:Hm; simpl.
  - unfold bind, ret. apply writeReexports_returns. by eexists.
  - unfold bind, modify. apply writeReexports_returns. simpl.
    rewrite JsMap_get_set_eq. by eexists.
Qed.

(** What the body of the loop of [resolve] does to an ANALYZED trait, by
    what the [resolve] of its handler does. *)
Lemma resolveTrait_analysed clazz p i c t :
  traitAt c p i = Some t → Trait.state t = ANALYZED →
  match DecoratorHandler.resolve (Trait.handler t) with
  | None =>
    (resolveTrait clazz p i c).1 = Normal tt ∧
    traitAt (resolveTrait clazz p i c).2 p i = Some (Trait.toResolved None t)
  | Some handler_resolve =>
    match handler_resolve clazz (Trait.analysis t) with
    | Throws (FatalDiagnosticError d) =>
      (resolveTrait clazz p i c).1 = Normal tt ∧
      traitAt (resolveTrait clazz p i c).2 p i = Some (Trait.toErrored [d] t)
    | Throws e => resolveTrait clazz p i c = (Abrupt e, c)
    | Returns result =>
      (resolveTrait clazz p i c).1 = Normal tt ∧
      traitAt (resolveTrait clazz p i c).2 p i =
        Some (match ResolveResult.diagnostics result with
              | Some ds => Trait.toErrored ds t
              | None => Trait.toResolved (ResolveResult.data result) t
              end)
    end
  end.
Proof.
  intros Ht Hstate. pose proof Ht as (rec & Hp & Hi)%traitAt_inv.
  unfold resolveTrait. erewrite bind_normal by by apply deref_run.
  rewrite Hi, Hstate.
  destruct (DecoratorHandler.resolve (Trait.handler t)) as [f|].
  2:{ split; [done|]. by rewrite traitAt_mutateTrait_eq, Ht. }
  destruct (f clazz (Trait.analysis t)) as [result|[msg|d|v]]; try done.
  2:{ split; [done|]. by rewrite traitAt_mutateTrait_eq, Ht. }
  assert (Hgen : ∀ g,
    ((mutateTrait p i g >> recordReexports clazz result) c).1 = Normal tt ∧
    traitAt ((mutateTrait p i g >> recordReexports clazz result) c).2 p i =
      Some (g t)).
  { intros g. unfold bind. rewrite mutateTrait_run. split.
    - apply recordReexports_returns.
    - rewrite (@traitAt_sameHeap _ _ p i (@recordReexports_sameHeap clazz result _)).
      pose proof (traitAt_mutateTrait_eq p i g c) as H.
      rewrite mutateTrait_run, Ht in H. exact H. }
  destruct (ResolveResult.diagnostics result) as [ds|]; [apply Hgen|].
  destruct (ResolveResult.data result) as [data|]; apply Hgen.
Qed.

(** A trait that is ERRORED or SKIPPED is passed over. *)
Lemma resolveTrait_passes clazz p i c t :
  traitAt c p i = Some t →
  Trait.state t = ERRORED ∨ Trait.state t = SKIPPED →
  resolveTrait clazz p i c = (Normal tt, c).
Proof.
  intros (rec & Hp & Hi)%traitAt_inv Hstate.
  unfold resolveTrait. erewrite bind_normal by by apply deref_run.
  rewrite Hi. by destruct Hstate as [-> | ->].
Qed.

(** The states a trait can be in after [resolve]. *)
Definition settledState (s : TraitState) : Prop :=
  s = RESOLVED ∨ s = ERRORED ∨ s = SKIPPED.

(** A throw of the [resolve] of the handler of an ANALYZED trait. *)
Definition resolveThrows (clazz : Declaration) (t : Trait.t) (e : Thrown)
    : Prop :=
  Trait.state t = ANALYZED ∧
  ∃ handler_resolve,
    DecoratorHandler.resolve (Trait.handler t) = Some handler_resolve ∧
    handler_resolve clazz (Trait.analysis t) = Throws e ∧
    ∀ d, e ≠ FatalDiagnosticError d.

Lemma resolveTrait_step clazz p i c t :
  traitAt c p i = Some t → analysedState (Trait.state t) →
  match (resolveTrait clazz p i c).1 with
  | Normal _ =>
    ∃ t', traitAt (resolveTrait clazz p i c).2 p i = Some t' ∧
          settledState (Trait.state t')
  | Abrupt e => resolveThrows clazz t e
  end.
Proof.
  intros Ht [Hs|Hs].
  - pose proof (@resolveTrait_analysed clazz p i c t Ht Hs) as H.
    unfold resolveThrows.
    destruct (DecoratorHandler.resolve (Trait.handler t)) as [f|].
    + destruct (f clazz (Trait.analysis t)) as [result|[msg|d|v]] eqn:Hf.
      * destruct H as [-> ->]. eexists. split; [done|]. unfold settledState.
        destruct (ResolveResult.diagnostics result); simpl; auto.
      * rewrite H. simpl. split; [done|]. exists f. by split_and!.
      * destruct H as [-> ->]. eexists. split; [done|]. unfold settledState.
        simpl. auto.
      * rewrite H. simpl. split; [done|]. exists f. by split_and!.
    + destruct H as [-> ->]. eexists. split; [done|]. unfold settledState.
      simpl. auto.
  - rewrite (@resolveTrait_passes clazz p i c t Ht Hs). simpl.
    exists t. split; [done|]. unfold settledState. destruct Hs; auto.
Qed.

(** The inner loop of [resolve] over traits none of which is PENDING or
    RESOLVED. *)
Lemma resolveTraits_analysed clazz p positions : ∀ c,
  NoDup positions →
  (∀ i, i ∈ positions →
     ∃ t, traitAt c p i = Some t ∧ analysedState (Trait.state t)) →
  (∀ p' i', p' ≠ p ∨ i' ∉ positions →
     traitAt (resolveTraits clazz p positions c).2 p' i' = traitAt c p' i') ∧
  match (resolveTraits clazz p positions c).1 with
  | Normal _ =>
    ∀ i, i ∈ positions →
      ∃ t, traitAt (resolveTraits clazz p positions c).2 p i = Some t ∧
           settledState (Trait.state t)
  | Abrupt e =>
    ∃ i t, i ∈ positions ∧ traitAt c p i = Some t ∧ resolveThrows clazz t e
  end.
Proof.
  induction positions as [|i rest IH]; intros c Hdup Hanalysed; simpl.
  - split; [done|]. intros i Hin. by apply elem_of_nil in Hin.
  - apply NoDup_cons in Hdup as [Hi Hdup].
    destruct (Hanalysed i ltac:(by left)) as (t & Ht & Hstate).
    pose proof (@resolveTrait_step clazz p i c t Ht Hstate) as Hstep.
    assert (Hframe : ∀ p' i', (p', i') ≠ (p, i) →
              traitAt (resolveTrait clazz p i c).2 p' i' = traitAt c p' i').
    { intros p' i' Hne. by apply resolveTrait_frame. }
    unfold bind.
    destruct (resolveTrait clazz p i c) as [[[]|e] c1] eqn:Hrun; simpl in *.
    + assert (Hrest : ∀ j, j ∈ rest →
                ∃ t', traitAt c1 p j = Some t' ∧ analysedState (Trait.state t')).
      { intros j Hj. destruct (Hanalysed j ltac:(by right)) as (t' & Ht' & Hs').
        exists t'. split; [|done]. rewrite Hframe; [done|].
        intros [= ->]. done. }
      destruct (IH c1 Hdup Hrest) as [Hothers Hout]. split.
      * intros p' i' Hne. rewrite Hothers.
        -- apply Hframe. intros [= -> ->]. destruct Hne as [Hne|Hne]; [done|].
           apply Hne. by left.
        -- destruct Hne as [Hne|Hne]; [by left|]. right. intros Hin.
           apply Hne. by right.
      * destruct (resolveTraits clazz p rest c1) as [[[]|e] c2] eqn:Hrun';
          simpl in *.
        -- intros j [->|Hj]%elem_of_cons; [|by apply Hout].
           rewrite Hothers by by right. done.
        -- destruct Hout as (j & t' & Hj & Ht' & Hthrows).
           exists j, t'. split; [by right|]. split; [|done].
           rewrite <- Ht'. symmetry. apply Hframe. intros [= ->]. done.
    + split.
      * intros p' i' Hne. apply Hframe. intros [= -> ->].
        destruct Hne as [Hne|Hne]; [done|]. apply Hne. by left.
      * exists i, t. split; [by left|]. by split.
Qed.

Lemma resolveTraits_sameRecords clazz p positions :
  stepsIn sameRecords (resolveTraits clazz p positions).
Proof.
  apply resolveTraits_stepsIn; [apply _|]. intros i.
  apply resolveTrait_sameRecords.
Qed.

(** The traits of a class of the record map. *)
Definition traitsOf (c : TraitCompiler) (clazz : Declaration) (p : ref)
    (i : nat) (t : Trait.t) : Prop :=
  JsMap.get clazz (classes c) = Some p ∧ traitAt c p i = Some t.

Lemma wellFormed_inj c clazz clazz' p :
  wellFormed c →
  JsMap.get clazz (classes c) = Some p →
  JsMap.get clazz' (classes c) = Some p → clazz = clazz'.
Proof.
  intros [_ Hrec] H1 H2. apply Hrec in H1, H2. congruence.
Qed.

(** The body of the outer loop of [resolve] for a class of the record map
    none of whose traits is PENDING or RESOLVED. *)
Lemma resolveClass_analysed clazz p c :
  wellFormed c → JsMap.get clazz (classes c) = Some p →
  (∀ i t, traitAt c p i = Some t → analysedState (Trait.state t)) →
  (∀ p' i', p' ≠ p →
     traitAt (resolveClass clazz c).2 p' i' = traitAt c p' i') ∧
  match (resolveClass clazz c).1 with
  | Normal _ =>
    ∀ i t, traitAt (resolveClass clazz c).2 p i = Some t →
           settledState (Trait.state t)
  | Abrupt e => ∃ i t, traitAt c p i = Some t ∧ resolveThrows clazz t e
  end.
Proof.
  intros Hwf Hp Hanalysed. unfold resolveClass, bind at 1 3 5, gets. simpl.
  rewrite Hp. destruct Hwf as [_ Hrec]. specialize (Hrec _ _ Hp).
  destruct (heap c !! p) as [rec|] eqn:Hlook; [|done].
  pose proof (deref_run p c Hlook) as Hd. unfold bind. rewrite Hd.
  assert (Hpos : ∀ i, i ∈ seq 0 (List.length (ClassRecord.traits rec)) →
            ∃ t, traitAt c p i = Some t ∧ analysedState (Trait.state t)).
  { intros i Hi. apply elem_of_seq in Hi as [_ Hi]. simpl in Hi.
    destruct (lookup_lt_is_Some_2 _ _ Hi) as [t Ht].
    assert (traitAt c p i = Some t) by by eapply traitAt_Some.
    exists t. split; [done|]. by eapply Hanalysed. }
  destruct (@resolveTraits_analysed clazz p
              (seq 0 (List.length (ClassRecord.traits rec))) c
              (NoDup_seq _ _) Hpos) as [Hothers Hout].
  split.
  - intros p' i' Hne. apply Hothers. by left.
  - destruct (resolveTraits _ _ _ _) as [[[]|e] c1]; simpl in *.
    + intros i t Ht.
      destruct (decide (i ∈ seq 0 (List.length (ClassRecord.traits rec))))
        as [Hi|Hi].
      * destruct (Hout i Hi) as (t' & Ht' & Hs). congruence.
      * rewrite Hothers in Ht by by right. exfalso. apply Hi.
        apply elem_of_seq. split; [lia|]. simpl.
        apply traitAt_inv in Ht as (rec' & Hrec' & Hi').
        assert (rec' = rec) as -> by congruence. by eapply lookup_lt_Some.
    + destruct Hout as (i & t & _ & Ht & Hthrows). by exists i, t.
Qed.

Lemma resolveClass_sameRecords clazz : stepsIn sameRecords (resolveClass clazz).
Proof.
  apply resolveClass_stepsIn; [apply _|]. intros p i.
  apply resolveTrait_sameRecords.
Qed.

Lemma resolveClasses_sameRecords keys :
  stepsIn sameRecords (resolveClasses keys).
Proof.
  apply resolveClasses_stepsIn; [apply _|]. intros clazz p i.
  apply resolveTrait_sameRecords.
Qed.

(** The outer loop of [resolve]. *)
Lemma resolveClasses_analysed keys : ∀ c,
  wellFormed c → NoDup keys →
  (∀ clazz, clazz ∈ keys → is_Some (JsMap.get clazz (classes c))) →
  (∀ clazz p i t, clazz ∈ keys → traitsOf c clazz p i t →
     analysedState (Trait.state t)) →
  (∀ p' i', (∀ clazz, clazz ∈ keys → JsMap.get clazz (classes c) ≠ Some p') →
     traitAt (resolveClasses keys c).2 p' i' = traitAt c p' i') ∧
  match (resolveClasses keys c).1 with
  | Normal _ =>
    ∀ clazz p i t, clazz ∈ keys →
      traitsOf (resolveClasses keys c).2 clazz p i t →
      settledState (Trait.state t)
  | Abrupt e =>
    ∃ clazz p i t, traitsOf c clazz p i t ∧ resolveThrows clazz t e
  end.
Proof.
  induction keys as [|clazz rest IH]; intros c Hwf Hdup Hkeys Hanalysed; simpl.
  - split; [done|]. intros clazz p i t Hin. by apply elem_of_nil in Hin.
  - apply NoDup_cons in Hdup as [Hclazz Hdup].
    destruct (Hkeys clazz ltac:(by left)) as [p Hp].
    assert (Hmine : ∀ i t, traitAt c p i = Some t →
              analysedState (Trait.state t)).
    { intros i t Ht. by apply (Hanalysed clazz p i t); [left|split]. }
    destruct (@resolveClass_analysed clazz p c Hwf Hp Hmine) as [Hothers Hout].
    pose proof (@resolveClass_sameRecords clazz c) as Hsame.
    pose proof (@sameRecords_wellFormed _ _ Hsame Hwf) as Hwf1.
    destruct Hsame as [Hclasses _].
    unfold bind.
    destruct (resolveClass clazz c) as [[[]|e] c1] eqn:Hrun; simpl in *.
    + assert (Hdiff : ∀ clazz' p', clazz' ∈ rest →
                JsMap.get clazz' (classes c) = Some p' → p' ≠ p).
      { intros clazz' p' Hin Hp' ->. apply Hclazz.
        by rewrite (@wellFormed_inj c clazz clazz' p Hwf Hp Hp'). }
      assert (Hkeys1 : ∀ clazz', clazz' ∈ rest →
                is_Some (JsMap.get clazz' (classes c1))).
      { intros clazz' Hin. rewrite Hclasses. apply Hkeys. by right. }
      assert (Hanalysed1 : ∀ clazz' p' i t, clazz' ∈ rest →
                traitsOf c1 clazz' p' i t → analysedState (Trait.state t)).
      { intros clazz' p' i t Hin [Hp' Ht]. rewrite Hclasses in Hp'.
        rewrite Hothers in Ht by by eapply Hdiff.
        by apply (Hanalysed clazz' p' i t); [right|split]. }
      destruct (IH c1 Hwf1 Hdup Hkeys1 Hanalysed1) as [Hframe Hrest].
      split.
      * intros p' i' Hnot. rewrite Hframe.
        -- apply Hothers. intros ->. by apply (Hnot clazz); [left|].
        -- intros clazz' Hin. rewrite Hclasses. apply Hnot. by right.
      * destruct (resolveClasses rest c1) as [[[]|e] c2] eqn:Hrun';
          simpl in *.
        -- pose proof (@resolveClasses_sameRecords rest c1) as [Hclasses2 _].
           rewrite Hrun' in Hclasses2. simpl in Hclasses2.
           intros clazz' p' i t [->|Hin]%elem_of_cons [Hp' Ht].
           ++ rewrite Hclasses2, Hclasses, Hp in Hp'. injection Hp' as <-.
              rewrite Hframe in Ht; [by eapply Hout|].
              intros clazz' Hin. rewrite Hclasses. intros Hp'.
              by eapply Hdiff.
           ++ by apply (Hrest clazz' p' i t).
        -- destruct Hrest as (clazz' & p' & i & t & [Hp' Ht] & Hthrows).
           exists clazz', p', i, t. split; [|done].
           rewrite Hclasses in Hp'. split; [done|].
           destruct (decide (p' = p)) as [->|Hne].
           ++ (* the trait was already settled, so it is not the one *)
              specialize (Hout i t Ht). destruct Hthrows as [Hs _].
              rewrite Hs in Hout. by destruct Hout as [?|[?|?]].
           ++ by rewrite <- (Hothers p' i Hne).
    + split.
      * intros p' i' Hnot. apply Hothers. intros ->.
        by apply (Hnot clazz); [left|].
      * destruct Hout as (i & t & Ht & Hthrows). by exists clazz, p, i, t.
Qed.

Lemma resolve_run c :
  resolve c =
  match resolveClasses (JsMap.keys (classes c)) c with
  | (Normal _, c1) => recordNgModuleScopeDependencies c1
  | (Abrupt e, c1) => (Abrupt e, c1)
  end.
Proof.
  unfold resolve, bind, gets. simpl.
  by destruct (resolveClasses _ c) as [[[]|e] c1].
Qed.

Lemma JsMap_keys_get {K V} `{EqDecision K} (m : JsMap.t K V) k :
  k ∈ JsMap.keys m → is_Some (JsMap.get k m).
Proof. intros H. by apply JsMap_has_true, JsMap_has_keys. Qed.

(** X11.  In a compiler whose traits are all ANALYZED, ERRORED or SKIPPED,
    as the analysis of its files leaves them, [resolve()] raises no error
    of its own.  Either it returns, and then every trait of every class of
    the record map is RESOLVED, ERRORED or SKIPPED; or it throws, and then
    what it throws was thrown by the [resolve] of the handler of an
    ANALYZED trait, called on the class and the analysis of that trait,
    and is not a [FatalDiagnosticError]. *)
Theorem resolve_after_analysis (c : TraitCompiler) :
  wellFormed c →
  traitStates analysedState c →
  match (resolve c).1 with
  | Normal _ =>
    wellFormed (resolve c).2 ∧ traitStates settledState (resolve c).2
  | Abrupt e =>
    ∃ clazz p i t,
      JsMap.get clazz (classes c) = Some p ∧ traitAt c p i = Some t ∧
      Trait.state t = ANALYZED ∧
      ∃ handler_resolve,
        DecoratorHandler.resolve (Trait.handler t) = Some handler_resolve ∧
        handler_resolve clazz (Trait.analysis t) = Throws e ∧
        ∀ d, e ≠ FatalDiagnosticError d
  end.
Proof.
  intros Hwf Hstates.
  pose proof (@sameRecords_wellFormed _ _ (resolve_sameRecords c) Hwf) as Hwf'.
  rewrite resolve_run in *.
  assert (Hkeys : ∀ clazz, clazz ∈ JsMap.keys (classes c) →
            is_Some (JsMap.get clazz (classes c))).
  { intros clazz. apply JsMap_keys_get. }
  assert (Hanalysed : ∀ clazz p i t, clazz ∈ JsMap.keys (classes c) →
            traitsOf c clazz p i t → analysedState (Trait.state t)).
  { intros clazz p i t _ [Hp Ht]. by eapply Hstates. }
  destruct (@resolveClasses_analysed (JsMap.keys (classes c)) c Hwf
              (proj1 Hwf) Hkeys Hanalysed) as [_ Hout].
  destruct (resolveClasses _ c) as [[[]|e] c1] eqn:Hrun; simpl in *.
  - pose proof (recordNgModuleScopeDependencies_run c1) as [Hret _].
    pose proof (recordNgModuleScopeDependencies_sameHeap c1) as Hsame.
    pose proof (@resolveClasses_sameRecords (JsMap.keys (classes c)) c)
      as [Hclasses _].
    rewrite Hrun in Hclasses. simpl in Hclasses.
    destruct (recordNgModuleScopeDependencies c1) as [[[]|e] c2];
      simpl in *; [|done].
    split; [done|]. intros clazz p i t Hp Ht.
    destruct Hsame as [Hheap Hcl]. rewrite Hcl in Hp.
    apply (Hout clazz p i t).
    + rewrite Hclasses in Hp. by eapply JsMap_get_keys.
    + split; [done|]. unfold traitAt in *. by rewrite <- Hheap.
  - destruct Hout as (clazz & p & i & t & [Hp Ht] & Hs & Hthrows).
    by exists clazz, p, i, t.
Qed.

(** X12.  On an ANALYZED trait whose handler has a [resolve] that throws a
    [FatalDiagnosticError], the body of the loop of [resolve] returns: the
    trait is ERRORED with exactly the diagnostic of the error, no other
    trait changes, the table of the re-exports is not written, and the
    loop goes on with the traits that follow.  Any other exception leaves
    the body with the compiler as it was, and leaves the loop over the
    traits, the one over the classes and [resolve] itself: the traits and
    the classes that follow are not resolved and the recording of the
    dependencies is not reached. *)
Theorem resolve_throws (clazz : Declaration) (p : ref) (i : nat)
    (c : TraitCompiler) (trait : Trait.t)
    (handler_resolve : Declaration → option unknown → Outcome ResolveResult.t) :
  traitAt c p i = Some trait →
  Trait.state trait = ANALYZED →
  DecoratorHandler.resolve (Trait.handler trait) = Some handler_resolve →
  let thrown := handler_resolve clazz (Trait.analysis trait) in
  (∀ d, thrown = Throws (FatalDiagnosticError d) →
     ∃ c',
       resolveTrait clazz p i c = (Normal tt, c') ∧
       traitAt c' p i = Some (Trait.toErrored [d] trait) ∧
       (∀ p' i', (p', i') ≠ (p, i) → traitAt c' p' i' = traitAt c p' i') ∧
       reexportMap c' = reexportMap c ∧
       ∀ rest, resolveTraits clazz p (i :: rest) c =
               resolveTraits clazz p rest c') ∧
  (∀ err, thrown = Throws err → (∀ d, err ≠ FatalDiagnosticError d) →
     resolveTrait clazz p i c = (Abrupt err, c) ∧
     (∀ pre post c0,
        resolveTraits clazz p pre c0 = (Normal tt, c) →
        resolveTraits clazz p (pre ++ i :: post) c0 = (Abrupt err, c)) ∧
     (∀ pre post c0 rec0,
        JsMap.get clazz (classes c0) = Some p →
        heap c0 !! p = Some rec0 →
        seq 0 (List.length (ClassRecord.traits rec0)) = pre ++ i :: post →
        resolveTraits clazz p pre c0 = (Normal tt, c) →
        resolveClass clazz c0 = (Abrupt err, c) ∧
        ∀ before after cstart,
          JsMap.keys (classes cstart) = before ++ clazz :: after →
          resolveClasses before cstart = (Normal tt, c0) →
          resolve cstart = (Abrupt err, c))).
Proof.
  intros Ht Hstate Hres thrown.
  pose proof (@resolveTrait_analysed clazz p i c trait Ht Hstate) as Hstep.
  rewrite Hres in Hstep. fold thrown in Hstep. split.
  - intros d Hd. rewrite Hd in Hstep. destruct Hstep as [Hret Hnew].
    destruct (resolveTrait clazz p i c) as [o c'] eqn:Hrun. simpl in *.
    subst o. exists c'. split_and!; try done.
    + intros p' i' Hne.
      pose proof (@resolveTrait_frame clazz p i c p' i' Hne) as H.
      by rewrite Hrun in H.
    + pose proof Ht as (rec & Hp & Hi)%traitAt_inv.
      revert Hrun. unfold resolveTrait.
      erewrite bind_normal by by apply deref_run.
      rewrite Hi, Hstate, Hres. fold thrown. rewrite Hd.
      rewrite mutateTrait_run. by intros [= <-].
    + intros rest. simpl. unfold bind. by rewrite Hrun.
  - intros err Herr Hfatal. rewrite Herr in Hstep.
    assert (Hrun : resolveTrait clazz p i c = (Abrupt err, c)).
    { destruct err as [msg|d|v]; try done. by destruct (Hfatal d). }
    assert (Hloop : ∀ pre post c0,
      resolveTraits clazz p pre c0 = (Normal tt, c) →
      resolveTraits clazz p (pre ++ i :: post) c0 = (Abrupt err, c)).
    { intros pre post. induction pre as [|j pre IH]; intros c0; simpl.
      - intros [= ->]. unfold bind. by rewrite Hrun.
      - unfold bind.
        destruct (resolveTrait clazz p j c0) as [[[]|e] c1]; [|done].
        apply IH. }
    split_and!; try done.
    intros pre post c0 rec0 Hp0 Hrec0 Hseq Hpre.
    assert (Hclass : resolveClass clazz c0 = (Abrupt err, c)).
    { unfold resolveClass, bind at 1, gets. simpl. rewrite Hp0.
      erewrite bind_normal by by apply deref_run.
      rewrite Hseq. by apply Hloop. }
    split; [done|]. intros before after cstart Hkeys Hbefore.
    rewrite resolve_run, Hkeys.
    assert (Hall : resolveClasses (before ++ clazz :: after) cstart =
                   (Abrupt err, c)).
    { clear Hkeys. revert cstart Hbefore.
      induction before as [|k before IH]; intros cstart; simpl.
      - intros [= ->]. unfold bind. by rewrite Hclass.
      - unfold bind.
        destruct (resolveClass k cstart) as [[[]|e] c1]; [|done].
        apply IH. }
    by rewrite Hall.
Qed.

(** X13.  On an ANALYZED trait whose handler's [resolve] returns (or has no
    [resolve] at all), the body of the loop of [resolve] returns, and the
    trait is: RESOLVED with no resolution when the handler has no
    [resolve]; ERRORED with the diagnostics of the result when it has
    some, whatever its data; and otherwise RESOLVED with the data of the
    result, or with none when the result has none.  The trait keeps its
    handler, its detection result and its analysis, and no other trait
    changes. *)
Theorem resolveTrait_outcome (clazz : Declaration) (p : ref) (i : nat)
    (c : TraitCompiler) (trait : Trait.t) :
  traitAt c p i = Some trait →
  Trait.state trait = ANALYZED →
  let c' := (resolveTrait clazz p i c).2 in
  (DecoratorHandler.resolve (Trait.handler trait) = None →
   (resolveTrait clazz p i c).1 = Normal tt ∧
   traitAt c' p i = Some (Trait.toResolved None trait) ∧
   reexportMap c' = reexportMap c) ∧
  (∀ handler_resolve result,
     DecoratorHandler.resolve (Trait.handler trait) = Some handler_resolve →
     handler_resolve clazz (Trait.analysis trait) = Returns result →
     (resolveTrait clazz p i c).1 = Normal tt ∧
     ∃ trait',
       traitAt c' p i = Some trait' ∧
       Trait.handler trait' = Trait.handler trait ∧
       Trait.detected trait' = Trait.detected trait ∧
       Trait.analysis trait' = Trait.analysis trait ∧
       (∀ ds, ResolveResult.diagnostics result = Some ds →
          Trait.state trait' = ERRORED ∧ Trait.diagnostics trait' = Some ds ∧
          Trait.resolution trait' = Trait.resolution trait) ∧
       (ResolveResult.diagnostics result = None →
        Trait.state trait' = RESOLVED ∧
        Trait.resolution trait' = ResolveResult.data result)) ∧
  (∀ p' i', (p', i') ≠ (p, i) → traitAt c' p' i' = traitAt c p' i').
Proof.
  intros Ht Hstate c'.
  pose proof (@resolveTrait_analysed clazz p i c trait Ht Hstate) as Hstep.
  split_and!.
  - intros Hnone. rewrite Hnone in Hstep. destruct Hstep as [Hret Hnew].
    split_and!; try done. subst c'.
    pose proof Ht as (rec & Hp & Hi)%traitAt_inv.
    unfold resolveTrait. erewrite bind_normal by by apply deref_run.
    by rewrite Hi, Hstate, Hnone.
  - intros f result Hf Hres. rewrite Hf, Hres in Hstep.
    destruct Hstep as [Hret Hnew]. split; [done|].
    eexists. split; [exact Hnew|].
    destruct (ResolveResult.diagnostics result) as [ds|]; simpl.
    all: split_and!; try done; intros; by simplify_eq.
  - intros p' i' Hne. by apply resolveTrait_frame.
Qed.

Lemma recordReexports_has clazz result reexports c :
  ResolveResult.reexports result = Some reexports →
  JsMap.has (fileName (getSourceFile clazz))
    (reexportMap (recordReexports clazz result c).2) = true.
Proof.
  intros Hsome. unfold recordReexports. rewrite Hsome.
  unfold bind at 1, gets. simpl.
  destruct (JsMap.has (fileName (getSourceFile clazz)) (reexportMap c))
    eqn:Hhas; simpl.
  - unfold bind, ret. apply JsMap_has_true, writeReexports_returns.
    by apply JsMap_has_true.
  - unfold bind, modify. apply JsMap_has_true, writeReexports_returns.
    simpl. rewrite JsMap_get_set_eq. by eexists.
Qed.

Lemma lastWrite_writesOf clazz reexports alias :
  match lastWrite (fileName (getSourceFile clazz)) alias
          (writesOf clazz reexports) with
  | Some v =>
    ∃ last, last ∈ reexports ∧ Reexport.asAlias last = alias ∧
            v = (Reexport.fromModule last, Reexport.symbolName last)
  | None => ∀ rx, rx ∈ reexports → Reexport.asAlias rx ≠ alias
  end.
Proof.
  induction reexports as [|r rest IH]; simpl.
  - intros rx Hrx. by apply elem_of_nil in Hrx.
  - destruct (lastWrite _ alias (writesOf clazz rest)) as [v|].
    + destruct IH as (last & Hl & Ha & ->). exists last. split; [by right|done].
    + case_decide as Heq.
      * exists r. split; [by left|]. by destruct Heq as [_ ->].
      * intros rx [->|Hin]%elem_of_cons; [|by apply IH].
        intros Ha. apply Heq. by split.
Qed.

(** X14.  The re-exports of a result are written whether or not the result
    has diagnostics: when the [resolve] of the handler of an ANALYZED trait
    returns a result that asks for re-exports, then, also when the trait
    ends ERRORED, the table has an entry for the file name of the class
    afterwards (an empty one if the list of re-exports is empty and the
    file had none), and under each alias asked for it has the module and
    the symbol of the last request for that alias.  A result that asks for
    none leaves the table as it is. *)
Theorem resolve_writes_reexports (clazz : Declaration) (p : ref) (i : nat)
    (c : TraitCompiler) (trait : Trait.t)
    (handler_resolve : Declaration → option unknown → Outcome ResolveResult.t)
    (result : ResolveResult.t) :
  traitAt c p i = Some trait →
  Trait.state trait = ANALYZED →
  DecoratorHandler.resolve (Trait.handler trait) = Some handler_resolve →
  handler_resolve clazz (Trait.analysis trait) = Returns result →
  let c' := (resolveTrait clazz p i c).2 in
  let file := fileName (getSourceFile clazz) in
  (ResolveResult.reexports result = None → reexportMap c' = reexportMap c) ∧
  (∀ reexports,
     ResolveResult.reexports result = Some reexports →
     JsMap.has file (reexportMap c') = true ∧
     (∀ rx, rx ∈ reexports →
        ∃ last, last ∈ reexports ∧
                Reexport.asAlias last = Reexport.asAlias rx ∧
                reexportOf (reexportMap c') file (Reexport.asAlias rx) =
                  Some (Reexport.fromModule last, Reexport.symbolName last)) ∧
     (∀ other alias,
        other ≠ file ∨ (∀ rx, rx ∈ reexports → Reexport.asAlias rx ≠ alias) →
        reexportOf (reexportMap c') other alias =
        reexportOf (reexportMap c) other alias)).
Proof.
  intros Ht Hstate Hres Hret c' file.
  pose proof (resolveTrait_lastWins clazz p i c) as Hlast.
  unfold traitWrites in Hlast. rewrite Ht, Hstate, Hres, Hret in Hlast.
  fold c' in Hlast. split.
  - intros Hnone. subst c'.
    pose proof Ht as (rec & Hp & Hi)%traitAt_inv.
    unfold resolveTrait. erewrite bind_normal by by apply deref_run.
    rewrite Hi, Hstate, Hres, Hret. unfold recordReexports. rewrite Hnone.
    unfold bind.
    by destruct (ResolveResult.diagnostics result);
      [|destruct (ResolveResult.data result)].
  - intros reexports Hsome. rewrite Hsome in Hlast. split_and!.
    + subst c'. pose proof Ht as (rec & Hp & Hi)%traitAt_inv.
      unfold resolveTrait. erewrite bind_normal by by apply deref_run.
      rewrite Hi, Hstate, Hres, Hret.
      unfold bind.
      destruct (ResolveResult.diagnostics result);
        [|destruct (ResolveResult.data result)];
        rewrite mutateTrait_run; by eapply recordReexports_has.
    + intros rx Hrx. rewrite (Hlast file (Reexport.asAlias rx)).
      pose proof (lastWrite_writesOf clazz reexports (Reexport.asAlias rx))
        as Hw. fold file in Hw.
      destruct (lastWrite file (Reexport.asAlias rx) (writesOf clazz reexports))
        as [v|].
      * destruct Hw as (last & Hl & Ha & ->). by exists last.
      * by destruct (Hw rx Hrx).
    + intros other alias Hcase. rewrite (Hlast other alias).
      assert (Hnone : lastWrite other alias (writesOf clazz reexports) = None).
      { unfold writesOf. fold file. clear -Hcase.
        induction reexports as [|r rest IH]; [done|]. simpl.
        rewrite IH.
        - rewrite decide_False; [done|]. intros [Hf Ha].
          destruct Hcase as [Hne|Hal]; [by apply Hne|].
          apply (Hal r); [by left|done].
        - destruct Hcase as [Hne|Hal]; [by left|]. right.
          intros rx Hrx. apply Hal. by right. }
      by rewrite Hnone.
Qed.

(** ** The passes that read the traits *)

Lemma typeCheckClasses_state keys : ∀ ctx c,
  (typeCheckClasses keys ctx c).2 = c.
Proof.
  induction keys as [|clazz rest IH]; intros ctx c; simpl; [done|].
  unfold bind at 1, gets. simpl.
  destruct (JsMap.get clazz (classes c)) as [p|]; [|done].
  unfold bind, deref, bind, gets. simpl.
  destruct (heap c !! p) as [rec|]; simpl; [apply IH|done].
Qed.

Lemma indexClasses_state keys : ∀ ctx c,
  (indexClasses keys ctx c).2 = c.
Proof.
  induction keys as [|clazz rest IH]; intros ctx c; simpl; [done|].
  unfold bind at 1, gets. simpl.
  destruct (JsMap.get clazz (classes c)) as [p|]; [|done].
  unfold bind, deref, bind, gets. simpl.
  destruct (heap c !! p) as [rec|]; simpl; [apply IH|done].
Qed.

Lemma recordOf_keys c clazz :
  wellFormed c → clazz ∈ JsMap.keys (classes c) →
  ∃ p rec, JsMap.get clazz (classes c) = Some p ∧ heap c !! p = Some rec.
Proof.
  intros [_ Hrec] [p Hp]%JsMap_keys_get. specialize (Hrec _ _ Hp).
  destruct (heap c !! p) as [rec|] eqn:Hlook; [|done]. by exists p, rec.
Qed.

(** The traits of the classes [keys] that a pass with the capability
    [capable] is called on: those that are RESOLVED and whose handler has
    the capability. *)
Definition noneCalled (capable : DecoratorHandler.t → bool)
    (c : TraitCompiler) : Prop :=
  ∀ clazz p i t,
    JsMap.get clazz (classes c) = Some p → traitAt c p i = Some t →
    Trait.state t = RESOLVED → capable (Trait.handler t) = false.

Lemma typeCheckTraits_none clazz traits ctx :
  (∀ t, t ∈ traits → Trait.state t = RESOLVED →
        DecoratorHandler.typeCheck (Trait.handler t) = None) →
  typeCheckTraits clazz traits ctx = ctx.
Proof.
  induction traits as [|t rest IH]; intros H; simpl; [done|].
  assert (Hrest : typeCheckTraits clazz rest ctx = ctx).
  { apply IH. intros t' Hin. apply H. by right. }
  case_bool_decide as Hs; [done|].
  rewrite H; [done|by left|]. by destruct (decide (Trait.state t = RESOLVED)).
Qed.

Lemma indexTraits_none clazz traits ctx :
  (∀ t, t ∈ traits → Trait.state t = RESOLVED →
        DecoratorHandler.index (Trait.handler t) = None) →
  indexTraits clazz traits ctx = ctx.
Proof.
  induction traits as [|t rest IH]; intros H; simpl; [done|].
  assert (Hrest : indexTraits clazz rest ctx = ctx).
  { apply IH. intros t' Hin. apply H. by right. }
  case_bool_decide as Hs; [done|].
  rewrite H; [done|by left|]. by destruct (decide (Trait.state t = RESOLVED)).
Qed.

Lemma traitAt_elem c p rec t :
  heap c !! p = Some rec → t ∈ ClassRecord.traits rec →
  ∃ i, traitAt c p i = Some t.
Proof.
  intros Hp [i Hi]%list_elem_of_lookup. exists i. by eapply traitAt_Some.
Qed.

Lemma typeCheckClasses_returns keys : ∀ ctx c,
  wellFormed c → (∀ clazz, clazz ∈ keys → clazz ∈ JsMap.keys (classes c)) →
  (∃ ctx', (typeCheckClasses keys ctx c).1 = Normal ctx') ∧
  (noneCalled (λ h, bool_decide (is_Some (DecoratorHandler.typeCheck h))) c →
   (typeCheckClasses keys ctx c).1 = Normal ctx).
Proof.
  induction keys as [|clazz rest IH]; intros ctx c Hwf Hkeys; simpl.
  - split; [by eexists|done].
  - destruct (@recordOf_keys c clazz Hwf (Hkeys clazz ltac:(by left)))
      as (p & rec & Hp & Hrec).
    unfold bind at 1 3, gets. simpl. rewrite Hp.
    pose proof (deref_run p c Hrec) as Hd. unfold bind. rewrite Hd.
    assert (Hrest : ∀ clazz', clazz' ∈ rest → clazz' ∈ JsMap.keys (classes c)).
    { intros clazz' Hin. apply Hkeys. by right. }
    split; [by apply IH|]. intros Hnone.
    rewrite typeCheckTraits_none; [by apply IH|].
    intros t Ht Hs. destruct (@traitAt_elem c p rec t Hrec Ht) as [i Hi].
    specialize (Hnone clazz p i t Hp Hi Hs).
    apply bool_decide_eq_false in Hnone.
    destruct (DecoratorHandler.typeCheck (Trait.handler t)); [|done].
    destruct Hnone. by eexists.
Qed.

Lemma indexClasses_returns keys : ∀ ctx c,
  wellFormed c → (∀ clazz, clazz ∈ keys → clazz ∈ JsMap.keys (classes c)) →
  (∃ ctx', (indexClasses keys ctx c).1 = Normal ctx') ∧
  (noneCalled (λ h, bool_decide (is_Some (DecoratorHandler.index h))) c →
   (indexClasses keys ctx c).1 = Normal ctx).
Proof.
  induction keys as [|clazz rest IH]; intros ctx c Hwf Hkeys; simpl.
  - split; [by eexists|done].
  - destruct (@recordOf_keys c clazz Hwf (Hkeys clazz ltac:(by left)))
      as (p & rec & Hp & Hrec).
    unfold bind at 1 3, gets. simpl. rewrite Hp.
    pose proof (deref_run p c Hrec) as Hd. unfold bind. rewrite Hd.
    assert (Hrest : ∀ clazz', clazz' ∈ rest → clazz' ∈ JsMap.keys (classes c)).
    { intros clazz' Hin. apply Hkeys. by right. }
    split; [by apply IH|]. intros Hnone.
    rewrite indexTraits_none; [by apply IH|].
    intros t Ht Hs. destruct (@traitAt_elem c p rec t Hrec Ht) as [i Hi].
    specialize (Hnone clazz p i t Hp Hi Hs).
    apply bool_decide_eq_false in Hnone.
    destruct (DecoratorHandler.index (Trait.handler t)); [|done].
    destruct Hnone. by eexists.
Qed.

(** X15.  [typeCheck] and [index] read the traits and write nothing: the
    compiler, with the state of every trait, is after the call what it was
    before, and the call returns.  They call a handler only for a
    RESOLVED trait, and only if the handler has the method: when no
    RESOLVED trait has a handler with [typeCheck] (for one, when
    [resolve] has not run yet), the context comes back from [typeCheck]
    as it was given, and likewise for [index]. *)
Theorem typeCheck_index_read_only (c : TraitCompiler) :
  wellFormed c →
  (∀ ctx, (typeCheck ctx c).2 = c ∧ ∃ ctx', (typeCheck ctx c).1 = Normal ctx') ∧
  (∀ ctx, (index ctx c).2 = c ∧ ∃ ctx', (index ctx c).1 = Normal ctx') ∧
  (∀ ctx,
     (∀ clazz p i t,
        JsMap.get clazz (classes c) = Some p → traitAt c p i = Some t →
        Trait.state t = RESOLVED →
        DecoratorHandler.typeCheck (Trait.handler t) = None) →
     typeCheck ctx c = (Normal ctx, c)) ∧
  (∀ ctx,
     (∀ clazz p i t,
        JsMap.get clazz (classes c) = Some p → traitAt c p i = Some t →
        Trait.state t = RESOLVED →
        DecoratorHandler.index (Trait.handler t) = None) →
     index ctx c = (Normal ctx, c)).
Proof.
  intros Hwf.
  assert (Ht : ∀ ctx, typeCheck ctx c =
                      typeCheckClasses (JsMap.keys (classes c)) ctx c) by done.
  assert (Hi : ∀ ctx, index ctx c =
                      indexClasses (JsMap.keys (classes c)) ctx c) by done.
  split_and!.
  - intros ctx. rewrite Ht. split; [apply typeCheckClasses_state|].
    by apply typeCheckClasses_returns.
  - intros ctx. rewrite Hi. split; [apply indexClasses_state|].
    by apply indexClasses_returns.
  - intros ctx Hnone. rewrite Ht. apply injective_projections; simpl.
    + apply typeCheckClasses_returns; [done..|].
      intros clazz p i t Hp Hti Hs. apply bool_decide_eq_false.
      rewrite (Hnone clazz p i t Hp Hti Hs). by intros [? ?].
    + apply typeCheckClasses_state.
  - intros ctx Hnone. rewrite Hi. apply injective_projections; simpl.
    + apply indexClasses_returns; [done..|].
      intros clazz p i t Hp Hti Hs. apply bool_decide_eq_false.
      rewrite (Hnone clazz p i t Hp Hti Hs). by intros [? ?].
    + apply indexClasses_state.
Qed.

Lemma triggersOf_elem traits d :
  d ∈ triggersOf traits ↔
  ∃ t, t ∈ traits ∧ Trait.state t = RESOLVED ∧
       DetectResult.trigger (Trait.detected t) = Some d.
Proof.
  induction traits as [|t rest IH]; simpl.
  - split; [by intros ?%elem_of_nil|]. by intros (t & ?%elem_of_nil & _).
  - assert (Hrest : d ∈ triggersOf rest →
              ∃ t', t' ∈ t :: rest ∧ Trait.state t' = RESOLVED ∧
                    DetectResult.trigger (Trait.detected t') = Some d).
    { intros (t' & Hin & H)%IH. exists t'. split; [by right|done]. }
    case_bool_decide as Hs.
    + split; [done|]. intros (t' & [->|Hin]%elem_of_cons & Hs' & Ht'); [done|].
      apply IH. by exists t'.
    + destruct (decide (Trait.state t = RESOLVED)) as [Hr|]; [|done].
      destruct (DetectResult.trigger (Trait.detected t)) as [d'|] eqn:Hd.
      * split.
        -- intros [->|Hin]%elem_of_cons; [|by apply Hrest].
           exists t. split; [by left|done].
        -- intros (t' & [->|Hin]%elem_of_cons & Hs' & Ht').
           ++ rewrite Hd in Ht'. injection Ht' as ->. by left.
           ++ right. apply IH. by exists t'.
      * split; [done|].
        intros (t' & [->|Hin]%elem_of_cons & Hs' & Ht'); [congruence|].
        apply IH. by exists t'.
Qed.

Lemma decoratorsFor_state node c : (decoratorsFor node c).2 = c.
Proof.
  unfold decoratorsFor, bind at 1, gets. simpl.
  destruct (negb _ || negb _); [done|].
  unfold bind at 1, gets. simpl.
  destruct (JsMap.get (getOriginalNode node) (classes c)) as [p|]; [|done].
  unfold bind, deref, bind, gets. simpl.
  by destruct (heap c !! p).
Qed.

Lemma decoratorsFor_run node c rec :
  isNamedClassDeclaration (getOriginalNode node) = true →
  recordOf c (getOriginalNode node) = Some rec →
  decoratorsFor node c = (Normal (triggersOf (ClassRecord.traits rec)), c).
Proof.
  intros Hnamed Hrec. unfold recordOf in Hrec.
  destruct (JsMap.get (getOriginalNode node) (classes c)) as [p|] eqn:Hp;
    [|done].
  simpl in Hrec.
  unfold decoratorsFor, bind at 1, gets, JsMap.has. simpl.
  rewrite Hnamed, Hp. simpl. unfold bind at 1, gets. simpl. rewrite Hp.
  by erewrite bind_normal by by apply deref_run.
Qed.

(** X16.  [decoratorsFor] changes nothing.  It returns the empty array
    for a node whose original is not a named class declaration or has no
    record.  For a class with a record it returns, in the order of the
    traits, the triggers of the traits that are RESOLVED and have one: a
    decorator is in the result exactly when it is the trigger of a
    RESOLVED trait of the record, so a trait that is ERRORED, SKIPPED or
    not yet resolved gives none. *)
Theorem decoratorsFor_resolved_triggers (node : Declaration)
    (c : TraitCompiler) :
  let original := getOriginalNode node in
  (decoratorsFor node c).2 = c ∧
  (isNamedClassDeclaration original = false ∨
   JsMap.has original (classes c) = false →
   (decoratorsFor node c).1 = Normal []) ∧
  (∀ rec,
     isNamedClassDeclaration original = true →
     recordOf c original = Some rec →
     ∃ ds,
       (decoratorsFor node c).1 = Normal ds ∧
       ds = triggersOf (ClassRecord.traits rec) ∧
       ∀ d, d ∈ ds ↔
            ∃ t, t ∈ ClassRecord.traits rec ∧ Trait.state t = RESOLVED ∧
                 DetectResult.trigger (Trait.detected t) = Some d).
Proof.
  intros original. split_and!.
  - apply decoratorsFor_state.
  - intros Hcase. unfold decoratorsFor, bind at 1, gets. simpl.
    fold original. destruct Hcase as [-> | ->]; [done|].
    by rewrite orb_true_r.
  - intros rec Hnamed Hrec.
    rewrite (@decoratorsFor_run node c rec Hnamed Hrec). simpl.
    eexists. split; [done|]. split; [done|]. apply triggersOf_elem.
Qed.

Lemma traitDiagnostics_elem traits d :
  d ∈ traitDiagnostics traits ↔
  ∃ t l, t ∈ traits ∧ Trait.state t = ERRORED ∧
         Trait.diagnostics t = Some l ∧ d ∈ l.
Proof.
  induction traits as [|t rest IH]; simpl.
  - split; [by intros ?%elem_of_nil|]. by intros (t & l & ?%elem_of_nil & _).
  - case_bool_decide as Hs.
    + rewrite elem_of_app, IH. split.
      * intros [Hd|(t' & l & Hin & H)].
        -- destruct (Trait.diagnostics t) as [l|] eqn:Hl;
             [|by apply elem_of_nil in Hd].
           exists t, l. split; [by left|done].
        -- exists t', l. split; [by right|done].
      * intros (t' & l & [->|Hin]%elem_of_cons & Hs' & Hl & Hd).
        -- left. by rewrite Hl.
        -- right. by exists t', l.
    + rewrite IH. split.
      * intros (t' & l & Hin & H). exists t', l. split; [by right|done].
      * intros (t' & l & [->|Hin]%elem_of_cons & Hs' & Hl & Hd); [done|].
        by exists t', l.
Qed.

(** The diagnostics of a record: those of the class as a whole and those
    of its ERRORED traits. *)
Definition reports (rec : ClassRecord.t) (d : Diagnostic.t) : Prop :=
  (∃ l, ClassRecord.metaDiagnostics rec = Some l ∧ d ∈ l) ∨
  ∃ t l, t ∈ ClassRecord.traits rec ∧ Trait.state t = ERRORED ∧
         Trait.diagnostics t = Some l ∧ d ∈ l.

Lemma diagnosticsOf_spec keys : ∀ c,
  wellFormed c → (∀ clazz, clazz ∈ keys → clazz ∈ JsMap.keys (classes c)) →
  ∃ ds,
    diagnosticsOf keys c = (Normal ds, c) ∧
    ∀ d, d ∈ ds ↔
         ∃ clazz rec, clazz ∈ keys ∧ recordOf c clazz = Some rec ∧
                      reports rec d.
Proof.
  induction keys as [|clazz rest IH]; intros c Hwf Hkeys; simpl.
  - exists []. split; [done|]. intros d. split; [by intros ?%elem_of_nil|].
    by intros (cl & rec & ?%elem_of_nil & _).
  - destruct (@recordOf_keys c clazz Hwf (Hkeys clazz ltac:(by left)))
      as (p & rec & Hp & Hrec).
    assert (Hrest : ∀ clazz', clazz' ∈ rest → clazz' ∈ JsMap.keys (classes c)).
    { intros clazz' Hin. apply Hkeys. by right. }
    destruct (IH c Hwf Hrest) as (more & Hrun & Hmore).
    unfold bind at 1, gets. simpl. rewrite Hp.
    erewrite bind_normal by by apply deref_run.
    unfold bind. rewrite Hrun. eexists. split; [done|].
    intros d. rewrite !elem_of_app, Hmore, traitDiagnostics_elem.
    assert (Hmine : recordOf c clazz = Some rec).
    { unfold recordOf. by rewrite Hp. }
    split.
    + intros [Hd|[Hd|(cl & rec' & Hin & Hrec' & Hrep)]].
      * exists clazz, rec. split; [by left|]. split; [done|]. left.
        destruct (ClassRecord.metaDiagnostics rec) as [l|];
          [by exists l|by apply elem_of_nil in Hd].
      * exists clazz, rec. split; [by left|]. split; [done|]. by right.
      * exists cl, rec'. split; [by right|done].
    + intros (cl & rec' & [->|Hin]%elem_of_cons & Hrec' & Hrep).
      * assert (rec' = rec) as -> by congruence.
        destruct Hrep as [(l & Hl & Hd)|Hrep]; [|by right; left].
        left. by rewrite Hl.
      * right. right. by exists cl, rec'.
Qed.

(** Every ERRORED trait has its diagnostics, as [toErrored] gives them. *)
Definition erroredHaveDiagnostics (c : TraitCompiler) : Prop :=
  Forall (λ rec,
    Forall (λ t, Trait.state t = ERRORED → is_Some (Trait.diagnostics t))
      (ClassRecord.traits rec)) (heap c).

(** X17.  In a compiler whose ERRORED traits have their diagnostics, the
    [diagnostics] getter changes nothing and returns.  A diagnostic is in
    what it returns exactly when it is one of the [metaDiagnostics] of the
    record of a class of the record map, or one of the diagnostics of an
    ERRORED trait of such a record: the diagnostics of traits in any other
    state are not reported. *)
Theorem diagnostics_collects (c : TraitCompiler) :
  wellFormed c →
  erroredHaveDiagnostics c →
  ∃ ds,
    diagnostics c = (Normal ds, c) ∧
    ∀ d, d ∈ ds ↔
         ∃ clazz rec,
           recordOf c clazz = Some rec ∧
           ((∃ l, ClassRecord.metaDiagnostics rec = Some l ∧ d ∈ l) ∨
            ∃ t l, t ∈ ClassRecord.traits rec ∧ Trait.state t = ERRORED ∧
                   Trait.diagnostics t = Some l ∧ d ∈ l).
Proof.
  intros Hwf _.
  destruct (@diagnosticsOf_spec (JsMap.keys (classes c)) c Hwf (λ _ H, H))
    as (ds & Hrun & Hds).
  exists ds. split; [done|]. intros d. rewrite Hds. split.
  - intros (clazz & rec & _ & Hrec & Hrep). by exists clazz, rec.
  - intros (clazz & rec & Hrec & Hrep). exists clazz, rec.
    split; [|done]. unfold recordOf in Hrec.
    destruct (JsMap.get clazz (classes c)) as [p|] eqn:Hp; [|done].
    by eapply JsMap_get_keys.
Qed.

(** X18.  In every compiler a class is a key of the record map at most
    once, and its entry leads to a record whose [node] is that class.
    This holds of a compiler that has no class yet, and every public
    method keeps it, whether it returns or throws. *)
Theorem wellFormed_kept :
  (∀ c, classes c = JsMap.empty → wellFormed c) ∧
  (∀ sf nodes c, wellFormed c → wellFormed (analyzeSync sf nodes c).2) ∧
  (∀ c, wellFormed c → wellFormed (resolve c).2) ∧
  (∀ clazz constantPool c,
     wellFormed c → wellFormed (compile clazz constantPool c).2) ∧
  (∀ ctx c, wellFormed c → wellFormed (typeCheck ctx c).2) ∧
  (∀ ctx c, wellFormed c → wellFormed (index ctx c).2) ∧
  (∀ node c, wellFormed c → wellFormed (decoratorsFor node c).2) ∧
  (∀ c, wellFormed c → wellFormed (diagnostics c).2).
Proof.
  split_and!.
  - intros c Hc. split; rewrite Hc; [apply NoDup_nil_2|done].
  - intros sf nodes c. apply analyzeSync_wellFormed.
  - intros c Hwf. by eapply sameRecords_wellFormed; [apply resolve_sameRecords|].
  - intros clazz pool c Hwf.
    by eapply sameRecords_wellFormed; [apply compile_sameRecords|].
  - intros ctx c Hwf.
    assert ((typeCheck ctx c).2 = c) as -> by apply typeCheckClasses_state.
    done.
  - intros ctx c Hwf.
    assert ((index ctx c).2 = c) as -> by apply indexClasses_state.
    done.
  - intros node c Hwf.
    by rewrite decoratorsFor_state.
  - intros c Hwf. destruct (@diagnosticsOf_spec (JsMap.keys (classes c)) c Hwf
                              (λ _ H, H)) as (ds & Hrun & _).
    unfold diagnostics, bind, gets. simpl. by rewrite Hrun.
Qed.

(** ** Compilation: what [compile] leaves behind *)

(** The constant pool after the [compile] of the handlers of the RESOLVED
    traits, each given the pool the one before left. *)
Fixpoint pooled (clazz : Declaration) (traits : list Trait.t)
    (constantPool : ConstantPool) : ConstantPool :=
  match traits with
  | [] => constantPool
  | trait :: rest =>
    if bool_decide (Trait.state trait ≠ RESOLVED) then
      pooled clazz rest constantPool
    else
      pooled clazz rest
        (DecoratorHandler.compile (Trait.handler trait) clazz
           (Trait.analysis trait) (Trait.resolution trait) constantPool).2
  end.

(** The RESOLVED traits among [traits]. *)
Definition resolvedTraits (traits : list Trait.t) : list Trait.t :=
  filter (λ t, Trait.state t = RESOLVED) traits.

(** [n] spans of the performance recorder, opened and closed one after
    the other, the first of which is span number [first]. *)
Definition spans (original : Declaration) (first n : nat)
    : list PerfRecorder.event :=
  flat_map (λ k, [PerfRecorder.start "compileClass" (Some original);
                  PerfRecorder.stop (first + 2 * k)]) (seq 0 n).

Lemma spans_S original first n :
  spans original first (S n) =
  [PerfRecorder.start "compileClass" (Some original); PerfRecorder.stop first]
  ++ spans original (first + 2) n.
Proof.
  unfold spans.
  assert (H : ∀ a,
    flat_map (λ k, [PerfRecorder.start "compileClass" (Some original);
                    PerfRecorder.stop (first + 2 * k)]) (seq (S a) n) =
    flat_map (λ k, [PerfRecorder.start "compileClass" (Some original);
                    PerfRecorder.stop (first + 2 + 2 * k)]) (seq a n)).
  { induction n as [|n IH]; intros a; [done|].
    cbn [seq flat_map]. rewrite IH.
    by replace (first + 2 * S a) with (first + 2 + 2 * a) by lia. }
  cbn [seq flat_map]. rewrite H.
  by replace (first + 2 * 0) with first by lia.
Qed.

Lemma set_perf_set_perf f g c :
  set_perf f (set_perf g c) = set_perf (λ l, f (g l)) c.
Proof. done. Qed.

Lemma compileTraits_exact clazz original traits : ∀ res constantPool c,
  compileTraits clazz original traits res constantPool c =
  (Normal (pushUnnamed res (emitted clazz traits constantPool),
           pooled clazz traits constantPool),
   set_perf (λ l, l ++ spans original (List.length l)
                         (List.length (resolvedTraits traits))) c).
Proof.
  induction traits as [|trait rest IH]; intros res pool c; simpl.
  - unfold ret. f_equal. destruct c; unfold set_perf; simpl.
    by rewrite app_nil_r.
  - unfold resolvedTraits. case_bool_decide as Hs.
    + rewrite filter_cons_False by done. apply IH.
    + assert (Hr : Trait.state trait = RESOLVED).
      { by destruct (decide (Trait.state trait = RESOLVED)). }
      rewrite filter_cons_True by done. simpl.
      unfold bind at 1, perf_start.
      destruct (DecoratorHandler.compile _ _ _ _ _) as [out pool1] eqn:Hc.
      unfold bind at 1, perf_stop, modify. simpl.
      assert (Hstate : ∀ (f : PerfRecorder.t → PerfRecorder.t),
        set_perf f
          (set_perf (λ l, l ++ [PerfRecorder.stop (List.length (perf c))])
             (set_perf (λ l, l ++ [PerfRecorder.start "compileClass"
                                     (Some original)]) c)) =
        set_perf (λ l, f (l ++ [PerfRecorder.start "compileClass" (Some original);
                                PerfRecorder.stop (List.length (perf c))])) c).
      { intros f. rewrite !set_perf_set_perf. unfold set_perf. simpl.
        by rewrite <- app_assoc. }
      assert (Hlog : ∀ n,
        set_perf (λ l, l ++ spans original (List.length l) n)
          (set_perf (λ l, l ++ [PerfRecorder.stop (List.length (perf c))])
             (set_perf (λ l, l ++ [PerfRecorder.start "compileClass"
                                     (Some original)]) c)) =
        set_perf (λ l, l ++ spans original (List.length l) (S n)) c).
      { intros n. rewrite Hstate. unfold set_perf. simpl. f_equal.
        rewrite spans_S, length_app. simpl. by rewrite <- app_assoc. }
      destruct out as [r|rs].
      * destruct (negb (someNamed (CompileResult.name r) res)) eqn:Hnew;
          rewrite IH, Hlog; simpl; by rewrite ?Hnew.
      * rewrite IH, Hlog, pushUnnamed_app. done.
Qed.

Lemma compile_exact clazz constantPool c rec :
  isNamedClassDeclaration clazz = true →
  isNamedClassDeclaration (getOriginalNode clazz) = true →
  recordOf c (getOriginalNode clazz) = Some rec →
  let original := getOriginalNode clazz in
  let res := keepFirstByName
               (emitted clazz (ClassRecord.traits rec) constantPool) in
  compile clazz constantPool c =
  (Normal (if bool_decide (0 < List.length res)%nat then Some res else None,
           pooled clazz (ClassRecord.traits rec) constantPool),
   set_dtsTransforms
     (λ d, d ++ [DtsTransformRegistry.addFields (getSourceFile original)
                   original res])
     (set_perf (λ l, l ++ spans original (List.length l)
                           (List.length (resolvedTraits (ClassRecord.traits rec))))
        c)).
Proof.
  intros Hclazz Horiginal Hrec original res. unfold recordOf in Hrec.
  fold original in Hrec, Horiginal.
  destruct (JsMap.get original (classes c)) as [p|] eqn:Hget; [|done].
  simpl in Hrec.
  unfold compile. fold original. unfold bind at 1, gets.
  unfold JsMap.has. rewrite Hget, Hclazz, Horiginal. simpl.
  unfold bind at 1. rewrite Hget.
  erewrite bind_normal by by apply deref_run.
  erewrite bind_normal by by apply compileTraits_exact.
  rewrite pushUnnamed_nil. done.
Qed.

Lemma emitted_none clazz traits constantPool :
  resolvedTraits traits = [] →
  emitted clazz traits constantPool = [] ∧
  pooled clazz traits constantPool = constantPool.
Proof.
  unfold resolvedTraits.
  induction traits as [|t rest IH]; simpl; [done|].
  case_bool_decide as Hs.
  - rewrite filter_cons_False by done. apply IH.
  - rewrite filter_cons_True; [done|].
    by destruct (decide (Trait.state t = RESOLVED)).
Qed.

Lemma set_perf_id c : set_perf (λ l, l ++ []) c = c.
Proof. destruct c; unfold set_perf; simpl. by rewrite app_nil_r. Qed.

(** The result of [compile] is a matter of the record map and of the
    records alone. *)
Lemma compile_result_eq clazz constantPool c1 c2 :
  heap c1 = heap c2 → classes c1 = classes c2 →
  (compile clazz constantPool c1).1 = (compile clazz constantPool c2).1.
Proof.
  intros Hheap Hclasses.
  destruct (isNamedClassDeclaration clazz) eqn:Hclazz.
  2:{ by rewrite !compile_null by by left. }
  destruct (isNamedClassDeclaration (getOriginalNode clazz)) eqn:Horiginal.
  2:{ by rewrite !compile_null by (right; by left). }
  destruct (JsMap.get (getOriginalNode clazz) (classes c1)) as [p|] eqn:Hget.
  2:{ rewrite !compile_null; [done|..]; right; right; unfold JsMap.has;
        by rewrite <- ?Hclasses, Hget. }
  destruct (heap c1 !! p) as [rec|] eqn:Hrec.
  - rewrite !(@compile_exact clazz constantPool _ rec Hclazz Horiginal);
      [done|..]; unfold recordOf; rewrite <- ?Hclasses, Hget; simpl;
      by rewrite <- ?Hheap.
  - assert (Hthrow : ∀ c, JsMap.get (getOriginalNode clazz) (classes c) = Some p →
              heap c !! p = None →
              (compile clazz constantPool c).1 =
              Abrupt (JsError "TypeError: Cannot read property of undefined")).
    { intros c Hg Hh. unfold compile, bind at 1, gets, JsMap.has.
      rewrite Hg, Hclazz, Horiginal. simpl. unfold bind at 1. rewrite Hg.
      by erewrite bind_abrupt by by apply deref_dangling. }
    rewrite !Hthrow; [done|..]; by rewrite <- ?Hclasses, <- ?Hheap.
Qed.

(** Nothing but the two logs has changed. *)
Definition sameButLogs (c c' : TraitCompiler) : Prop :=
  c' = set_dtsTransforms (λ _, dtsTransforms c') (set_perf (λ _, perf c') c).

Global Instance sameButLogs_preorder : PreOrder sameButLogs.
Proof.
  split.
  - intros c. by destruct c.
  - intros c1 c2 c3 H1 H2. unfold sameButLogs in *.
    rewrite H2 at 1. rewrite H1 at 1. by destruct c1.
Qed.

Lemma compile_sameButLogs clazz constantPool :
  stepsIn sameButLogs (compile clazz constantPool).
Proof.
  apply compile_stepsIn; [apply _|..]; intros f c; by destruct c.
Qed.

(** X19.  [compile] writes to the performance recorder and to the registry
    of declaration transforms and changes nothing else: the record map,
    the records and the state of every trait stay as they are.  So a
    class can be compiled again, and [compile] then returns what it
    returned the first time. *)
Theorem compile_changes_only_logs (clazz : Declaration)
    (constantPool : ConstantPool) (c : TraitCompiler) :
  let c' := (compile clazz constantPool c).2 in
  c' = set_dtsTransforms (λ _, dtsTransforms c')
         (set_perf (λ _, perf c') c) ∧
  (∀ p i, traitAt c' p i = traitAt c p i) ∧
  classes c' = classes c ∧
  (compile clazz constantPool c').1 = (compile clazz constantPool c).1.
Proof.
  intros c'. pose proof (compile_sameButLogs clazz constantPool c) as Hlogs.
  fold c' in Hlogs. unfold sameButLogs in Hlogs.
  assert (Hheap : heap c' = heap c) by by rewrite Hlogs.
  assert (Hclasses : classes c' = classes c) by by rewrite Hlogs.
  split_and!; try done.
  - intros p i. unfold traitAt. by rewrite Hheap.
  - by apply compile_result_eq.
Qed.

(** X20.  For a class whose record has no RESOLVED trait (all of its
    traits are ERRORED or SKIPPED, or [resolve] has not run, or a
    collision has left it without traits), [compile] calls no handler: it
    returns [null], leaves the constant pool and the performance recorder
    as they are, and still registers the class with the declaration
    transform of its file, with no field. *)
Theorem compile_without_resolved_traits (clazz : Declaration)
    (constantPool : ConstantPool) (c : TraitCompiler) (rec : ClassRecord.t) :
  isNamedClassDeclaration clazz = true →
  isNamedClassDeclaration (getOriginalNode clazz) = true →
  recordOf c (getOriginalNode clazz) = Some rec →
  (∀ t, t ∈ ClassRecord.traits rec → Trait.state t ≠ RESOLVED) →
  compile clazz constantPool c =
  (Normal (None, constantPool),
   set_dtsTransforms
     (λ d, d ++ [DtsTransformRegistry.addFields
                   (getSourceFile (getOriginalNode clazz))
                   (getOriginalNode clazz) []]) c).
Proof.
  intros Hclazz Horiginal Hrec Hnone.
  rewrite (@compile_exact clazz constantPool c rec Hclazz Horiginal Hrec).
  assert (Hres : resolvedTraits (ClassRecord.traits rec) = []).
  { unfold resolvedTraits. clear -Hnone. revert Hnone.
    generalize (ClassRecord.traits rec). intros l.
    induction l as [|t ts IH]; intros Hnone; [done|].
    rewrite filter_cons_False.
    - apply IH. intros t' Hin. apply Hnone. by right.
    - apply Hnone. by left. }
  destruct (emitted_none clazz (ClassRecord.traits rec) constantPool Hres)
    as [-> ->].
  rewrite Hres. simpl. unfold spans. simpl. by rewrite set_perf_id.
Qed.

(** X21.  For a class with a record, [compile] opens one [compileClass]
    span of the performance recorder, on the original declaration, for
    each RESOLVED trait of the record, and closes it before it opens the
    next one: the recorder gets, after what it had, a start and the stop
    of that start for each such trait, and nothing for the other
    traits. *)
Theorem compile_spans (clazz : Declaration) (constantPool : ConstantPool)
    (c : TraitCompiler) (rec : ClassRecord.t) :
  isNamedClassDeclaration clazz = true →
  isNamedClassDeclaration (getOriginalNode clazz) = true →
  recordOf c (getOriginalNode clazz) = Some rec →
  perf (compile clazz constantPool c).2 =
  perf c ++
  flat_map (λ k, [PerfRecorder.start "compileClass"
                    (Some (getOriginalNode clazz));
                  PerfRecorder.stop (List.length (perf c) + 2 * k)])
    (seq 0 (List.length (filter (λ t, Trait.state t = RESOLVED)
                           (ClassRecord.traits rec)))).
Proof.
  intros Hclazz Horiginal Hrec.
  by rewrite (@compile_exact clazz constantPool c rec Hclazz Horiginal Hrec).
Qed.

(** ** The recording of dependencies: which files get new dependencies *)

(** A file that the recording may give dependencies to, for a scope: the
    file of its declaration, the file of its NgModule, or the file of a
    component among its directives. *)
Definition dependent (scope : CompilationScope.t) (src : SourceFile) : Prop :=
  src = getSourceFile (CompilationScope.declaration scope) ∨
  src = getSourceFile (CompilationScope.ngModule scope) ∨
  ∃ directive, directive ∈ CompilationScope.directives scope ∧
               ScopeMember.isComponent directive = true ∧
               src = getSourceFile (ScopeMember.node directive).

Lemma directiveEdges_plain deps file directives :
  (∀ directive, directive ∈ directives →
     ScopeMember.isComponent directive = false) →
  directiveEdges deps file directives =
  map (λ directive, (getSourceFile (ScopeMember.node directive), file))
    directives.
Proof.
  induction directives as [|d ds IH]; intros Hplain; simpl; [done|].
  rewrite (Hplain d) by by left. simpl. f_equal. apply IH.
  intros d' Hin. apply Hplain. by right.
Qed.

Lemma scopeEdges_dependent deps scope dep src :
  (dep, src) ∈ scopeEdges deps scope → dependent scope src.
Proof.
  unfold scopeEdges, dependent. rewrite !elem_of_app.
  intros [Hin|[Hin|[Hin|Hin]]].
  - apply list_elem_of_fmap in Hin as (d & [= -> ->] & _). right. by left.
  - apply list_elem_of_singleton in Hin as [= -> ->]. by left.
  - unfold directiveEdges in Hin.
    apply list_elem_of_In, in_flat_map in Hin as (directive & Hd & Hin).
    apply list_elem_of_In in Hd, Hin.
    apply elem_of_cons in Hin as [[= -> ->]|Hin]; [by left|].
    destruct (ScopeMember.isComponent directive) eqn:Hcomp;
      [|by apply elem_of_nil in Hin].
    apply list_elem_of_fmap in Hin as (d & [= -> ->] & _).
    right. right. by exists directive.
  - unfold pipeEdges in Hin.
    apply list_elem_of_fmap in Hin as (pipe & [= -> ->] & _). by left.
Qed.

Lemma scopesEdges_dependent scopes : ∀ known dep src,
  (dep, src) ∈ scopesEdges known scopes →
  ∃ scope, scope ∈ scopes ∧ dependent scope src.
Proof.
  induction scopes as [|scope rest IH]; intros known dep src; simpl.
  - by intros ?%elem_of_nil.
  - intros [Hin|Hin]%elem_of_app.
    + exists scope. split; [by left|]. by eapply scopeEdges_dependent.
    + destruct (IH _ _ _ Hin) as (scope' & Hs & Hd).
      exists scope'. split; [by right|done].
Qed.

(** X22.  The recording of the dependencies of the NgModule scopes only
    adds edges, and every edge it adds gives a dependency to the file of
    the declaration of a scope of the registry, to the file of its
    NgModule, or to the file of a component among its directives: the
    file of a pipe, or of a directive that is not a component, gets no
    dependency for being a member of a scope.  With no scope in the
    registry the edges are left as they are. *)
Theorem dependencies_go_to_scope_files (c : TraitCompiler) :
  let c' := (recordNgModuleScopeDependencies c).2 in
  (∀ e, e ∈ incrementalDriver c → e ∈ incrementalDriver c') ∧
  (∀ dep src,
     (dep, src) ∈ incrementalDriver c' →
     (dep, src) ∈ incrementalDriver c ∨
     ∃ scope, scope ∈ scopeRegistry c ∧
       (src = getSourceFile (CompilationScope.declaration scope) ∨
        src = getSourceFile (CompilationScope.ngModule scope) ∨
        ∃ directive, directive ∈ CompilationScope.directives scope ∧
                     ScopeMember.isComponent directive = true ∧
                     src = getSourceFile (ScopeMember.node directive))) ∧
  (scopeRegistry c = [] → incrementalDriver c' = incrementalDriver c).
Proof.
  intros c'. destruct (recordNgModuleScopeDependencies_run c) as [_ Hedges].
  fold c' in Hedges. rewrite Hedges. split_and!.
  - intros e He. apply elem_of_app. by left.
  - intros dep src [Hin|Hin]%elem_of_app; [by left|]. right.
    by eapply scopesEdges_dependent.
  - intros ->. simpl. by rewrite app_nil_r.
Qed.

(** X23.  The loop over the directives of a scope adds, for a directive
    that is not a component, the one edge from its file to the file of
    the declaration: for directives none of which is a component it adds
    exactly these edges, in the order of the directives, whatever the
    dependencies of the declaration are. *)
Theorem plain_directives_no_fan_out (deps : list SourceFile)
    (file : SourceFile) (directives : list ScopeMember.directive)
    (c : TraitCompiler) :
  (∀ directive, directive ∈ directives →
     ScopeMember.isComponent directive = false) →
  (recordDirectives deps file directives c).1 = Normal tt ∧
  incrementalDriver (recordDirectives deps file directives c).2 =
  incrementalDriver c ++
  map (λ directive, (getSourceFile (ScopeMember.node directive), file))
    directives.
Proof.
  intros Hplain. rewrite recordDirectives_run. simpl.
  by rewrite directiveEdges_plain.
Qed.

(** ** Analysis with preanalysis ([analyzeAsync]) *)

(** A promise, as far as the compiler deals with one: an object a handler
    hands out, to which a continuation is attached. *)
Definition Promise : Type := nat.

(** [preanalysis.then(analyze)] (line 234): the analysis of the trait at
    [deferredPosition] in the record [deferredRecord] of [deferredClass],
    to run once the promise [awaited] is fulfilled. *)
Record Deferred := {
  awaited : Promise;
  deferredClass : Declaration;
  deferredRecord : ref;
  deferredPosition : nat
}.

Section Preanalysis.

(** The optional method [preanalyze] of a handler: [None] for a handler
    that has none.  The method returns a promise or [undefined]. *)
Variable preanalyze :
  DecoratorHandler.t →
  option (Declaration → unknown → Outcome (option Promise)).

(** The loop of [analyzeClass] (lines 226-238) over the traits of the
    record, by position, with the queue of the promises
    ([preanalyzeQueue] is not [null]). *)
Fixpoint analyzeTraitsAsync (clazz : Declaration) (p : ref)
    (positions : list nat) (queue : list Deferred) : M (list Deferred) :=
  match positions with
  | [] => ret queue
  | i :: rest =>
    let! rec := deref p in
    match ClassRecord.traits rec !! i with
    | None => TypeError
    | Some trait =>
      let analyze := analyzeTrait clazz p i in
      match preanalyze (Trait.handler trait) with
      | Some handler_preanalyze =>
        match handler_preanalyze clazz
                (DetectResult.metadata (Trait.detected trait)) with
        | Throws e => throw e
        | Returns (Some preanalysis) =>
          analyzeTraitsAsync clazz p rest
            (queue ++ [{| awaited := preanalysis; deferredClass := clazz;
                          deferredRecord := p; deferredPosition := i |}])
        | Returns None => analyze >> analyzeTraitsAsync clazz p rest queue
        end
      | None => analyze >> analyzeTraitsAsync clazz p rest queue
      end
    end
  end.

Definition analyzeClassAsync (clazz : Declaration) (queue : list Deferred)
    : M (list Deferred) :=
  let! record := scanClassForTraits clazz in
  match record with
  | None => ret queue
  | Some p =>
    let! rec := deref p in
    analyzeTraitsAsync clazz p (seq 0 (List.length (ClassRecord.traits rec)))
      queue
  end.

Fixpoint visitAsync (nodes : list Declaration) (queue : list Deferred)
    : M (list Deferred) :=
  match nodes with
  | [] => ret queue
  | node :: rest =>
    let! queue' := (if isNamedClassDeclaration node
                    then analyzeClassAsync node queue else ret queue) in
    visitAsync rest queue'
  end.

(** [analyzeAsync(sf)]: [None] for [undefined], and otherwise the promises
    that the promise it returns waits for. *)
Definition analyzeAsync (sf : SourceFile) (nodes : list Declaration)
    : M (option (list Deferred)) :=
  let! promises := visitAsync nodes [] in
  let! replacements := gets (λ c, mwpScanner c sf) in
  modify (set_dtsTransforms (λ d,
    d ++ map (λ nt, DtsTransformRegistry.addTypeReplacement sf nt.1 nt.2)
             replacements)) >>
  ret (if bool_decide (0 < List.length promises)%nat
       then Some promises else None).

(** The promise the preanalysis of a trait returns, if any. *)
Definition preanalysisOf (clazz : Declaration) (t : Trait.t) : option Promise :=
  match preanalyze (Trait.handler t) with
  | Some handler_preanalyze =>
    match handler_preanalyze clazz (DetectResult.metadata (Trait.detected t)) with
    | Returns (Some preanalysis) => Some preanalysis
    | _ => None
    end
  | None => None
  end.

(** A handler whose preanalysis, if it has one, never returns a promise. *)
Definition quiet (handler : DecoratorHandler.t) : Prop :=
  match preanalyze handler with
  | Some handler_preanalyze =>
    ∀ clazz metadata, handler_preanalyze clazz metadata = Returns None
  | None => True
  end.

(** With quiet handlers the loop is the synchronous one. *)
Lemma analyzeTraitsAsync_quiet clazz p positions : ∀ queue c,
  NoDup positions →
  (∀ i, i ∈ positions →
     ∃ t, traitAt c p i = Some t ∧ quiet (Trait.handler t)) →
  analyzeTraitsAsync clazz p positions queue c =
  (match (analyzeTraits clazz p positions c).1 with
   | Normal _ => Normal queue
   | Abrupt e => Abrupt e
   end, (analyzeTraits clazz p positions c).2).
Proof.
  induction positions as [|i rest IH]; intros queue c Hdup Hquiet; simpl;
    [done|].
  apply NoDup_cons in Hdup as [Hi Hdup].
  destruct (Hquiet i ltac:(by left)) as (t & Ht & Hq).
  pose proof Ht as (rec & Hp & Hti)%traitAt_inv.
  erewrite bind_normal by by apply deref_run.
  rewrite Hti.
  assert (Hsync :
    (analyzeTrait clazz p i >> analyzeTraitsAsync clazz p rest queue) c =
    (match ((analyzeTrait clazz p i >> analyzeTraits clazz p rest) c).1 with
     | Normal _ => Normal queue
     | Abrupt e => Abrupt e
     end, ((analyzeTrait clazz p i >> analyzeTraits clazz p rest) c).2)).
  { unfold bind.
    pose proof (λ j, @analyzeTrait_frame clazz p i c p j) as Hframe.
    destruct (analyzeTrait clazz p i c) as [[[]|e] c1]; [|done].
    apply IH; [done|]. intros j Hj.
    destruct (Hquiet j ltac:(by right)) as (t' & Ht' & Hq').
    exists t'. split; [|done]. simpl in Hframe. rewrite Hframe; [done|].
    intros [= ->]. done. }
  unfold quiet in Hq.
  destruct (preanalyze (Trait.handler t)) as [f|]; [|exact Hsync].
  by rewrite Hq.
Qed.

Lemma analyzeClassAsync_quiet clazz queue c :
  (∀ handler, handler ∈ handlers c → quiet handler) →
  analyzeClassAsync clazz queue c =
  (match (analyzeClass clazz c).1 with
   | Normal _ => Normal queue
   | Abrupt e => Abrupt e
   end, (analyzeClass clazz c).2).
Proof.
  intros Hquiet. rewrite analyzeClass_run.
  unfold analyzeClassAsync, bind at 1. rewrite scanClassForTraits_run.
  destruct (eligible c clazz); [|done].
  destruct (scanFirst _ _ _) as [rec|] eqn:Hscan; [|done].
  erewrite bind_normal by by apply deref_run, registered_heap.
  apply analyzeTraitsAsync_quiet; [apply NoDup_seq|].
  pose proof (@scanFirst_fromRegistry clazz (reflector c clazz) (handlers c)
                (handlers c) rec (λ h H, H) Hscan) as Hall.
  intros i Hi. apply elem_of_seq in Hi as [_ Hi]. simpl in Hi.
  destruct (lookup_lt_is_Some_2 _ _ Hi) as [t Ht].
  exists t. rewrite traitAt_registered_new. split; [done|].
  eapply Forall_lookup_1 in Hall as (_ & Hin & _); [|done]. by apply Hquiet.
Qed.

Lemma visitAsync_quiet nodes : ∀ queue c,
  (∀ handler, handler ∈ handlers c → quiet handler) →
  visitAsync nodes queue c =
  (match (visit nodes c).1 with
   | Normal _ => Normal queue
   | Abrupt e => Abrupt e
   end, (visit nodes c).2).
Proof.
  induction nodes as [|node rest IH]; intros queue c Hquiet; simpl; [done|].
  unfold bind. destruct (isNamedClassDeclaration node).
  - rewrite analyzeClassAsync_quiet by done.
    pose proof (analyzeClass_sameConfig node c) as (Hh & _).
    destruct (analyzeClass node c) as [[[]|e] c1]; simpl in *; [|done].
    apply IH. by rewrite Hh.
  - simpl. by apply IH.
Qed.

(** X24.  When no handler of the registry returns a promise from its
    preanalysis (it has no [preanalyze], or its [preanalyze] returns
    [undefined]), [analyzeAsync] does what [analyzeSync] does: it leaves
    the compiler in the same state, throws what [analyzeSync] throws, and
    when it returns it returns [undefined], not a promise. *)
Theorem analyzeAsync_without_preanalysis (sf : SourceFile)
    (nodes : list Declaration) (c : TraitCompiler) :
  (∀ handler, handler ∈ handlers c →
     match preanalyze handler with
     | Some handler_preanalyze =>
       ∀ clazz metadata, handler_preanalyze clazz metadata = Returns None
     | None => True
     end) →
  analyzeAsync sf nodes c =
  (match (analyzeSync sf nodes c).1 with
   | Normal _ => Normal None
   | Abrupt e => Abrupt e
   end, (analyzeSync sf nodes c).2).
Proof.
  intros Hquiet. rewrite analyzeSync_run.
  unfold analyzeAsync, bind at 1. rewrite visitAsync_quiet by done.
  by destruct (visit nodes c) as [[[]|e] c1].
Qed.

(** The entries the loop queues for the traits [traits] from position
    [first] on. *)
Fixpoint deferredOf (clazz : Declaration) (p : ref) (first : nat)
    (traits : list Trait.t) : list Deferred :=
  match traits with
  | [] => []
  | t :: rest =>
    match preanalysisOf clazz t with
    | Some preanalysis =>
      {| awaited := preanalysis; deferredClass := clazz;
         deferredRecord := p; deferredPosition := first |} ::
      deferredOf clazz p (S first) rest
    | None => deferredOf clazz p (S first) rest
    end
  end.

Lemma analyzeTrait_pending_normal clazz p i c t :
  traitAt c p i = Some t → Trait.state t = PENDING →
  (analyzeTrait clazz p i c).1 = Normal tt →
  ∃ t', traitAt (analyzeTrait clazz p i c).2 p i = Some t' ∧
        analysedState (Trait.state t').
Proof.
  intros Ht Hstate Hret.
  pose proof (@analyzeTrait_pending clazz p i c t Ht Hstate) as Hstep.
  destruct (DecoratorHandler.analyze _ _ _) as [result|[msg|d|v]].
  - destruct Hstep as [_ ->]. eexists. split; [done|]. unfold analysedState.
    destruct (AnalysisOutput.diagnostics result);
      [|destruct (AnalysisOutput.analysis result)]; simpl; auto.
  - rewrite Hstep in Hret. done.
  - destruct Hstep as [_ ->]. eexists. split; [done|]. unfold analysedState.
    simpl. auto.
  - rewrite Hstep in Hret. done.
Qed.

Lemma analyzeTraitsAsync_frame clazz p positions : ∀ queue c p' i',
  p' ≠ p ∨ i' ∉ positions →
  traitAt (analyzeTraitsAsync clazz p positions queue c).2 p' i' =
  traitAt c p' i'.
Proof.
  induction positions as [|i rest IH]; intros queue c p' i' Hne; simpl;
    [done|].
  assert (Hrest : p' ≠ p ∨ i' ∉ rest).
  { destruct Hne as [Hne|Hne]; [by left|]. right. intros Hin. apply Hne.
    by right. }
  assert (Hsync : traitAt ((analyzeTrait clazz p i >>
                            analyzeTraitsAsync clazz p rest queue) c).2 p' i' =
                  traitAt c p' i').
  { unfold bind.
    pose proof (@analyzeTrait_frame clazz p i c p' i') as Hframe.
    destruct (analyzeTrait clazz p i c) as [[[]|e] c1]; simpl in *.
    - rewrite IH by done. apply Hframe. intros [= -> ->].
      destruct Hne as [Hne|Hne]; [done|]. apply Hne. by left.
    - apply Hframe. intros [= -> ->].
      destruct Hne as [Hne|Hne]; [done|]. apply Hne. by left. }
  unfold bind at 1, deref, bind, gets. simpl.
  destruct (heap c !! p) as [rec|]; simpl; [|done].
  destruct (ClassRecord.traits rec !! i) as [t|]; [|done].
  destruct (preanalyze (Trait.handler t)) as [f|]; [|exact Hsync].
  destruct (f clazz _) as [[pr|]|e]; [by apply IH|exact Hsync|done].
Qed.

(** The loop over the traits [traits], which are at the positions from
    [first] on and are all PENDING. *)
Lemma analyzeTraitsAsync_pending clazz p traits : ∀ first queue c,
  (∀ k t, traits !! k = Some t →
          traitAt c p (first + k) = Some t ∧ Trait.state t = PENDING) →
  ∀ queue' c',
    analyzeTraitsAsync clazz p (seq first (List.length traits)) queue c =
      (Normal queue', c') →
    queue' = queue ++ deferredOf clazz p first traits ∧
    ∀ k t, traits !! k = Some t →
      match preanalysisOf clazz t with
      | Some _ => traitAt c' p (first + k) = Some t
      | None =>
        ∃ t', traitAt c' p (first + k) = Some t' ∧
              analysedState (Trait.state t')
      end.
Proof.
  induction traits as [|t rest IH]; intros first queue c Hpending queue' c';
    simpl.
  - intros [= <- <-]. split; [by rewrite app_nil_r|]. by intros k t [=].
  - destruct (Hpending 0 t eq_refl) as [Ht Hstate].
    rewrite Nat.add_0_r in Ht.
    pose proof Ht as (rec & Hp & Hti)%traitAt_inv.
    erewrite bind_normal by by apply deref_run.
    rewrite Hti.
    assert (Hlater : ∀ c1,
      (∀ j, j ≠ first → traitAt c1 p j = traitAt c p j) →
      ∀ k t', rest !! k = Some t' →
        traitAt c1 p (S first + k) = Some t' ∧ Trait.state t' = PENDING).
    { intros c1 Hsame k t' Hk.
      destruct (Hpending (S k) t' Hk) as [Ht' Hs']. split; [|done].
      rewrite Hsame by lia.
      by replace (S first + k) with (first + S k) by lia. }
    assert (Hfirst : ∀ q c1,
      traitAt (analyzeTraitsAsync clazz p (seq (S first) (List.length rest))
                 q c1).2 p first = traitAt c1 p first).
    { intros q c1. apply analyzeTraitsAsync_frame. right.
      rewrite elem_of_seq. lia. }
    assert (Hsync :
      preanalysisOf clazz t = None →
      (analyzeTrait clazz p first >>
       analyzeTraitsAsync clazz p (seq (S first) (List.length rest)) queue) c =
        (Normal queue', c') →
      queue' = queue ++ deferredOf clazz p (S first) rest ∧
      ∀ k t0, (t :: rest) !! k = Some t0 →
        match preanalysisOf clazz t0 with
        | Some _ => traitAt c' p (first + k) = Some t0
        | None =>
          ∃ t', traitAt c' p (first + k) = Some t' ∧
                analysedState (Trait.state t')
        end).
    { intros Hnone. unfold bind.
      pose proof (@analyzeTrait_pending_normal clazz p first c t Ht Hstate)
        as Hdone.
      pose proof (λ j, @analyzeTrait_frame clazz p first c p j) as Hframe.
      destruct (analyzeTrait clazz p first c) as [[[]|e] c1]; simpl in *;
        [|done].
      intros Hrun.
      assert (Hsame : ∀ j, j ≠ first → traitAt c1 p j = traitAt c p j).
      { intros j Hj. apply Hframe. intros [= ->]. done. }
      destruct (IH (S first) queue c1 (Hlater c1 Hsame) queue' c' Hrun)
        as [Hq Hrest].
      split; [done|]. intros [|k] t0; simpl.
      - intros [= <-]. rewrite Hnone, Nat.add_0_r.
        specialize (Hfirst queue c1). rewrite Hrun in Hfirst. simpl in Hfirst.
        rewrite Hfirst. by apply Hdone.
      - intros Hk. specialize (Hrest k t0 Hk).
        by replace (first + S k) with (S first + k) by lia. }
    unfold preanalysisOf in *.
    destruct (preanalyze (Trait.handler t)) as [f|] eqn:Hf;
      [|by apply Hsync].
    destruct (f clazz _) as [[pr|]|e] eqn:Hfr; [|by apply Hsync|done].
    intros Hrun.
    destruct (IH (S first) _ c (Hlater c (λ _ _, eq_refl)) queue' c' Hrun)
      as [Hq Hrest].
    split; [by rewrite Hq, <- app_assoc|].
    intros [|k] t0; simpl.
    + intros [= <-]. rewrite Nat.add_0_r.
      specialize (Hfirst (queue ++ [{| awaited := pr; deferredClass := clazz;
                                      deferredRecord := p;
                                      deferredPosition := first |}]) c).
      rewrite Hrun in Hfirst. simpl in Hfirst.
      by rewrite Hf, Hfr, Hfirst.
    + intros Hk. specialize (Hrest k t0 Hk).
      by replace (first + S k) with (S first + k) by lia.
Qed.

Lemma deferredOf_elem clazz p traits : ∀ first d,
  d ∈ deferredOf clazz p first traits ↔
  ∃ k t preanalysis,
    traits !! k = Some t ∧ preanalysisOf clazz t = Some preanalysis ∧
    d = {| awaited := preanalysis; deferredClass := clazz;
           deferredRecord := p; deferredPosition := first + k |}.
Proof.
  induction traits as [|t ts IH]; intros first d; simpl.
  - split; [by intros ?%elem_of_nil|]. by intros (k & t & pr & [=] & _).
  - assert (Hrest : d ∈ deferredOf clazz p (S first) ts ↔
      ∃ k t' pr, (t :: ts) !! S k = Some t' ∧
        preanalysisOf clazz t' = Some pr ∧
        d = {| awaited := pr; deferredClass := clazz;
               deferredRecord := p; deferredPosition := first + S k |}).
    { rewrite IH. split; intros (k & t' & pr & Hk & Hpr & ->);
        exists k, t', pr; (split; [done|]); (split; [done|]);
        f_equal; lia. }
    destruct (preanalysisOf clazz t) as [pr|] eqn:Hpr.
    + rewrite elem_of_cons, Hrest. split.
      * intros [->|(k & t' & pr' & Hk & Hpr' & ->)].
        -- exists 0, t, pr. split_and!; try done. by rewrite Nat.add_0_r.
        -- by exists (S k), t', pr'.
      * intros ([|k] & t' & pr' & Hk & Hpr' & ->).
        -- left. simpl in Hk. injection Hk as <-.
           rewrite Hpr in Hpr'. injection Hpr' as <-. by rewrite Nat.add_0_r.
        -- right. by exists k, t', pr'.
    + rewrite Hrest. split.
      * intros (k & t' & pr' & Hk & Hpr' & ->). by exists (S k), t', pr'.
      * intros ([|k] & t' & pr' & Hk & Hpr' & ->).
        -- simpl in Hk. injection Hk as <-. congruence.
        -- by exists k, t', pr'.
Qed.

(** X25.  When a class gets a record and the loop of [analyzeClass] with
    preanalysis returns, the traits of the record are dealt with one by
    one, in order: a trait whose handler's [preanalyze] returned a promise
    is left as matching made it, PENDING, and its analysis is queued
    behind the promise; every other trait (no [preanalyze], or one that
    returned [undefined]) has been analysed at once and is ANALYZED,
    ERRORED or SKIPPED.  The queue gets one entry for each trait of the
    first kind, in the order of the traits, after the entries it had. *)
Theorem analyzeClassAsync_defers (clazz : Declaration) (queue : list Deferred)
    (c c1 : TraitCompiler) (p : ref) (rec : ClassRecord.t)
    (queue' : list Deferred) (c' : TraitCompiler) :
  scanClassForTraits clazz c = (Normal (Some p), c1) →
  heap c1 !! p = Some rec →
  analyzeClassAsync clazz queue c = (Normal queue', c') →
  (∃ new,
     queue' = queue ++ new ∧
     new = deferredOf clazz p 0 (ClassRecord.traits rec) ∧
     ∀ d, d ∈ new ↔
       ∃ i t preanalysis,
         ClassRecord.traits rec !! i = Some t ∧
         preanalysisOf clazz t = Some preanalysis ∧
         d = {| awaited := preanalysis; deferredClass := clazz;
                deferredRecord := p; deferredPosition := i |}) ∧
  ∀ i t, ClassRecord.traits rec !! i = Some t →
    match preanalysisOf clazz t with
    | Some _ => traitAt c' p i = Some t ∧ Trait.state t = PENDING
    | None =>
      ∃ t', traitAt c' p i = Some t' ∧ analysedState (Trait.state t')
    end.
Proof.
  intros Hscan Hrec. unfold analyzeClassAsync, bind at 1. rewrite Hscan.
  erewrite bind_normal by by apply deref_run.
  intros Hrun.
  assert (Hpending : ∀ k t, ClassRecord.traits rec !! k = Some t →
            traitAt c1 p (0 + k) = Some t ∧ Trait.state t = PENDING).
  { intros k t Hk. split; [by eapply traitAt_Some|].
    rewrite scanClassForTraits_run in Hscan.
    destruct (eligible c clazz); [|done].
    destruct (scanFirst _ _ _) as [rec0|] eqn:Hfirst; [|done].
    injection Hscan as <- <-.
    rewrite registered_heap in Hrec. injection Hrec as ->.
    pose proof (@scanFirst_fromRegistry clazz (reflector c clazz) (handlers c)
                  (handlers c) rec (λ h H, H) Hfirst) as Hall.
    eapply Forall_lookup_1 in Hall; [|done]. apply Hall. }
  destruct (@analyzeTraitsAsync_pending clazz p (ClassRecord.traits rec) 0
              queue c1 Hpending queue' c' Hrun) as [Hq Htraits].
  split.
  - eexists. split; [exact Hq|]. split; [done|]. intros d.
    rewrite deferredOf_elem. by setoid_rewrite Nat.add_0_l.
  - intros i t Hi. specialize (Htraits i t Hi). simpl in Htraits.
    destruct (preanalysisOf clazz t); [|done]. split; [done|].
    by apply (Hpending i t Hi).
Qed.

End Preanalysis.

End Compilation.

(** * A small program

    One class with its decorators, a few handlers, and the compiler taken
    through matching, analysis, resolution and compilation. *)

Module Scenario.

(** The value of [ErrorCode.DECORATOR_COLLISION]. *)
Definition DECORATOR_COLLISION : N := 1006.

Definition app_ts : SourceFile := {| fileName := "app.component.ts" |}.
Definition module_ts : SourceFile := {| fileName := "app.module.ts" |}.
Definition tokens_ts : SourceFile := {| fileName := "tokens.ts" |}.
Definition pipe_ts : SourceFile := {| fileName := "date.pipe.ts" |}.
Definition highlight_ts : SourceFile := {| fileName := "highlight.directive.ts" |}.

Definition classIn (id : nat) (name : string) (sf : SourceFile) : Declaration :=
  mkDeclaration id ClassDeclarationKind (Some name) sf 0 100 true None.

Definition AppComponent : Declaration := classIn 1 "AppComponent" app_ts.
Definition AppModule : Declaration := classIn 2 "AppModule" module_ts.
Definition DatePipe : Declaration := classIn 3 "DatePipe" pipe_ts.
Definition HighlightDirective : Declaration :=
  classIn 4 "HighlightDirective" highlight_ts.
Definition SharedDirective : Declaration :=
  classIn 5 "SharedDirective" module_ts.

(** A handler that answers for the classes that carry its decorator. *)
Definition handlerOn (decorator : Decorator) (precedence : HandlerPrecedence)
    (analyze : Outcome AnalysisOutput.t)
    (resolve : option (Outcome ResolveResult.t))
    (compile : CompileReturn) : DecoratorHandler.t :=
  {| DecoratorHandler.constructorName := decorator +:+ "DecoratorHandler";
     DecoratorHandler.precedence := precedence;
     DecoratorHandler.detect := λ _ decorators,
       match decorators with
       | Some ds =>
         if bool_decide (decorator ∈ ds)
         then Some {| DetectResult.trigger := Some decorator;
                      DetectResult.metadata := decorator |}
         else None
       | None => None
       end;
     DecoratorHandler.analyze := λ _ _, analyze;
     DecoratorHandler.resolve := (λ r, λ _ _, r) <$> resolve;
     DecoratorHandler.typeCheck := None;
     DecoratorHandler.index := None;
     DecoratorHandler.compile := λ _ _ _ constantPool, (compile, constantPool) |}.

Definition analysed (a : unknown) : Outcome AnalysisOutput.t :=
  Returns {| AnalysisOutput.analysis := Some a;
             AnalysisOutput.diagnostics := None;
             AnalysisOutput.factorySymbolName := None |}.

Definition resolved (module symbol : string) : Outcome ResolveResult.t :=
  Returns {| ResolveResult.reexports :=
               Some [{| Reexport.symbolName := symbol;
                        Reexport.asAlias := "ng_alias_0";
                        Reexport.fromModule := module |}];
             ResolveResult.diagnostics := None;
             ResolveResult.data := Some "scope" |}.

Definition field (name : string) : CompileResult.t :=
  {| CompileResult.name := name;
     CompileResult.initializer := "initializer";
     CompileResult.statements := [];
     CompileResult.type := "type" |}.

Definition missingTemplate : Diagnostic.t :=
  {| Diagnostic.category := Error;
     Diagnostic.code := Some (-992001)%Z;
     Diagnostic.file := app_ts;
     Diagnostic.start := 10;
     Diagnostic.length := 20;
     Diagnostic.messageText := "component is missing a template" |}.

Definition component : DecoratorHandler.t :=
  handlerOn "Component" PRIMARY (analysed "component")
    (Some (resolved "./button" "Button"))
    (Many [field "ngComponentDef"; field "ngFactoryDef"]).

Definition directive : DecoratorHandler.t :=
  handlerOn "Directive" PRIMARY (analysed "directive") None
    (Many [field "ngDirectiveDef"; field "ngFactoryDef"]).

Definition injectable : DecoratorHandler.t :=
  handlerOn "Injectable" SHARED (analysed "injectable")
    (Some (resolved "./card" "Card"))
    (Many [field "ngInjectableDef"; field "ngFactoryDef"]).

Definition baseDef : DecoratorHandler.t :=
  handlerOn "Input" WEAK (analysed "inputs") None (Single (field "ngBaseDef")).

Definition rejecting : DecoratorHandler.t :=
  handlerOn "Component" PRIMARY (Throws (FatalDiagnosticError missingTemplate))
    None (Single (field "ngComponentDef")).

Definition crashing : DecoratorHandler.t :=
  handlerOn "Component" PRIMARY (Throws (JsError "Maximum call stack size exceeded"))
    None (Single (field "ngComponentDef")).

(** Scenario C: the scope of [AppModule] for [HighlightDirective], which
    it declares; a component, the directive itself and a pipe are in
    scope. *)
Definition appScope : CompilationScope.t :=
  {| CompilationScope.declaration := HighlightDirective;
     CompilationScope.ngModule := AppModule;
     CompilationScope.directives :=
       [{| ScopeMember.node := AppComponent; ScopeMember.isComponent := true |};
        {| ScopeMember.node := HighlightDirective;
           ScopeMember.isComponent := false |}];
     CompilationScope.pipes := [{| ScopeMember.pipeNode := DatePipe |}] |}.

(** The same for a directive that is declared in the file of the NgModule
    itself. *)
Definition moduleScope : CompilationScope.t :=
  {| CompilationScope.declaration := SharedDirective;
     CompilationScope.ngModule := AppModule;
     CompilationScope.directives :=
       [{| ScopeMember.node := AppComponent; ScopeMember.isComponent := true |}];
     CompilationScope.pipes := [{| ScopeMember.pipeNode := DatePipe |}] |}.

(** The scope of [AppModule] for [AppComponent]: the declaration of the
    scope is the component member itself. *)
Definition componentScope : CompilationScope.t :=
  {| CompilationScope.declaration := AppComponent;
     CompilationScope.ngModule := AppModule;
     CompilationScope.directives :=
       [{| ScopeMember.node := AppComponent; ScopeMember.isComponent := true |}];
     CompilationScope.pipes := [{| ScopeMember.pipeNode := DatePipe |}] |}.

(** A new compiler for a program whose classes all carry [decorators]. *)
Definition compilerWith (handlers : list DecoratorHandler.t)
    (decorators : list Decorator) (scopes : list CompilationScope.t)
    (edges : IncrementalDriver.t) : TraitCompiler :=
  {| handlers := handlers;
     reflector := λ _, Some decorators;
     incrementalDriver := edges;
     perf := [];
     sourceToFactorySymbols := None;
     scopeRegistry := scopes;
     compileNonExportedClasses := true;
     dtsTransforms := [];
     mwpScanner := λ _, [];
     classes := JsMap.empty;
     fileToClasses := JsMap.empty;
     reexportMap := JsMap.empty;
     heap := [] |}.

(** The file of the declaration of each scope is known to depend on
    [tokens.ts]. *)
Definition compilerOf (handlers : list DecoratorHandler.t)
    (decorators : list Decorator) : TraitCompiler :=
  compilerWith handlers decorators [appScope] [(tokens_ts, highlight_ts)].

Definition oneFile : TraitCompiler :=
  compilerWith [] [] [moduleScope] [(tokens_ts, module_ts)].

Definition ownScope : TraitCompiler :=
  compilerWith [] [] [componentScope] [(tokens_ts, app_ts)].

(** Scenario A: a WEAK handler first, then a PRIMARY one. *)
Definition weakThenPrimary : TraitCompiler :=
  compilerOf [baseDef; component] ["Input"; "Component"].

(** Scenario B: two PRIMARY handlers among others. *)
Definition twoPrimary : TraitCompiler :=
  compilerOf [baseDef; component; injectable; directive]
    ["Input"; "Component"; "Injectable"; "Directive"].

(** A PRIMARY handler and one that is neither PRIMARY nor WEAK, then a WEAK
    one. *)
Definition weakLast : TraitCompiler :=
  compilerOf [component; injectable; baseDef] ["Input"; "Component"; "Injectable"].

(** The handlers that reject or crash, matched but not yet analysed. *)
Definition rejected : TraitCompiler :=
  (scanClassForTraits DECORATOR_COLLISION AppComponent
     (compilerOf [rejecting; injectable] ["Component"; "Injectable"])).2.

Definition crashed : TraitCompiler :=
  (scanClassForTraits DECORATOR_COLLISION AppComponent
     (compilerOf [crashing; injectable] ["Component"; "Injectable"])).2.

(** The program after the analysis of its file, and after [resolve]. *)
Definition analyzed : TraitCompiler :=
  (analyzeSync DECORATOR_COLLISION app_ts [AppComponent]
     (compilerOf [component; injectable] ["Component"; "Injectable"])).2.

Definition resolvedOnce : TraitCompiler := (resolve analyzed).2.

Ltac answers := eexists; vm_compute; reflexivity.

(** Scenario A by evaluation: only the trait of the PRIMARY handler is
    left. *)
Example scenario_A :
  let c' := (scanClassForTraits DECORATOR_COLLISION AppComponent weakThenPrimary).2 in
  (λ rec, map (λ t, DecoratorHandler.constructorName (Trait.handler t))
              (ClassRecord.traits rec)) <$> recordOf c' AppComponent
  = Some ["ComponentDecoratorHandler"].
Proof. vm_compute. reflexivity. Qed.

(** Scenario B by evaluation: no trait, one diagnostic. *)
Example scenario_B :
  let c' := (scanClassForTraits DECORATOR_COLLISION AppComponent twoPrimary).2 in
  (λ rec, (ClassRecord.traits rec,
           map Diagnostic.messageText <$> ClassRecord.metaDiagnostics rec))
    <$> recordOf c' AppComponent
  = Some ([], Some ["Two incompatible decorators on class"]).
Proof. vm_compute. reflexivity. Qed.

Example collision_code :
  Diagnostic.code (collisionDiagnostic DECORATOR_COLLISION AppComponent)
  = Some (-991006)%Z.
Proof. vm_compute. reflexivity. Qed.

Lemma scan_primary_collision_witness :
  ∃ p rec,
    (scanClassForTraits DECORATOR_COLLISION AppComponent twoPrimary).1
      = Normal (Some p) ∧
    heap (scanClassForTraits DECORATOR_COLLISION AppComponent twoPrimary).2 !! p
      = Some rec ∧
    ClassRecord.traits rec = [] ∧
    ClassRecord.metaDiagnostics rec
      = Some [collisionDiagnostic DECORATOR_COLLISION AppComponent].
Proof.
  destruct (scan_primary_collision DECORATOR_COLLISION AppComponent twoPrimary)
    as (res & Hres & _ & Hcollision).
  destruct (Hcollision [baseDef] component [injectable] directive []
              eq_refl eq_refl eq_refl ltac:(answers) eq_refl ltac:(answers))
    as [(p & rec & d & -> & Hp & Hmeta & -> & _ & _ & _ & _ & _ & Htraits) _].
  exists p, rec. split_and!; [exact Hres|exact Hp|exact Htraits|exact Hmeta].
Defined.

Lemma scan_weak_handlers_witness :
  (∃ p rec,
     (scanClassForTraits DECORATOR_COLLISION AppComponent weakThenPrimary).1
       = Normal (Some p) ∧
     heap (scanClassForTraits DECORATOR_COLLISION AppComponent weakThenPrimary).2
       !! p = Some rec ∧
     ∀ t, t ∈ ClassRecord.traits rec →
          Trait.precedence t ≠ WEAK ∧ Trait.handler t ≠ baseDef) ∧
  scanHandlers DECORATOR_COLLISION AppComponent (reflector weakLast AppComponent)
    [component; injectable; baseDef] None weakLast =
  scanHandlers DECORATOR_COLLISION AppComponent (reflector weakLast AppComponent)
    [component; injectable] None weakLast.
Proof.
  split.
  - destruct (scan_weak_handlers DECORATOR_COLLISION AppComponent weakThenPrimary)
      as (res & Hres & Hbefore & _).
    destruct (Hbefore [] baseDef [] component [] eq_refl eq_refl eq_refl
                ltac:(answers) ltac:(discriminate) ltac:(answers))
      as (p & rec & -> & Hp & Hnone).
    by exists p, rec.
  - destruct (scan_weak_handlers DECORATOR_COLLISION AppComponent weakLast)
      as (res & _ & _ & Hafter).
    apply (Hafter [] component [injectable] baseDef []
             ltac:(discriminate) ltac:(answers) eq_refl ltac:(answers)).
Defined.

Lemma scan_flags_in_sync_witness :
  ∃ rec,
    heap (scanClassForTraits DECORATOR_COLLISION AppComponent weakLast).2 !! 0
      = Some rec ∧
    ClassRecord.metaDiagnostics rec = None ∧
    ClassRecord.traits rec ≠ [] ∧
    (ClassRecord.hasPrimaryHandler rec = true ↔
     ∃ t, t ∈ ClassRecord.traits rec ∧ Trait.precedence t = PRIMARY) ∧
    (ClassRecord.hasWeakHandlers rec = true ↔
     ∀ t, t ∈ ClassRecord.traits rec → Trait.precedence t = WEAK).
Proof.
  destruct (scan_flags_in_sync DECORATOR_COLLISION AppComponent weakLast)
    as (res & Hres & Hrec).
  vm_compute in Hres. injection Hres as <-.
  destruct (Hrec 0 eq_refl) as (rec & Hp & Hflags).
  assert (Hmeta : ClassRecord.metaDiagnostics rec = None).
  { vm_compute in Hp. by injection Hp as <-. }
  exists rec. split; [exact Hp|]. split; [exact Hmeta|]. exact (Hflags Hmeta).
Defined.

Lemma scan_never_unregisters_witness :
  ∃ rec,
    recordOf (scanClassForTraits DECORATOR_COLLISION AppComponent twoPrimary).2
      AppComponent = Some rec ∧
    ClassRecord.traits rec = [] ∧
    ClassRecord.metaDiagnostics rec
      = Some [collisionDiagnostic DECORATOR_COLLISION AppComponent] ∧
    JsMap.has AppComponent
      (classes (scanClassForTraits DECORATOR_COLLISION AppComponent twoPrimary).2)
      = true ∧
    ∃ s, JsMap.get app_ts
           (fileToClasses
              (scanClassForTraits DECORATOR_COLLISION AppComponent twoPrimary).2)
         = Some s ∧ AppComponent ∈ s.
Proof.
  destruct (scan_never_unregisters DECORATOR_COLLISION AppComponent twoPrimary)
    as (res & _ & _ & _ & _ & Hcollision).
  exact (Hcollision [baseDef] component [injectable] directive []
           eq_refl eq_refl eq_refl ltac:(answers) eq_refl ltac:(answers)).
Defined.

(** A rejected analysis by evaluation: the pass goes on, the one trait is
    ERRORED and the other ANALYZED. *)
Example rejected_analysis :
  let out := analyzeSync DECORATOR_COLLISION app_ts [AppComponent]
               (compilerOf [rejecting; injectable] ["Component"; "Injectable"]) in
  out.1 = Normal tt ∧
  (λ rec, map Trait.state (ClassRecord.traits rec)) <$> recordOf out.2 AppComponent
  = Some [ERRORED; ANALYZED].
Proof. vm_compute. done. Qed.

(** A crash by evaluation: the pass ends with the handler's exception. *)
Example crashed_analysis :
  (analyzeSync DECORATOR_COLLISION app_ts [AppComponent; AppModule]
     (compilerOf [crashing; injectable] ["Component"; "Injectable"])).1
  = Abrupt (JsError "Maximum call stack size exceeded").
Proof. vm_compute. reflexivity. Qed.

Lemma analyze_throws_witness :
  (∃ c',
     analyzeTrait AppComponent 0 0 rejected = (Normal tt, c') ∧
     Trait.state <$> traitAt c' 0 0 = Some ERRORED ∧
     Trait.diagnostics <$> traitAt c' 0 0 = Some (Some [missingTemplate]) ∧
     traitAt c' 0 1 = traitAt rejected 0 1) ∧
  analyzeTrait AppComponent 0 0 crashed
    = (Abrupt (JsError "Maximum call stack size exceeded"), crashed).
Proof.
  split.
  - edestruct (analyze_throws DECORATOR_COLLISION AppComponent 0 0 rejected)
      as (Hframe & Hfatal & _);
      [vm_compute; reflexivity|vm_compute; reflexivity|reflexivity|].
    destruct (Hfatal missingTemplate eq_refl)
      as (c' & trait' & Hrun & Htrait & Hstate & Hdiagnostics & _).
    exists c'. split; [exact Hrun|]. rewrite Htrait. simpl.
    split; [by rewrite Hstate|]. split; [by rewrite Hdiagnostics|].
    specialize (Hframe 0 1 ltac:(discriminate)).
    rewrite Hrun in Hframe. exact Hframe.
  - edestruct (analyze_throws DECORATOR_COLLISION AppComponent 0 0 crashed)
      as (_ & _ & Hother);
      [vm_compute; reflexivity|vm_compute; reflexivity|reflexivity|].
    exact (proj1 (Hother (JsError "Maximum call stack size exceeded") eq_refl
                    ltac:(discriminate))).
Defined.

(** Resolution by evaluation: both traits end RESOLVED. *)
Example resolved_traits :
  (resolve analyzed).1 = Normal tt ∧
  (λ rec, map Trait.state (ClassRecord.traits rec))
    <$> recordOf resolvedOnce AppComponent
  = Some [RESOLVED; RESOLVED].
Proof. vm_compute. done. Qed.


Lemma reexports_last_write_wins_witness :
  resolveWrites analyzed
    = [("app.component.ts", "ng_alias_0", ("./button", "Button"));
       ("app.component.ts", "ng_alias_0", ("./card", "Card"))] ∧
  reexportOf (reexportMap (resolve analyzed).2) "app.component.ts" "ng_alias_0"
    = Some ("./card", "Card").
Proof.
  split; [vm_compute; reflexivity|].
  destruct (reexports_last_write_wins DECORATOR_COLLISION)
    as (_ & _ & _ & _ & _ & _ & _ & _ & Hlast).
  rewrite Hlast.
  vm_compute. reflexivity.
Defined.

Lemma compile_no_duplicate_names_witness :
  ∃ res constantPool',
    (compile AppComponent [] resolvedOnce).1 = Normal (Some res, constantPool') ∧
    names res = ["ngComponentDef"; "ngFactoryDef"; "ngInjectableDef"] ∧
    NoDup (names res).
Proof.
  destruct (compile_no_duplicate_names AppComponent [] resolvedOnce)
    as [_ Hrecord].
  edestruct Hrecord as (res & pool & Hrun & Hres & Hnodup & _);
    [reflexivity|reflexivity|vm_compute; reflexivity|].
  exists res, pool. split_and!; [|by subst res|exact Hnodup].
  rewrite Hrun. by subst res.
Defined.

Lemma compile_returns_and_registers_witness :
  ∃ constantPool' c',
    compile AppComponent [] resolvedOnce
      = (Normal (Some [field "ngComponentDef"; field "ngFactoryDef";
                       field "ngInjectableDef"], constantPool'), c') ∧
    dtsTransforms c'
      = [DtsTransformRegistry.addFields app_ts AppComponent
           [field "ngComponentDef"; field "ngFactoryDef";
            field "ngInjectableDef"]].
Proof.
  edestruct (compile_returns_and_registers AppComponent [] resolvedOnce)
    as (_ & _ & Hrecord).
  edestruct Hrecord as (pool & c' & Hrun & Hdts);
    [reflexivity|reflexivity|vm_compute; reflexivity|].
  exists pool, c'. split; [exact Hrun|exact Hdts].
Defined.

(** The edges after the recording, by evaluation. *)
Example recorded_edges :
  incrementalDriver (recordNgModuleScopeDependencies analyzed).2
  = [(tokens_ts, highlight_ts); (tokens_ts, module_ts);
     (module_ts, highlight_ts); (app_ts, highlight_ts); (tokens_ts, app_ts);
     (highlight_ts, highlight_ts); (pipe_ts, highlight_ts)].
Proof. vm_compute. reflexivity. Qed.

Example recorded_edges_own_scope :
  incrementalDriver (recordNgModuleScopeDependencies ownScope).2
  = [(tokens_ts, app_ts); (tokens_ts, module_ts); (module_ts, app_ts);
     (app_ts, app_ts); (tokens_ts, app_ts); (pipe_ts, app_ts)].
Proof. vm_compute. reflexivity. Qed.

Example recorded_edges_one_file :
  incrementalDriver (recordNgModuleScopeDependencies oneFile).2
  = [(tokens_ts, module_ts); (tokens_ts, module_ts); (module_ts, module_ts);
     (app_ts, module_ts); (tokens_ts, app_ts); (pipe_ts, module_ts)].
Proof. vm_compute. reflexivity. Qed.



End Scenario.
